(** * workshop.py: a shallow embedding of the Steam workshop synchroniser

    The development follows [workshop.py] function by function:
    the request templates [const_data], the two catalog calls
    [get_plugins_id_from_collections_list] and [get_plugins_info], the
    reconciliation helper [plugins_to_remove], the threaded batch
    [download_plugins_concurrently] and the control flow of [main].

    Python dictionaries whose iteration order reaches the wire (the request
    templates) are insertion-ordered association lists; dictionaries used as
    maps (the saved plugins, the [succeed] result) are [gmap]s.  Module-level
    state, the state file and the observable events live in a [world] that is
    threaded through a small state-and-exception monad. *)

From Stdlib Require Import ZArith Ascii String List.
From stdpp Require Import base option list gmap strings pretty fin_maps.
Import ListNotations.
Local Open Scope string_scope.
Local Open Scope list_scope.
Local Open Scope nat_scope.

(** ** Python values that end up in a request *)

(** A request parameter is an [int] (the counters and the initial [0]
    placeholders) or a [str] (the identifiers). *)
Inductive pyval :=
| VInt (z : Z)
| VStr (s : string).

(** [str(v)] *)
Definition py_str (v : pyval) : string :=
  match v with
  | VInt z => pretty z
  | VStr s => s
  end.

(** An insertion-ordered [dict] with [str] keys. *)
Definition dict := list (string * pyval).

(** [d[k] = v]: overwrite in place when the key exists, append otherwise. *)
Fixpoint dict_set (k : string) (v : pyval) (d : dict) : dict :=
  match d with
  | [] => [(k, v)]
  | (k', v') :: d' =>
      if String.eqb k k' then (k, v) :: d' else (k', v') :: dict_set k v d'
  end.

(** [d.get(k)] *)
Fixpoint dict_get (k : string) (d : dict) : option pyval :=
  match d with
  | [] => None
  | (k', v') :: d' => if String.eqb k k' then Some v' else dict_get k d'
  end.

(** ** [urllib.parse.urlencode] *)

Definition hex_digit (n : N) : ascii :=
  ascii_of_N (if (n <? 10)%N then 48 + n else 55 + n)%N.

(** Characters [quote_plus] never escapes: letters, digits and [_.-~]. *)
Definition always_safe (c : ascii) : bool :=
  let n := N_of_ascii c in
  (((65 <=? n) && (n <=? 90)) || ((97 <=? n) && (n <=? 122)) ||
   ((48 <=? n) && (n <=? 57)) ||
   (n =? 95) || (n =? 46) || (n =? 45) || (n =? 126))%N.

Fixpoint quote_plus (s : string) : string :=
  match s with
  | EmptyString => EmptyString
  | String c s' =>
      if always_safe c then String c (quote_plus s')
      else if (N_of_ascii c =? 32)%N then String "+"%char (quote_plus s')
      else String "%"%char
             (String (hex_digit (N_of_ascii c / 16))
                (String (hex_digit (N_of_ascii c mod 16)) (quote_plus s')))
  end.

Fixpoint join_amp (l : list string) : string :=
  match l with
  | [] => ""
  | [x] => x
  | x :: l' => x +:+ "&" +:+ join_amp l'
  end.

Definition urlencode (d : dict) : string :=
  join_amp (map (fun kv => quote_plus (fst kv) +:+ "=" +:+ quote_plus (py_str (snd kv))) d).

(** ** Catalog records *)

(** An entry of a collection's [children]. *)
Record item := {
  item_publishedfileid : string;
  item_filetype : Z;
}.

(** An entry of [collectiondetails]; [children] may be missing. *)
Record collection := {
  coll_publishedfileid : string;
  coll_children : option (list item);
}.

(** An entry of [publishedfiledetails]; only the keys the program reads. *)
Record plugin := {
  publishedfileid : option string;
  title : option string;
  file_url : option string;
  time_updated : option Z;
}.

(** What the state file keeps per plugin:
    [{k: plugin[k] for k in ('title', 'time_updated') if k in plugin}]. *)
Record plugin_meta := {
  meta_title : option string;
  meta_time_updated : option Z;
}.

Definition meta_of (p : plugin) : plugin_meta :=
  {| meta_title := title p; meta_time_updated := time_updated p |}.

Global Instance item_eq_dec : EqDecision item.
Proof. solve_decision. Defined.
Global Instance collection_eq_dec : EqDecision collection.
Proof. solve_decision. Defined.
Global Instance plugin_eq_dec : EqDecision plugin.
Proof. solve_decision. Defined.
Global Instance plugin_meta_eq_dec : EqDecision plugin_meta.
Proof. solve_decision. Defined.

(** The content of [addons.lst]; either key may be missing. *)
Record saved_data := {
  sd_collections : option (list string);
  sd_plugins : option (gmap string plugin_meta);
}.

(** ** Outcomes of the network *)

(** [e.reason] of a [URLError] is a [str] or some exception object. *)
Inductive url_reason :=
| ReasonStr (s : string)
| ReasonObj.

Inductive http_result (A : Type) :=
| Response (a : A)
| HTTPError (code : Z)
| URLError (reason : url_reason).
Arguments Response {A} a.
Arguments HTTPError {A} code.
Arguments URLError {A} reason.

(** The value bound to [error] by the catalog functions. *)
Inductive catalog_error :=
| ErrHTTP (code : Z)
| ErrURL (reason : url_reason).

(** What [urlretrieve] does for one plugin of a batch. *)
Inductive retrieve_result :=
| Retrieved
| RetrieveHTTPError (code : Z)
| RetrieveOtherError.

(** ** The world *)

Inductive endpoint := EpFile | EpCollection.

Inductive event :=
| EvRequest (ep : endpoint) (encode_data : string)
| EvBatch (error : nat) (fail : list plugin) (succeed : gmap string plugin_meta)
| EvWrite (sd : saved_data).

Record world := {
  const_data_file : dict;
  const_data_collection : dict;
  save_file : option saved_data;
  trace : list event;
}.

(** The module as it is right after import. *)
Definition const_data_file0 : dict :=
  [("itemcount", VInt 0); ("publishedfileids[0]", VInt 0)].
Definition const_data_collection0 : dict :=
  [("collectioncount", VInt 0); ("publishedfileids[0]", VInt 0)].

Definition fresh_world (file : option saved_data) : world :=
  {| const_data_file := const_data_file0;
     const_data_collection := const_data_collection0;
     save_file := file;
     trace := [] |}.

(** ** The monad: state, Python exceptions, and running out of fuel *)

Inductive exn :=
| NameError (name : string)
| KeyError (key : string)
| TypeError
| RecursionError.

Inductive outcome (A : Type) :=
| Val (a : A)
| Exn (e : exn)
| Diverge.
Arguments Val {A} a.
Arguments Exn {A} e.
Arguments Diverge {A}.

Definition M (A : Type) : Type := world -> outcome A * world.

Definition ret {A} (a : A) : M A := fun w => (Val a, w).
Definition raise {A} (e : exn) : M A := fun w => (Exn e, w).
Definition diverge {A} : M A := fun w => (Diverge, w).
Definition bind {A B} (c : M A) (k : A -> M B) : M B :=
  fun w =>
    match c w with
    | (Val a, w') => k a w'
    | (Exn e, w') => (Exn e, w')
    | (Diverge, w') => (Diverge, w')
    end.

Notation "'let*' x := c 'in' k" := (bind c (fun x => k))
  (at level 10, x pattern, c at level 200, k at level 200).

Definition emit (e : event) : M unit :=
  fun w => (Val tt, {| const_data_file := const_data_file w;
                       const_data_collection := const_data_collection w;
                       save_file := save_file w;
                       trace := trace w ++ [e] |}).

Definition set_const_data (ep : endpoint) (d : dict) : M unit :=
  fun w => (Val tt,
    match ep with
    | EpFile => {| const_data_file := d;
                   const_data_collection := const_data_collection w;
                   save_file := save_file w; trace := trace w |}
    | EpCollection => {| const_data_file := const_data_file w;
                         const_data_collection := d;
                         save_file := save_file w; trace := trace w |}
    end).

Definition get_const_data (ep : endpoint) : M dict :=
  fun w => (Val match ep with
                | EpFile => const_data_file w
                | EpCollection => const_data_collection w
                end, w).

(** [json.dump(saved_data, file)] on [save_file] *)
Definition write_save_file (sd : saved_data) : M unit :=
  fun w => (Val tt, {| const_data_file := const_data_file w;
                       const_data_collection := const_data_collection w;
                       save_file := Some sd;
                       trace := trace w ++ [EvWrite sd] |}).

(** [load_saved_data]: the file's content, [{}] when there is no file. *)
Definition load_saved_data : M saved_data :=
  fun w => (Val match save_file w with
                | Some sd => sd
                | None => {| sd_collections := None; sd_plugins := None |}
                end, w).

(** ** The catalog calls *)

(** What [urlencode] serialises: every key with [str] of its value.  The
    catalog is a function of these fields. *)
Definition form_fields (d : dict) : list (string * string) :=
  map (fun kv => (fst kv, py_str (snd kv))) d.

Definition publishedfileids_key (idx : nat) : string :=
  "publishedfileids[" +:+ pretty idx +:+ "]".

(** [for idx, x in enumerate(l): data['publishedfileids[' + str(idx) + ']'] = x] *)
Fixpoint set_publishedfileids (idx : nat) (l : list string) (data : dict) : dict :=
  match l with
  | [] => data
  | x :: l' =>
      set_publishedfileids (S idx) l' (dict_set (publishedfileids_key idx) (VStr x) data)
  end.

(** The three accumulators of the response loop. *)
Record resolve_acc := {
  valid_collections : list string;
  sub_collection : list string;
  plugins_id_list : list string;
}.

(** The body of [for item in collection['children']]; an unrecognised
    file type is only printed. *)
Definition scan_item (acc : resolve_acc) (it : item) : resolve_acc :=
  if (item_filetype it =? 0)%Z then
    {| valid_collections := valid_collections acc;
       sub_collection := sub_collection acc;
       plugins_id_list := plugins_id_list acc ++ [item_publishedfileid it] |}
  else if (item_filetype it =? 2)%Z then
    {| valid_collections := valid_collections acc;
       sub_collection := sub_collection acc ++ [item_publishedfileid it];
       plugins_id_list := plugins_id_list acc |}
  else acc.

(** The body of [for collection in json_response[...]]. *)
Definition scan_collection (acc : resolve_acc) (c : collection) : resolve_acc :=
  match coll_children c with
  | Some children =>
      fold_left scan_item children
        {| valid_collections := valid_collections acc ++ [coll_publishedfileid c];
           sub_collection := sub_collection acc;
           plugins_id_list := plugins_id_list acc |}
  | None => acc
  end.

Definition scan_response (details : list collection) : resolve_acc :=
  fold_left scan_collection details
    {| valid_collections := []; sub_collection := []; plugins_id_list := [] |}.

(** [list(set(l))]: some duplicate-free enumeration of the elements. *)
Definition list_set (l : list string) : list string :=
  elements (list_to_set l : gset string).

(** [plugins_to_remove]: neither argument is written to and nothing of the
    world is touched, so it is a plain function.  The keys come in the
    order of the map rather than in the dict's insertion order; [main]
    passes the result through [list(set(...))], which forgets the order. *)
Definition plugins_to_remove (plugins_id_list : list string)
    (old_plugins : gmap string plugin_meta) : list string :=
  filter (fun plugin_id => plugin_id ∉ plugins_id_list)
         (elements (dom old_plugins)).

Section Catalog.

(** The remote catalog: what [urlopen] answers to the form fields posted
    to either endpoint. *)
Variable urlopen_collection : list (string * string) -> http_result (list collection).
Variable urlopen_file : list (string * string) -> http_result (list plugin).

(** The [except] clauses: [print("Can't reach server: " + e.reason)]
    concatenates a [str] with [e.reason]. *)
Definition on_url_error {A} (reason : url_reason) (a : A) : M A :=
  match reason with
  | ReasonStr _ => ret a
  | ReasonObj => raise TypeError
  end.

(** The request both catalog functions build: the shared template is
    updated in place and then encoded. *)
Definition prepare_request (ep : endpoint) (count_key : string)
    (ids : list string) : M dict :=
  let* data := get_const_data ep in
  let data := dict_set count_key (VInt (Z.of_nat (length ids))) data in
  let data := set_publishedfileids 0 ids data in
  let* _ := set_const_data ep data in
  let* _ := emit (EvRequest ep (urlencode data)) in
  ret data.

(** Lines 129-131 on their own: the template is updated in place, nothing
    is encoded or sent yet. *)
Definition fill_template (ep : endpoint) (count_key : string)
    (ids : list string) : M dict :=
  let* data := get_const_data ep in
  let data := dict_set count_key (VInt (Z.of_nat (length ids))) data in
  let data := set_publishedfileids 0 ids data in
  let* _ := set_const_data ep data in
  ret data.

(** The function calls itself (line 155) once per nesting level, and the
    interpreter bounds the depth of nested calls: [depth] is the number of
    nested calls of the function that still get their request through.
    The call after them raises [RecursionError], which no handler of the
    function catches ([HTTPError] and [URLError] are the only ones).  The
    body of a call starts as soon as one frame is left, whereas
    [urlencode] and [urlopen] of lines 132 and 135 need several more: the
    call that fails has updated the template and has sent nothing. *)
Fixpoint get_plugins_id_from_collections_list (depth : nat)
    (collections_id_list : list string)
    : M (option catalog_error * list string * list string) :=
  match depth with
  | 0 =>
      let* _ := fill_template EpCollection "collectioncount" collections_id_list in
      raise RecursionError
  | S depth' =>
      let* data := prepare_request EpCollection "collectioncount" collections_id_list in
      match urlopen_collection (form_fields data) with
      | HTTPError code => ret (Some (ErrHTTP code), [], [])
      | URLError reason => on_url_error reason (Some (ErrURL reason), [], [])
      | Response details =>
          let acc := scan_response details in
          match sub_collection acc with
          | [] => ret (None, plugins_id_list acc, valid_collections acc)
          | _ :: _ =>
              let* (error, plugins_id_list_temp, _) :=
                get_plugins_id_from_collections_list depth' (sub_collection acc) in
              match error with
              | None => ret (None, plugins_id_list acc ++ plugins_id_list_temp,
                             valid_collections acc)
              | Some e => ret (Some e, plugins_id_list acc, valid_collections acc)
              end
          end
      end
  end.

Definition get_plugins_info (plugins_id_list : list string)
    : M (option catalog_error * list plugin) :=
  let* data := prepare_request EpFile "itemcount" plugins_id_list in
  match urlopen_file (form_fields data) with
  | HTTPError code => ret (Some (ErrHTTP code), [])
  | URLError reason => on_url_error reason (Some (ErrURL reason), [])
  | Response details => ret (None, details)
  end.

End Catalog.

(** ** The threaded download batch *)

(** What a batch prints, plus the thread starts and the calls of
    [urlretrieve]; the number is the position of the plugin in the batch. *)
Inductive devent :=
| DStart (i : nat)
| DUpToDate (i : nat)
| DUrlretrieve (i : nat) (url : string) (output_dir name : string)
| DComplete (i : nat)
| DServerError (i : nat) (code : Z).

(** The variables the workers share with the dispatch loop, the threads
    started and not yet run, and the events so far. *)
Record dstate := {
  d_error : nat;
  d_downloads : nat;
  d_fail : list plugin;
  d_succeed : gmap string plugin_meta;
  d_threads : list (nat * plugin);
  d_events : list devent;
}.

Definition dstate0 : dstate :=
  {| d_error := 0; d_downloads := 0; d_fail := []; d_succeed := ∅;
     d_threads := []; d_events := [] |}.

(** The condition of the fast path,
    [id in old_plugins and old_plugins[id]['time_updated'] == plugin['time_updated']];
    [None] when a subscript raises [KeyError]. *)
Definition up_to_date (old_plugins : gmap string plugin_meta) (id : string)
    (p : plugin) : option bool :=
  match old_plugins !! id with
  | None => Some false
  | Some m =>
      match meta_time_updated m, time_updated p with
      | Some t, Some t' => Some (t =? t')%Z
      | _, _ => None
      end
  end.

Section Batch.

(** [g_iLimitDownloads], the module-level cap ([0] in the repository). *)
Variable g_iLimitDownloads : nat.
Variable output_dir : string.
Variable old_plugins : gmap string plugin_meta.
(** What [urlretrieve] does in the thread of the [i]-th plugin. *)
Variable urlretrieve : nat -> retrieve_result.
(** The interleaving: [sched i] lists the threads that run between the
    [i]-th iteration of the dispatch loop and the one before; [sched] at
    the length of the batch is the order in which joined threads run.  A
    thread's writes to the shared variables are taken to land at one
    instant, after its download. *)
Variable sched : nat -> list nat.

Definition log (e : devent) (st : dstate) : dstate :=
  {| d_error := d_error st; d_downloads := d_downloads st;
     d_fail := d_fail st; d_succeed := d_succeed st;
     d_threads := d_threads st; d_events := d_events st ++ [e] |}.

Definition record_success (id : string) (p : plugin) (st : dstate) : dstate :=
  {| d_error := d_error st; d_downloads := d_downloads st;
     d_fail := d_fail st; d_succeed := <[id := meta_of p]> (d_succeed st);
     d_threads := d_threads st; d_events := d_events st |}.

Definition count_download (st : dstate) : dstate :=
  {| d_error := d_error st; d_downloads := S (d_downloads st);
     d_fail := d_fail st; d_succeed := d_succeed st;
     d_threads := d_threads st; d_events := d_events st |}.

Definition record_failure (p : plugin) (st : dstate) : dstate :=
  {| d_error := S (d_error st); d_downloads := d_downloads st;
     d_fail := d_fail st ++ [p]; d_succeed := d_succeed st;
     d_threads := d_threads st; d_events := d_events st |}.

(** The body of one worker thread.  An exception nobody catches
    ([KeyError] from a missing key, any error of [urlretrieve] other than
    [HTTPError]) ends the thread and leaves the shared variables as they
    are at that point. *)
Definition download_plugin (i : nat) (p : plugin) (st : dstate) : dstate :=
  match file_url p with
  | None => st
  | Some url =>
      match title p, publishedfileid p with
      | Some _, Some id =>
          match up_to_date old_plugins id p with
          | None => st
          | Some true => record_success id p (log (DUpToDate i) st)
          | Some false =>
              let st := log (DUrlretrieve i url output_dir (id +:+ ".vpk")) st in
              match urlretrieve i with
              | Retrieved =>
                  count_download (record_success id p (log (DComplete i) st))
              | RetrieveHTTPError code =>
                  log (DServerError i code) (record_failure p st)
              | RetrieveOtherError => st
              end
          end
      | _, _ => st
      end
  end.

Definition set_threads (ts : list (nat * plugin)) (st : dstate) : dstate :=
  {| d_error := d_error st; d_downloads := d_downloads st;
     d_fail := d_fail st; d_succeed := d_succeed st;
     d_threads := ts; d_events := d_events st |}.

Fixpoint take_thread (i : nat) (ts : list (nat * plugin))
    : option (plugin * list (nat * plugin)) :=
  match ts with
  | [] => None
  | (j, p) :: ts' =>
      if Nat.eqb i j then Some (p, ts')
      else match take_thread i ts' with
           | Some (q, r) => Some (q, (j, p) :: r)
           | None => None
           end
  end.

(** Thread [i] runs, if it was started and has not run yet. *)
Definition run_thread (st : dstate) (i : nat) : dstate :=
  match take_thread i (d_threads st) with
  | Some (p, rest) => download_plugin i p (set_threads rest st)
  | None => st
  end.

Definition run_threads (l : list nat) (st : dstate) : dstate :=
  fold_left run_thread l st.

(** [thread.start()] *)
Definition start_thread (i : nat) (p : plugin) (st : dstate) : dstate :=
  log (DStart i) (set_threads (d_threads st ++ [(i, p)]) st).

Definition cap_reached (st : dstate) : bool :=
  (g_iLimitDownloads <=? d_downloads st) && negb (g_iLimitDownloads =? 0).

(** [for plugin in plugins: ...], from position [i] on. *)
Fixpoint dispatch (i : nat) (plugins : list plugin) (st : dstate) : dstate :=
  match plugins with
  | [] => st
  | p :: plugins' =>
      let st := run_threads (sched i) st in
      dispatch (S i) plugins'
        (if cap_reached st then st else start_thread i p st)
  end.

(** [for thread in threads: thread.join()] *)
Definition join_all (n : nat) (st : dstate) : dstate :=
  let st := run_threads (sched n) st in
  run_threads (map fst (d_threads st)) st.

Definition download_run (plugins : list plugin) : dstate :=
  join_all (length plugins) (dispatch 0 plugins dstate0).

Definition download_plugins_concurrently (plugins : list plugin)
    : nat * list plugin * gmap string plugin_meta :=
  let st := download_run plugins in
  (d_error st, d_fail st, d_succeed st).

End Batch.

(** Every thread runs to its end before the loop goes on. *)
Definition sched_sequential (i : nat) : list nat :=
  match i with
  | 0 => []
  | S j => [j]
  end.

(** No thread gets to run before all of them are started. *)
Definition sched_eager (i : nat) : list nat := [].

(** ** [main] *)

(** What [init] returns; the path of the state file is the [save_file] of
    the world. *)
Record init_result := {
  init_error : nat;
  init_output_dir : string;
  init_collections_id_list : list string;
}.

(** How a run that raises nothing ends: the final message, or no message
    when an earlier step left [error] set. *)
Inductive run_end :=
| Done
| GivenUp
| Aborted.

(** A name [main] calls that no statement of the module binds and that is
    no builtin: looking it up raises [NameError]. *)
Definition unbound_global {A} (name : string) : M A := raise (NameError name).

(** [saved_data['plugins'].update(succeed_temp)] *)
Definition update_plugins (succeed_temp : gmap string plugin_meta)
    (sd : saved_data) : M saved_data :=
  match sd_plugins sd with
  | Some m => ret {| sd_collections := sd_collections sd;
                     sd_plugins := Some (succeed_temp ∪ m) |}
  | None => raise (KeyError "plugins")
  end.

Section Main.

Variable g_iLimitDownloads : nat.
Variable urlopen_collection : list (string * string) -> http_result (list collection).
Variable urlopen_file : list (string * string) -> http_result (list plugin).
(** [urlretrieve] and the interleaving, per download attempt of the run. *)
Variable urlretrieve : nat -> nat -> retrieve_result.
Variable sched : nat -> nat -> list nat.

(** The [while plugins_info and num_download_failures < 5] loop;
    [attempt] counts the iterations done. *)
Fixpoint download_loop (fuel attempt : nat) (output_dir : string)
    (old_plugins : gmap string plugin_meta) (plugins_info : list plugin)
    (num_download_failures : nat) (sd : saved_data) : M nat :=
  match fuel with
  | 0 => diverge
  | S fuel' =>
      match plugins_info with
      | [] => ret num_download_failures
      | _ :: _ =>
          if num_download_failures <? 5 then
            let '(error, fail, succeed_temp) :=
              download_plugins_concurrently g_iLimitDownloads output_dir
                old_plugins (urlretrieve attempt) (sched attempt) plugins_info in
            let* _ := emit (EvBatch error fail succeed_temp) in
            let* sd := update_plugins succeed_temp sd in
            let* _ := write_save_file sd in
            download_loop fuel' (S attempt) output_dir old_plugins fail
              (if 0 <? error then S num_download_failures else 0) sd
          else ret num_download_failures
      end
  end.

(** The reconciliation of lines 215-229: the plugins to look up and the
    previous plugin map. *)
Definition reconcile (plugins_id_list : list string) (sd : saved_data)
    : M (list string * gmap string plugin_meta * saved_data) :=
  match sd_plugins sd with
  | Some old_plugins =>
      let deprecated_plugins := list_set (plugins_to_remove plugins_id_list old_plugins) in
      let* (sd, old_plugins) :=
        match deprecated_plugins with
        | [] => ret (sd, old_plugins)
        | _ :: _ =>
            let* (error, deprecated_plugin_info) :=
              get_plugins_info urlopen_file deprecated_plugins in
            match error with
            | None =>
                let* _ := @unbound_global unit "print_deprecated_info" in
                unbound_global "deletePlugins"
            | Some _ => ret (sd, old_plugins)
            end
        end in
      ret (list_set (plugins_id_list ++ elements (dom old_plugins)), old_plugins, sd)
  | None => ret (plugins_id_list, ∅, sd)
  end.

(** [depth] is the number of nested calls the recursion limit leaves to
    the resolution, [fuel] the number of iterations granted to the retry
    loop. *)
Definition main (depth fuel : nat) (ir : init_result) : M run_end :=
  if negb (init_error ir =? 0) then ret Aborted else
  let* sd := load_saved_data in
  let collections_id_list :=
    match sd_collections sd with
    | Some saved =>
        match init_collections_id_list ir with
        | [] => saved
        | _ :: _ => list_set (init_collections_id_list ir ++ saved)
        end
    | None => init_collections_id_list ir
    end in
  match collections_id_list with
  | [] => ret Aborted
  | _ :: _ =>
      let* (error, plugins_id_list, valid_collections) :=
        get_plugins_id_from_collections_list urlopen_collection depth collections_id_list in
      match error with
      | Some _ => ret Aborted
      | None =>
          let sd := {| sd_collections := Some valid_collections;
                       sd_plugins := sd_plugins sd |} in
          let* (plugins_id_list, old_plugins, sd) := reconcile plugins_id_list sd in
          let sd := {| sd_collections := sd_collections sd; sd_plugins := Some ∅ |} in
          let* (error, plugins_info) := get_plugins_info urlopen_file plugins_id_list in
          match error with
          | Some _ => ret Aborted
          | None =>
              let* num_download_failures :=
                download_loop fuel 0 (init_output_dir ir) old_plugins plugins_info 0 sd in
              ret (if num_download_failures =? 0 then Done else GivenUp)
          end
      end
  end.

End Main.

(** ** A catalog that answers from a table *)

(** The collections the catalog knows, each with its children.  An id it
    does not know is answered with a record that has no [children]. *)
Definition digit_value (c : ascii) : N := (N_of_ascii c - 48)%N.

Fixpoint parse_decimal_from (acc : N) (s : string) : N :=
  match s with
  | EmptyString => acc
  | String c s' => parse_decimal_from (10 * acc + digit_value c)%N s'
  end.

Definition parse_decimal (s : string) : nat := N.to_nat (parse_decimal_from 0 s).

Fixpoint field_get (k : string) (fields : list (string * string)) : option string :=
  match fields with
  | [] => None
  | (k', v) :: fields' => if String.eqb k k' then Some v else field_get k fields'
  end.

(** The ids a request asks for: the fields [publishedfileids[0]] up to the
    posted count; any further field is ignored. *)
Definition requested_ids (count_key : string) (fields : list (string * string))
    : list string :=
  let n := match field_get count_key fields with
           | Some v => parse_decimal v
           | None => 0
           end in
  omap (fun i => field_get (publishedfileids_key i) fields) (seq 0 n).

Definition catalog_server (cat : gmap string (list item))
    (fields : list (string * string)) : http_result (list collection) :=
  Response (map (fun id => {| coll_publishedfileid := id; coll_children := cat !! id |})
                (requested_ids "collectioncount" fields)).

Definition file_server (files : string -> plugin)
    (fields : list (string * string)) : http_result (list plugin) :=
  Response (map files (requested_ids "itemcount" fields)).

(** The sub-collections and the files a list of children names. *)
Definition subs_of (children : list item) : list string :=
  map item_publishedfileid (filter (fun it => item_filetype it = 2%Z) children).
Definition files_of (children : list item) : list string :=
  map item_publishedfileid (filter (fun it => item_filetype it = 0%Z) children).

(** Collections reachable from [roots] through nested collections, and the
    files they reference. *)
Inductive reachable (cat : gmap string (list item)) (roots : list string)
    : string -> Prop :=
| reach_root c : c ∈ roots -> reachable cat roots c
| reach_child c children s :
    reachable cat roots c -> cat !! c = Some children -> s ∈ subs_of children ->
    reachable cat roots s.

Definition referenced (cat : gmap string (list item)) (roots : list string)
    (id : string) : Prop :=
  exists c children,
    reachable cat roots c /\ cat !! c = Some children /\ id ∈ files_of children.

(** The nesting is well founded: a rank that drops at every nested
    collection. *)
Definition ranked (rank : string -> nat) (cat : gmap string (list item)) : Prop :=
  map_Forall (fun c children => Forall (fun s => rank s < rank c) (subs_of children)) cat.

Definition max_rank (rank : string -> nat) (ids : list string) : nat :=
  foldr Nat.max 0 (map rank ids).

(** ** Reading traces *)

(** The results of the download batches of a trace, in order. *)
Definition batches (evs : list event)
    : list (nat * list plugin * gmap string plugin_meta) :=
  omap (fun e => match e with
                 | EvBatch error fail succeed => Some (error, fail, succeed)
                 | _ => None
                 end) evs.

(** The states written to the state file, in order. *)
Definition writes (evs : list event) : list saved_data :=
  omap (fun e => match e with EvWrite sd => Some sd | _ => None end) evs.

(** The encoded payloads sent to an endpoint, in order. *)
Definition payloads (ep : endpoint) (evs : list event) : list string :=
  omap (fun e => match e, ep with
                 | EvRequest EpFile s, EpFile => Some s
                 | EvRequest EpCollection s, EpCollection => Some s
                 | _, _ => None
                 end) evs.

(** Every batch is followed at once by a write, and nothing else writes. *)
Inductive flushed_per_batch : list event -> Prop :=
| flushed_nil : flushed_per_batch []
| flushed_request ep s evs :
    flushed_per_batch evs -> flushed_per_batch (EvRequest ep s :: evs)
| flushed_batch error fail succeed sd evs :
    flushed_per_batch evs ->
    flushed_per_batch (EvBatch error fail succeed :: EvWrite sd :: evs).

Definition is_request (e : event) : Prop :=
  match e with
  | EvRequest _ _ => True
  | _ => False
  end.

(** The content of the state file after the events [evs]. *)
Definition file_after (file : option saved_data) (evs : list event)
    : option saved_data :=
  match last (writes evs) with
  | Some sd => Some sd
  | None => file
  end.

(** [evs] is what happened between the worlds [w] and [w']. *)
Definition between (w w' : world) (evs : list event) : Prop :=
  trace w' = trace w ++ evs /\ save_file w' = file_after (save_file w) evs.

(** A computation that only talks to the catalog. *)
Definition quiet {A} (c : M A) : Prop :=
  forall w, exists evs, between w (snd (c w)) evs /\ Forall is_request evs.

(** A batch that ended with at least one failure. *)
Definition failing (b : nat * list plugin * gmap string plugin_meta) : Prop :=
  0 < fst (fst b).

(** The threads a batch started, and those that reported a server error. *)
Definition started_of (evs : list devent) : list nat :=
  omap (fun e => match e with DStart i => Some i | _ => None end) evs.
Definition failed_of (evs : list devent) : list nat :=
  omap (fun e => match e with DServerError i _ => Some i | _ => None end) evs.
Definition retrieved_of (evs : list devent) : list nat :=
  omap (fun e => match e with DUrlretrieve i _ _ _ => Some i | _ => None end) evs.
Definition succeeded_of (evs : list devent) : list nat :=
  omap (fun e => match e with
                 | DUpToDate i | DComplete i => Some i
                 | _ => None
                 end) evs.

(** ** Concrete inputs *)

Definition mk_item (id : string) (filetype : Z) : item :=
  {| item_publishedfileid := id; item_filetype := filetype |}.

Definition mk_plugin (id : string) (t : Z) : plugin :=
  {| publishedfileid := Some id; title := Some ("map " +:+ id);
     file_url := Some ("http://cdn.example/" +:+ id); time_updated := Some t |}.

(** A record as the catalog sends it for a file it cannot serve. *)
Definition plugin_without_url (id : string) : plugin :=
  {| publishedfileid := Some id; title := Some ("map " +:+ id);
     file_url := None; time_updated := Some 1%Z |}.

Definition files_table (id : string) : plugin := mk_plugin id 100.

(** Collection 100 holds file 3 and collection 20; collection 20 holds the
    files 3 and 4 and a child of an unknown kind. *)
Definition cat_nested : gmap string (list item) :=
  <["100" := [mk_item "20" 2; mk_item "3" 0]]>
    (<["20" := [mk_item "3" 0; mk_item "4" 0; mk_item "5" 7]]> ∅).

(** Collection 1 lists itself as a child collection. *)
Definition cat_cyclic : gmap string (list item) :=
  <["1" := [mk_item "1" 2]]> ∅.

(** The id made of [k] digits 1. *)
Fixpoint ones (k : nat) : string :=
  match k with
  | 0 => ""
  | S k' => String "1" (ones k')
  end.

(** A chain of [n] nested collections: the collection with [k + 2] digits
    holds the collection with [k + 1] digits and nothing else, for every
    [k] below [n]; the id 1 at the bottom is not a collection. *)
Fixpoint chain (n : nat) : gmap string (list item) :=
  match n with
  | 0 => ∅
  | S k => <[ones (S (S k)) := [mk_item (ones (S k)) 2]]> (chain k)
  end.

(** Collection 1 exists and is empty. *)
Definition cat_empty : gmap string (list item) := <["1" := []]> ∅.

(** Collection 1 holds file 7 only. *)
Definition cat_single : gmap string (list item) := <["1" := [mk_item "7" 0]]> ∅.

(** A state file from an earlier run that synced the plugins 7 and 9. *)
Definition saved_after_sync : saved_data :=
  {| sd_collections := Some ["1"];
     sd_plugins := Some (<["7" := meta_of (mk_plugin "7" 100)]>
                           (<["9" := meta_of (mk_plugin "9" 100)]> ∅)) |}.

Definition init_ok (ids : list string) : init_result :=
  {| init_error := 0; init_output_dir := "addons"; init_collections_id_list := ids |}.

Definition always_retrieved (attempt i : nat) : retrieve_result := Retrieved.
Definition always_http_error (attempt i : nat) : retrieve_result :=
  RetrieveHTTPError 503.

(** Only the first download of the first attempt gets through. *)
Definition first_only (attempt i : nat) : retrieve_result :=
  match attempt, i with
  | 0, 0 => Retrieved
  | _, _ => RetrieveHTTPError 503
  end.

(** A file catalog that rejects every request for the details of a single
    id and answers the others from the table. *)
Definition single_lookup_refused (fields : list (string * string))
    : http_result (list plugin) :=
  match field_get "itemcount" fields with
  | Some "1" => HTTPError 503
  | _ => file_server files_table fields
  end.

(** Collection 1 holds the files 7 and 8. *)
Definition cat_pair : gmap string (list item) :=
  <["1" := [mk_item "7" 0; mk_item "8" 0]]> ∅.

Definition batch3 : list plugin :=
  [mk_plugin "11" 5; mk_plugin "12" 5; mk_plugin "13" 5].

(** The thread a worker event belongs to. *)
Definition worker_index (e : devent) : option nat :=
  match e with
  | DStart _ => None
  | DUpToDate i | DUrlretrieve i _ _ _ | DComplete i | DServerError i _ => Some i
  end.

(** What holds of the shared variables of a batch at every point of every
    interleaving: threads and events belong to plugins of the batch that
    were started and carry a download URL, [fail] lists the plugins whose
    thread reported a server error, [error] counts them, and every key of
    [succeed] is the id of a plugin whose thread recorded a success. *)
Record batch_inv (batch : list plugin) (st : dstate) : Prop := {
  inv_threads : forall i p, (i, p) ∈ d_threads st ->
    batch !! i = Some p /\ i ∈ started_of (d_events st);
  inv_events : forall e i, e ∈ d_events st -> worker_index e = Some i ->
    i ∈ started_of (d_events st) /\
    exists p, batch !! i = Some p /\ is_Some (file_url p);
  inv_fail : Forall2 (fun p i => batch !! i = Some p)
    (d_fail st) (failed_of (d_events st));
  inv_error : d_error st = length (d_fail st);
  inv_succeed : forall id, is_Some (d_succeed st !! id) ->
    exists i p, i ∈ succeeded_of (d_events st) /\ batch !! i = Some p /\
                publishedfileid p = Some id;
}.

(** One step relates two states when it keeps the invariant, starts no
    thread, never lowers the download counter and only removes threads
    from the pool. *)
Definition keeps (batch : list plugin) (st st' : dstate) : Prop :=
  (batch_inv batch st -> batch_inv batch st') /\
  started_of (d_events st') = started_of (d_events st) /\
  d_downloads st <= d_downloads st' /\
  (forall x, x ∈ d_threads st' -> x ∈ d_threads st).

(** The cap has been hit: from now on the loop starts nothing. *)
Definition cap_hit (g_iLimitDownloads : nat) (st : dstate) : Prop :=
  g_iLimitDownloads <> 0 /\ g_iLimitDownloads <= d_downloads st.

(** The threads started so far are the first [k] plugins, and a plugin was
    passed over only once the cap was hit. *)
Definition prefix_started (g_iLimitDownloads i : nat) (st : dstate) : Prop :=
  exists k, k <= i /\ started_of (d_events st) = seq 0 k /\
            (k < i -> cap_hit g_iLimitDownloads st).

(** What a run of the retry loop amounts to, from the world [w], with
    [nfail] failures counted so far and the plugin map [m] in memory: the
    events [evs], the plugin map [m'] it ends with, and the value it
    returns when [fuel] lets it reach its exit. *)
Definition loop_summary (w : world) (res : outcome nat * world) (nfail : nat)
    (sd : saved_data) (m : gmap string plugin_meta) (fuel : nat) : Prop :=
  exists evs m',
    between w (snd res) evs /\
    flushed_per_batch evs /\
    Forall (fun e => ~ is_request e) evs /\
    length (batches evs) + nfail <= 5 /\
    dom m ⊆ dom m' /\
    (forall b, b ∈ batches evs -> dom (snd b) ⊆ dom m') /\
    (forall file, file_after file evs =
       match evs with
       | [] => file
       | _ :: _ => Some {| sd_collections := sd_collections sd;
                           sd_plugins := Some m' |}
       end) /\
    (5 - nfail < fuel ->
     exists n,
       fst res = Val n /\
       (Forall failing (batches evs) -> n = nfail + length (batches evs)) /\
       (~ Forall failing (batches evs) -> n = 0)).

(** What a whole run amounts to, from the world [w]: its events are
    catalog requests and batches each followed by a write, there are at most
    five batches, the state file ends with every plugin any batch recorded
    as succeeded, and a run whose batches all failed ends by giving up. *)
Definition run_summary (w : world) (res : outcome run_end * world)
    (fuel : nat) : Prop :=
  exists evs,
    between w (snd res) evs /\
    flushed_per_batch evs /\
    length (batches evs) <= 5 /\
    (batches evs <> [] ->
     exists sd m, save_file (snd res) = Some sd /\ sd_plugins sd = Some m /\
                  forall b, b ∈ batches evs -> dom (snd b) ⊆ dom m) /\
    (5 < fuel -> batches evs <> [] -> Forall failing (batches evs) ->
     fst res = Val GivenUp).

(** The children the table catalog lists for the collections [ids]. *)
Definition children_of (cat : gmap string (list item)) (ids : list string)
    : list item :=
  flat_map (fun id => default [] (cat !! id)) ids.

(** The requested ids whose record carries [children]. *)
Definition with_children (cat : gmap string (list item)) (ids : list string)
    : list string :=
  filter (fun id => is_Some (cat !! id)) ids.

(** The plugin ids the resolution collects level by level against the
    table catalog; [None] when the nesting goes deeper than [fuel] levels. *)
Fixpoint resolve_levels (cat : gmap string (list item)) (fuel : nat)
    (ids : list string) : option (list string) :=
  match fuel with
  | 0 => None
  | S fuel' =>
      let children := children_of cat ids in
      match subs_of children with
      | [] => Some (files_of children)
      | _ :: _ =>
          match resolve_levels cat fuel' (subs_of children) with
          | Some temp => Some (files_of children ++ temp)
          | None => None
          end
      end
  end.

(** The number of times [id] occurs in [l]. *)
Definition occurrences (id : string) (l : list string) : nat :=
  length (filter (fun x => x = id) l).

(** The number of ways the collection [c] references the file [id]
    through fewer than [n] nested collections: once per entry for [id]
    among its children, plus the references of each of its child
    collections, entry by entry. *)
Fixpoint reference_count (cat : gmap string (list item)) (n : nat) (id : string)
    (c : string) : nat :=
  match n with
  | 0 => 0
  | S n' =>
      match cat !! c with
      | Some children =>
          occurrences id (files_of children)
          + sum_list_with (reference_count cat n' id) (subs_of children)
      | None => 0
      end
  end.

(** ** What a worker thread does, read off the plugin alone *)

(** The branch of [download_plugin] the [i]-th plugin of a batch takes. *)
Inductive verdict :=
| VNoUrl
| VKeyError
| VUpToDate (id : string)
| VDownloaded (id url : string)
| VServerError (id url : string) (code : Z)
| VDied (id url : string).

Definition verdict_of (old_plugins : gmap string plugin_meta)
    (urlretrieve : nat -> retrieve_result) (i : nat) (p : plugin) : verdict :=
  match file_url p with
  | None => VNoUrl
  | Some url =>
      match title p, publishedfileid p with
      | Some _, Some id =>
          match up_to_date old_plugins id p with
          | None => VKeyError
          | Some true => VUpToDate id
          | Some false =>
              match urlretrieve i with
              | Retrieved => VDownloaded id url
              | RetrieveHTTPError code => VServerError id url code
              | RetrieveOtherError => VDied id url
              end
          end
      | _, _ => VKeyError
      end
  end.

(** The verdict at a position of the batch. *)
Definition verdict_at (old_plugins : gmap string plugin_meta)
    (urlretrieve : nat -> retrieve_result) (batch : list plugin) (i : nat)
    : verdict :=
  match batch !! i with
  | Some p => verdict_of old_plugins urlretrieve i p
  | None => VNoUrl
  end.

(** [urlretrieve] is called. *)
Definition attempts (v : verdict) : bool :=
  match v with
  | VDownloaded _ _ | VServerError _ _ _ | VDied _ _ => true
  | _ => false
  end.

(** The download is counted in [downloads]. *)
Definition downloads_one (v : verdict) : bool :=
  match v with
  | VDownloaded _ _ => true
  | _ => false
  end.

(** The plugin is appended to [fail]. *)
Definition fails (v : verdict) : bool :=
  match v with
  | VServerError _ _ _ => true
  | _ => false
  end.

(** The id recorded in [succeed], if any. *)
Definition success_id (v : verdict) : option string :=
  match v with
  | VUpToDate id | VDownloaded id _ => Some id
  | _ => None
  end.

(** The events the thread leaves. *)
Definition verdict_events (output_dir : string) (i : nat) (v : verdict)
    : list devent :=
  match v with
  | VNoUrl | VKeyError => []
  | VUpToDate _ => [DUpToDate i]
  | VDownloaded id url =>
      [DUrlretrieve i url output_dir (id +:+ ".vpk"); DComplete i]
  | VServerError id url code =>
      [DUrlretrieve i url output_dir (id +:+ ".vpk"); DServerError i code]
  | VDied id url => [DUrlretrieve i url output_dir (id +:+ ".vpk")]
  end.

(** The threads whose download completed. *)
Definition completed_of (evs : list devent) : list nat :=
  omap (fun e => match e with DComplete i => Some i | _ => None end) evs.

(** Thread [i] was started and has run. *)
Definition has_run (st : dstate) (i : nat) : Prop :=
  i ∈ started_of (d_events st) /\ (i ∉ map fst (d_threads st)).

(** What holds of a batch at every point of every interleaving, in terms
    of the verdicts: no thread is started twice, the pool holds plugins of
    the batch, and the events, the counter and the keys of [succeed] are
    those of the verdicts of the threads that have run. *)
Record ran_inv (output_dir : string) (old_plugins : gmap string plugin_meta)
    (urlretrieve : nat -> retrieve_result) (batch : list plugin)
    (st : dstate) : Prop := {
  ran_started : NoDup (started_of (d_events st));
  ran_pool : NoDup (map fst (d_threads st));
  ran_pool_batch : forall i p, (i, p) ∈ d_threads st ->
    batch !! i = Some p /\ i ∈ started_of (d_events st);
  ran_retrieved : forall i, i ∈ retrieved_of (d_events st) <->
    has_run st i /\ attempts (verdict_at old_plugins urlretrieve batch i) = true;
  ran_failed : forall i, i ∈ failed_of (d_events st) <->
    has_run st i /\ fails (verdict_at old_plugins urlretrieve batch i) = true;
  ran_succeeded : forall i, i ∈ succeeded_of (d_events st) <->
    has_run st i /\ is_Some (success_id (verdict_at old_plugins urlretrieve batch i));
  ran_completed : forall i, i ∈ completed_of (d_events st) <->
    has_run st i /\ downloads_one (verdict_at old_plugins urlretrieve batch i) = true;
  ran_nodup_retrieved : NoDup (retrieved_of (d_events st));
  ran_nodup_failed : NoDup (failed_of (d_events st));
  ran_nodup_completed : NoDup (completed_of (d_events st));
  ran_downloads : d_downloads st = length (completed_of (d_events st));
  ran_succeed : forall id, is_Some (d_succeed st !! id) <->
    exists i, has_run st i /\
              success_id (verdict_at old_plugins urlretrieve batch i) = Some id;
}.

(** A record the state file already has at the same [time_updated]: it
    carries every key the worker reads. *)
Definition is_current (old_plugins : gmap string plugin_meta) (p : plugin) : Prop :=
  exists id ttl url t m,
    publishedfileid p = Some id /\ title p = Some ttl /\ file_url p = Some url /\
    time_updated p = Some t /\
    old_plugins !! id = Some m /\ meta_time_updated m = Some t.

(** A record with every key the worker reads that the state file does not
    have, or has at another [time_updated]. *)
Definition is_outdated (old_plugins : gmap string plugin_meta) (p : plugin)
    (id url : string) : Prop :=
  publishedfileid p = Some id /\ is_Some (title p) /\ file_url p = Some url /\
  (old_plugins !! id = None \/
   exists m t t', old_plugins !! id = Some m /\ meta_time_updated m = Some t /\
                  time_updated p = Some t' /\ t <> t').

(** Plugin 21 is in the state file at time 5, plugin 22 at time 4. *)
Definition old_two : gmap string plugin_meta :=
  <["21" := meta_of (mk_plugin "21" 5)]> (<["22" := meta_of (mk_plugin "22" 4)]> ∅).

(** The plugin map after the batches [bs], starting from [m]:
    [saved_data['plugins'].update(succeed_temp)] per batch. *)
Definition merged_succeed (m : gmap string plugin_meta)
    (bs : list (nat * list plugin * gmap string plugin_meta))
    : gmap string plugin_meta :=
  foldl (fun acc b => snd b ∪ acc) m bs.

(** A batch without a failure. *)
Definition clean (b : nat * list plugin * gmap string plugin_meta) : Prop :=
  fst (fst b) = 0 /\ snd (fst b) = [].

(** [old_plugins] as [main] binds it (lines 216 and 229): the plugin map
    of the state file, empty when the file or the key is missing. *)
Definition previous_plugins (file : option saved_data) : gmap string plugin_meta :=
  match file with
  | Some sd => default ∅ (sd_plugins sd)
  | None => ∅
  end.

(** The records the [j]-th attempt from [attempt] on is given: the first
    gets [plugins_info], each later one the [fail] list the attempt before
    it returned (line 236 rebinds [plugins_info]). *)
Fixpoint retry_input (g_iLimitDownloads : nat) (output_dir : string)
    (old_plugins : gmap string plugin_meta)
    (urlretrieve : nat -> nat -> retrieve_result) (sched : nat -> nat -> list nat)
    (attempt : nat) (plugins_info : list plugin) (j : nat) : list plugin :=
  match j with
  | 0 => plugins_info
  | S j' =>
      let '(_, fail, _) :=
        download_plugins_concurrently g_iLimitDownloads output_dir old_plugins
          (urlretrieve attempt) (sched attempt) plugins_info in
      retry_input g_iLimitDownloads output_dir old_plugins urlretrieve sched
        (S attempt) fail j'
  end.

(** The collection ids a run resolves: those of the command line merged
    with those of the state file (lines 202-207). *)
Definition merged_collections (ir : init_result) (file : option saved_data)
    : list string :=
  match match file with Some sd => sd_collections sd | None => None end with
  | Some saved =>
      match init_collections_id_list ir with
      | [] => saved
      | _ :: _ => list_set (init_collections_id_list ir ++ saved)
      end
  | None => init_collections_id_list ir
  end.

(** ** [init] and the command line *)

(** [short_has_arg] of the [getopt] module: [Some true] when the option
    takes an argument, [None] when it is not recognized. *)
Fixpoint short_has_arg (opt : ascii) (shortopts : string) : option bool :=
  match shortopts with
  | EmptyString => None
  | String c rest =>
      if Ascii.eqb opt c && negb (Ascii.eqb c ":")
      then Some match rest with
                | String c' _ => Ascii.eqb c' ":"
                | EmptyString => false
                end
      else short_has_arg opt rest
  end.

(** [do_shorts]: the options clustered in one argument; [None] stands for
    [GetoptError]. *)
Fixpoint do_shorts (opts : list (string * string)) (optstring shortopts : string)
    (args : list string) : option (list (string * string) * list string) :=
  match optstring with
  | EmptyString => Some (opts, args)
  | String opt optstring' =>
      match short_has_arg opt shortopts with
      | None => None
      | Some true =>
          match optstring', args with
          | EmptyString, [] => None
          | EmptyString, a :: args' =>
              Some (opts ++ [(String "-" (String opt ""), a)], args')
          | _, _ => Some (opts ++ [(String "-" (String opt ""), optstring')], args)
          end
      | Some false =>
          do_shorts (opts ++ [(String "-" (String opt ""), "")]) optstring'
            shortopts args
      end
  end.

Definition starts_with_dash (s : string) : bool :=
  match s with
  | String c _ => Ascii.eqb c "-"
  | EmptyString => false
  end.

(** An argument [getopt] takes for options: it starts with a dash and is
    not the dash alone. *)
Definition looks_like_option (s : string) : bool :=
  starts_with_dash s && negb (String.eqb s "-").

(** [getopt.getopt(args, shortopts)] without long options: an argument
    that starts with two dashes ends the options when it is [--] and is not
    recognized otherwise. *)
Fixpoint getopt_loop (fuel : nat) (opts : list (string * string))
    (args : list string) (shortopts : string)
    : option (list (string * string) * list string) :=
  match fuel with
  | 0 => Some (opts, args)
  | S fuel' =>
      match args with
      | [] => Some (opts, args)
      | a :: args' =>
          if looks_like_option a then
            if String.eqb a "--" then Some (opts, args')
            else match a with
                 | String _ (String "-" _) => None
                 | String _ optstring =>
                     match do_shorts opts optstring shortopts args' with
                     | Some (opts', args'') => getopt_loop fuel' opts' args'' shortopts
                     | None => None
                     end
                 | EmptyString => Some (opts, args)
                 end
          else Some (opts, args)
      end
  end.

Definition getopt (args : list string) (shortopts : string)
    : option (list (string * string) * list string) :=
  getopt_loop (length args) [] args shortopts.

(** How [init] ends: [sys.exit] through [usage], or its four results. *)
Inductive init_outcome :=
| InitExit (code : Z)
| InitReturn (ir : init_result) (save_file_path : string).

Section Init.

(** The file system as [init] sees it. *)
Variable getcwd : string.
Variable path_join : string -> string -> string.
Variable abspath : string -> string.
Variable isfile : string -> bool.
Variable path_exists : string -> bool.

(** [for opt, arg in opts: ...]; [true] when [usage] is called. *)
Fixpoint scan_opts (opts : list (string * string)) (output_dir save_file : string)
    : bool * string * string :=
  match opts with
  | [] => (false, output_dir, save_file)
  | (opt, arg) :: opts' =>
      if String.eqb opt "h" then (true, output_dir, save_file)
      else if String.eqb opt "-o" then
        scan_opts opts' (abspath arg) (path_join (abspath arg) "addons.lst")
      else scan_opts opts' output_dir save_file
  end.

Definition init (argv : list string) : init_outcome :=
  let output_dir := getcwd in
  let save_file := path_join output_dir "addons.lst" in
  if (length argv =? 1) && negb (isfile save_file) then InitExit 0
  else
    match getopt (drop 1 argv) "ho:" with
    | None => InitExit 2
    | Some (opts, args) =>
        match scan_opts opts output_dir save_file with
        | (true, _, _) => InitExit 0
        | (false, output_dir, save_file) =>
            InitReturn
              {| init_error := if path_exists output_dir then 0 else 1;
                 init_output_dir := output_dir;
                 init_collections_id_list := drop (length opts * 2 + 1) argv |}
              save_file
        end
    end.

End Init.

(** A file system for the examples: the current directory is [/srv/l4d2],
    every path exists and only [/srv/l4d2/addons.lst] is a file. *)
Definition fs_join (a b : string) : string := a +:+ "/" +:+ b.
Definition fs_abspath (s : string) : string := "/srv/l4d2/" +:+ s.
Definition fs_isfile (s : string) : bool := String.eqb s "/srv/l4d2/addons.lst".
Definition fs_exists (s : string) : bool := true.

(** The request template of an endpoint. *)
Definition template_of (ep : endpoint) (w : world) : dict :=
  match ep with
  | EpFile => const_data_file w
  | EpCollection => const_data_collection w
  end.

(** The fields of the first request of a process for [ids]: the count and
    the ids in order; with no id the placeholder of the template stays. *)
Definition first_request (count_key : string) (ids : list string) : dict :=
  match ids with
  | [] => [(count_key, VInt 0); (publishedfileids_key 0, VInt 0)]
  | _ :: _ =>
      (count_key, VInt (Z.of_nat (length ids)))
      :: imap (fun i id => (publishedfileids_key i, VStr id)) ids
  end.

(** The characters a payload is made of: the ones [quote_plus] keeps, its
    escapes [+] and [%], and the separators [=] and [&]. *)
Definition payload_char (c : ascii) : bool :=
  always_safe c ||
  (let n := N_of_ascii c in
   (n =? 43) || (n =? 37) || (n =? 61) || (n =? 38))%N.

Fixpoint string_forall (P : ascii -> bool) (s : string) : bool :=
  match s with
  | EmptyString => true
  | String c s' => P c && string_forall P s'
  end.

(** A record with a [file_url] that lacks a key the worker reads: the
    title, the id, or, when the state file has the id, the
    [time_updated] on either side. *)
Definition unreadable (old_plugins : gmap string plugin_meta) (p : plugin) : Prop :=
  is_Some (file_url p) /\
  (title p = None \/ publishedfileid p = None \/
   exists id m, publishedfileid p = Some id /\ old_plugins !! id = Some m /\
                (meta_time_updated m = None \/ time_updated p = None)).

(** * Properties *)

(** ** [plugins_to_remove] *)

(** C7: [plugins_to_remove] returns, without repetition, exactly the keys of
    the persisted map that are absent from the current list (as a set:
    the keys minus the current ids), and the empty list when the current
    list contains every persisted key.  It is a function of its two
    arguments alone: it takes no world and returns none. *)
Theorem plugins_to_remove_exact (plugins_id_list : list string)
    (old_plugins : gmap string plugin_meta) :
  list_to_set (plugins_to_remove plugins_id_list old_plugins)
    = dom old_plugins ∖ (list_to_set plugins_id_list : gset string)
  /\ NoDup (plugins_to_remove plugins_id_list old_plugins)
  /\ ((forall id, id ∈ dom old_plugins -> id ∈ plugins_id_list) ->
      plugins_to_remove plugins_id_list old_plugins = []).
Proof.
  unfold plugins_to_remove. split; [|split].
  - apply set_eq. intros id.
    rewrite elem_of_list_to_set, list_elem_of_filter, elem_of_elements.
    rewrite elem_of_difference, elem_of_list_to_set. tauto.
  - apply NoDup_filter, NoDup_elements.
  - intros Hsub. apply elem_of_nil_inv. intros id.
    rewrite list_elem_of_filter, elem_of_elements. intros [Hout Hin].
    apply Hout, Hsub, Hin.
Qed.

(** ** The download batch under every interleaving *)

Section BatchFacts.

Variable g_iLimitDownloads : nat.
Variable output_dir : string.
Variable old_plugins : gmap string plugin_meta.
Variable urlretrieve : nat -> retrieve_result.
Variable sched : nat -> list nat.
Variable batch : list plugin.

Local Abbreviation worker := (download_plugin output_dir old_plugins urlretrieve).
Local Abbreviation run1 := (run_thread output_dir old_plugins urlretrieve).
Local Abbreviation runs := (run_threads output_dir old_plugins urlretrieve).
Local Abbreviation disp :=
  (dispatch g_iLimitDownloads output_dir old_plugins urlretrieve sched).
Local Abbreviation Inv := (batch_inv batch).

Ltac dsimpl :=
  cbn [log record_success record_failure count_download set_threads
       d_error d_downloads d_fail d_succeed d_threads d_events] in *.

Local Abbreviation steps := (keeps batch).
Local Abbreviation hit := (cap_hit g_iLimitDownloads).
Local Abbreviation prefixed := (prefix_started g_iLimitDownloads).

Lemma keeps_refl st : steps st st.
Proof. unfold keeps. split_and!; [tauto | reflexivity | lia | tauto]. Qed.

Lemma keeps_trans st1 st2 st3 : steps st1 st2 -> steps st2 st3 -> steps st1 st3.
Proof.
  intros (I1 & S1 & D1 & T1) (I2 & S2 & D2 & T2).
  unfold keeps. split_and!; [tauto | congruence | lia | auto].
Qed.

Lemma started_of_snoc evs e :
  started_of (evs ++ [e]) =
  started_of evs ++ match e with DStart i => [i] | _ => [] end.
Proof. unfold started_of. rewrite omap_app. by destruct e. Qed.

Lemma failed_of_snoc evs e :
  failed_of (evs ++ [e]) =
  failed_of evs ++ match e with DServerError i _ => [i] | _ => [] end.
Proof. unfold failed_of. rewrite omap_app. by destruct e. Qed.

Lemma succeeded_of_snoc evs e :
  succeeded_of (evs ++ [e]) =
  succeeded_of evs ++ match e with
                      | DUpToDate i | DComplete i => [i]
                      | _ => []
                      end.
Proof. unfold succeeded_of. rewrite omap_app. by destruct e. Qed.

(** Logging an event of thread [i] that is not a failure. *)
Lemma log_inv e i p st :
  worker_index e = Some i -> failed_of [e] = [] ->
  batch !! i = Some p -> is_Some (file_url p) ->
  i ∈ started_of (d_events st) ->
  Inv st -> Inv (log e st).
Proof.
  intros He Hf Hp Hurl Hi [T E F N S].
  assert (Hst : started_of (d_events st ++ [e]) = started_of (d_events st)).
  { rewrite started_of_snoc. destruct e; try discriminate; by rewrite app_nil_r. }
  split; dsimpl; rewrite ?Hst.
  - exact T.
  - intros e' j [Hin | ->%list_elem_of_singleton]%elem_of_app Hj.
    + by apply E with e'.
    + rewrite He in Hj. injection Hj as <-. eauto.
  - rewrite failed_of_snoc. destruct e; try discriminate Hf; by rewrite app_nil_r.
  - exact N.
  - intros id Hid. destruct (S id Hid) as (j & q & Hj & Hq).
    exists j, q. split; [|exact Hq].
    rewrite succeeded_of_snoc. apply elem_of_app. by left.
Qed.

Lemma record_success_inv id i p st :
  i ∈ succeeded_of (d_events st) -> batch !! i = Some p ->
  publishedfileid p = Some id ->
  Inv st -> Inv (record_success id p st).
Proof.
  intros Hi Hp Hid [T E F N S]. split; dsimpl; try assumption.
  intros id' [m Hm]. destruct (decide (id = id')) as [<- | Hne].
  - eauto.
  - rewrite lookup_insert_ne in Hm by done. eauto.
Qed.

Lemma count_download_inv st : Inv st -> Inv (count_download st).
Proof. intros [T E F N S]. by split. Qed.

Lemma record_failure_inv i code p st :
  batch !! i = Some p -> is_Some (file_url p) ->
  i ∈ started_of (d_events st) ->
  Inv st -> Inv (log (DServerError i code) (record_failure p st)).
Proof.
  intros Hp Hurl Hi [T E F N S].
  assert (Hst : started_of (d_events st ++ [DServerError i code])
                = started_of (d_events st)).
  { rewrite started_of_snoc. by rewrite app_nil_r. }
  split; dsimpl; rewrite ?Hst.
  - exact T.
  - intros e' j [Hin | ->%list_elem_of_singleton]%elem_of_app Hj.
    + by apply E with e'.
    + injection Hj as <-. eauto.
  - rewrite failed_of_snoc. apply Forall2_app; [exact F|]. by constructor.
  - rewrite length_app. simpl. lia.
  - intros id Hid. destruct (S id Hid) as (j & q & Hj & Hq).
    exists j, q. split; [|exact Hq].
    rewrite succeeded_of_snoc. by rewrite app_nil_r.
Qed.

(** A worker thread steps the invariant, whatever the network does. *)
Lemma download_plugin_inv i p st :
  batch !! i = Some p -> i ∈ started_of (d_events st) ->
  Inv st -> Inv (worker i p st).
Proof.
  intros Hp Hi HI. unfold download_plugin.
  destruct (file_url p) as [url|] eqn:Hurl; [|exact HI].
  assert (Hurl' : is_Some (file_url p)) by (by rewrite Hurl).
  destruct (title p) as [t|]; [|exact HI].
  destruct (publishedfileid p) as [id|] eqn:Hid; [|exact HI].
  destruct (up_to_date old_plugins id p) as [[|]|]; [| |exact HI].
  - apply record_success_inv with i; [|exact Hp|exact Hid|].
    + dsimpl. rewrite succeeded_of_snoc. apply elem_of_app. right. by left.
    + by apply log_inv with i p.
  - assert (HI1 : Inv (log (DUrlretrieve i url output_dir (id +:+ ".vpk")) st))
      by (by apply log_inv with i p).
    assert (Hi1 : i ∈ started_of
              (d_events (log (DUrlretrieve i url output_dir (id +:+ ".vpk")) st))).
    { dsimpl. rewrite started_of_snoc. by rewrite app_nil_r. }
    destruct (urlretrieve i) as [|code|]; [| |exact HI1].
    + apply count_download_inv, record_success_inv with i; [|exact Hp|exact Hid|].
      * dsimpl. rewrite succeeded_of_snoc. apply elem_of_app. right. by left.
      * by apply log_inv with i p.
    + by apply record_failure_inv.
Qed.

Lemma download_plugin_frame i p st :
  started_of (d_events (worker i p st)) = started_of (d_events st) /\
  d_downloads st <= d_downloads (worker i p st) /\
  d_threads (worker i p st) = d_threads st.
Proof.
  unfold download_plugin.
  destruct (file_url p) as [url|]; [|auto].
  destruct (title p) as [t|]; [|auto].
  destruct (publishedfileid p) as [id|]; [|auto].
  destruct (up_to_date old_plugins id p) as [[|]|]; [| |auto].
  - dsimpl. rewrite started_of_snoc, app_nil_r. auto.
  - destruct (urlretrieve i) as [|code|]; dsimpl;
      rewrite !started_of_snoc, !app_nil_r; auto.
Qed.

Lemma take_thread_Some i ts p rest :
  take_thread i ts = Some (p, rest) ->
  (i, p) ∈ ts /\ forall x, x ∈ rest -> x ∈ ts.
Proof.
  revert p rest. induction ts as [|[j q] ts IH]; intros p rest; simpl.
  - discriminate.
  - destruct (Nat.eqb_spec i j) as [-> | Hne].
    + intros [= -> ->]. split; [by left | intros x Hx; by right].
    + destruct (take_thread i ts) as [[q' r]|]; [|discriminate].
      intros [= -> <-]. destruct (IH _ _ eq_refl) as [Hin Hsub].
      split; [by right|].
      intros x [-> | Hx]%elem_of_cons; [by left | right; auto].
Qed.

Lemma run_thread_keeps st i : steps st (run1 st i).
Proof.
  unfold run_thread.
  destruct (take_thread i (d_threads st)) as [[p rest]|] eqn:Htake;
    [|apply keeps_refl].
  apply take_thread_Some in Htake as [Hin Hsub].
  destruct (download_plugin_frame i p (set_threads rest st)) as (Hs & Hd & Ht).
  unfold keeps. split_and!.
  - intros HI. destruct (inv_threads _ _ HI i p Hin) as [Hp Hi].
    apply download_plugin_inv; [exact Hp | exact Hi |].
    destruct HI as [T E F N S]. split; dsimpl; auto.
  - exact Hs.
  - exact Hd.
  - rewrite Ht. exact Hsub.
Qed.

Lemma run_threads_keeps l st : steps st (runs l st).
Proof.
  unfold run_threads. revert st.
  induction l as [|i l IH]; intros st; simpl.
  - apply keeps_refl.
  - eapply keeps_trans; [apply run_thread_keeps | apply IH].
Qed.

Lemma start_thread_inv i p st :
  batch !! i = Some p -> Inv st -> Inv (start_thread i p st).
Proof.
  intros Hp [T E F N S]. unfold start_thread.
  assert (Hst : started_of (d_events st ++ [DStart i])
                = started_of (d_events st) ++ [i]) by apply started_of_snoc.
  split; dsimpl; rewrite ?Hst.
  - intros j q [Hin | [= -> ->]%list_elem_of_singleton]%elem_of_app.
    + destruct (T j q Hin). split; [done | apply elem_of_app; by left].
    + split; [done | apply elem_of_app; right; by left].
  - intros e j [Hin | ->%list_elem_of_singleton]%elem_of_app Hj.
    + destruct (E e j Hin Hj). split; [apply elem_of_app; by left | done].
    + discriminate.
  - rewrite failed_of_snoc. by rewrite app_nil_r.
  - exact N.
  - intros id Hid. destruct (S id Hid) as (j & q & Hj & Hq).
    exists j, q. split; [|exact Hq].
    rewrite succeeded_of_snoc. by rewrite app_nil_r.
Qed.

Lemma cap_reached_hit st :
  cap_reached g_iLimitDownloads st = true <-> hit st.
Proof.
  unfold cap_reached, cap_hit.
  rewrite andb_true_iff, negb_true_iff, Nat.leb_le, Nat.eqb_neq. tauto.
Qed.

Lemma dispatch_inv plugins : forall i st,
  (forall j p, plugins !! j = Some p -> batch !! (i + j) = Some p) ->
  Inv st -> prefixed i st ->
  Inv (disp i plugins st) /\
  prefixed (i + length plugins) (disp i plugins st).
Proof.
  induction plugins as [|p plugins IH]; intros i st Hb HI Hpre; simpl.
  - rewrite Nat.add_0_r. auto.
  - destruct (run_threads_keeps (sched i) st) as (HI1 & Hs1 & Hd1 & _).
    set (st1 := runs (sched i) st) in *.
    assert (Hpre1 : prefixed i st1).
    { destruct Hpre as (k & Hk & Hst & Hcap). exists k. rewrite Hs1.
      split_and!; [done..|]. intros Hlt. destruct (Hcap Hlt). split; [done|lia]. }
    replace (i + S (length plugins)) with (S i + length plugins) by lia.
    assert (Hb' : forall j q, plugins !! j = Some q -> batch !! (S i + j) = Some q).
    { intros j q Hj. replace (S i + j) with (i + S j) by lia. by apply Hb. }
    destruct (cap_reached g_iLimitDownloads st1) eqn:Hcap.
    + apply IH; [exact Hb' | auto |].
      destruct Hpre1 as (k & Hk & Hst & _). exists k.
      split_and!; [lia | done |]. intros _. by apply cap_reached_hit.
    + assert (Hp : batch !! i = Some p).
      { specialize (Hb 0 p eq_refl). by rewrite Nat.add_0_r in Hb. }
      apply IH; [exact Hb' | apply start_thread_inv; auto |].
      destruct Hpre1 as (k & Hk & Hst & Hhit).
      assert (k = i) as ->.
      { destruct (decide (k < i)) as [Hlt|]; [|lia].
        apply Hhit, cap_reached_hit in Hlt. congruence. }
      exists (S i). unfold start_thread. dsimpl.
      rewrite started_of_snoc, Hst, seq_S. split_and!; [lia | done | lia].
Qed.

(** The invariant and the prefix shape hold when the batch returns. *)
Lemma download_run_inv :
  let st := download_run g_iLimitDownloads output_dir old_plugins urlretrieve
              sched batch in
  Inv st /\ prefixed (length batch) st.
Proof.
  unfold download_run, join_all.
  destruct (dispatch_inv batch 0 dstate0) as [HI Hpre].
  { intros j p Hj. exact Hj. }
  { split; simpl; try done.
    - intros i p Hin. by apply elem_of_nil in Hin.
    - intros e i Hin. by apply elem_of_nil in Hin.
    - intros id [m Hm]. by rewrite lookup_empty in Hm. }
  { exists 0. split_and!; [lia | done | lia]. }
  simpl in Hpre.
  set (st0 := disp 0 batch dstate0) in *.
  destruct (run_threads_keeps (sched (length batch)) st0) as (HI1 & Hs1 & Hd1 & _).
  set (st1 := runs (sched (length batch)) st0) in *.
  destruct (run_threads_keeps (map fst (d_threads st1)) st1) as (HI2 & Hs2 & Hd2 & _).
  split; [auto|].
  destruct Hpre as (k & Hk & Hst & Hcap). exists k.
  rewrite Hs2, Hs1. split_and!; [done..|].
  intros Hlt. destruct (Hcap Hlt). split; [done|lia].
Qed.

End BatchFacts.

Lemma worker_event_of_failed evs i :
  i ∈ failed_of evs -> exists e, e ∈ evs /\ worker_index e = Some i.
Proof.
  unfold failed_of. rewrite list_elem_of_omap. intros (e & He & Hi).
  exists e. split; [done|]. destruct e; try discriminate. exact Hi.
Qed.

Lemma worker_event_of_succeeded evs i :
  i ∈ succeeded_of evs -> exists e, e ∈ evs /\ worker_index e = Some i.
Proof.
  unfold succeeded_of. rewrite list_elem_of_omap. intros (e & He & Hi).
  exists e. split; [done|]. destruct e; try discriminate; exact Hi.
Qed.

Lemma worker_event_of_retrieved evs i :
  i ∈ retrieved_of evs -> exists e, e ∈ evs /\ worker_index e = Some i.
Proof.
  unfold retrieved_of. rewrite list_elem_of_omap. intros (e & He & Hi).
  exists e. split; [done|]. destruct e; try discriminate; exact Hi.
Qed.

(** C4, as the code has it: a record without [file_url] costs no network
    call and is recorded nowhere.  None of its thread's events occurs, it is
    not in [fail] and does not count in [error]; and unless another record
    of the batch with the same id carries a URL, its id is not a key of
    [succeed] either. *)
Theorem no_url_is_left_out (g_iLimitDownloads : nat) (output_dir : string)
    (old_plugins : gmap string plugin_meta) (urlretrieve : nat -> retrieve_result)
    (sched : nat -> list nat) (batch : list plugin) (i : nat) (p : plugin) :
  batch !! i = Some p -> file_url p = None ->
  let st := download_run g_iLimitDownloads output_dir old_plugins urlretrieve
              sched batch in
  (i ∉ retrieved_of (d_events st)) /\
  (i ∉ succeeded_of (d_events st)) /\
  (i ∉ failed_of (d_events st)) /\
  (p ∉ d_fail st) /\
  d_error st = length (d_fail st) /\
  (forall id, publishedfileid p = Some id ->
     (forall q, q ∈ batch -> publishedfileid q = Some id -> file_url q = None) ->
     d_succeed st !! id = None).
Proof.
  intros Hp Hurl st.
  destruct (download_run_inv g_iLimitDownloads output_dir old_plugins
              urlretrieve sched batch) as [[T E F N S] _].
  fold st in T, E, F, N, S.
  assert (Hno : forall e, e ∈ d_events st -> worker_index e <> Some i).
  { intros e He Hi. destruct (E e i He Hi) as [_ (q & Hq & [u Hu])]. congruence. }
  split_and!; try done.
  - intros (e & He & Hi)%worker_event_of_retrieved. by apply (Hno e).
  - intros (e & He & Hi)%worker_event_of_succeeded. by apply (Hno e).
  - intros (e & He & Hi)%worker_event_of_failed. by apply (Hno e).
  - intros Hin. apply list_elem_of_lookup in Hin as [n Hn].
    destruct (Forall2_lookup_l _ _ _ _ _ F Hn) as (j & Hj & Hbj).
    apply list_elem_of_lookup_2, worker_event_of_failed in Hj as (e & He & Hi).
    destruct (E e j He Hi) as [_ (q & Hq & [u Hu])]. congruence.
  - intros id Hid Hall. destruct (d_succeed st !! id) as [m|] eqn:Hm; [|done].
    destruct (S id) as (j & q & Hj & Hq & Hqid); [by rewrite Hm|].
    apply worker_event_of_succeeded in Hj as (e & He & Hi).
    destruct (E e j He Hi) as [_ (q' & Hq' & [u Hu])].
    assert (q' = q) as -> by congruence.
    rewrite (Hall q) in Hu; [discriminate | by eapply list_elem_of_lookup_2 | done].
Qed.

Lemma no_url_is_left_out_witness :
  let st := download_run 0 "addons" ∅ (always_retrieved 0) sched_eager
              [mk_plugin "11" 5; plugin_without_url "12"] in
  (1 ∉ retrieved_of (d_events st)) /\
  (1 ∉ succeeded_of (d_events st)) /\
  (1 ∉ failed_of (d_events st)) /\
  (plugin_without_url "12" ∉ d_fail st) /\
  d_error st = length (d_fail st) /\
  (forall id, publishedfileid (plugin_without_url "12") = Some id ->
     (forall q, q ∈ [mk_plugin "11" 5; plugin_without_url "12"] ->
        publishedfileid q = Some id -> file_url q = None) ->
     d_succeed st !! id = None).
Proof.
  apply (no_url_is_left_out 0 "addons" ∅ (always_retrieved 0) sched_eager
           [mk_plugin "11" 5; plugin_without_url "12"] 1 (plugin_without_url "12")).
  - reflexivity.
  - reflexivity.
Defined.

(** C4 fails as stated: a batch that holds one record without a URL
    returns an empty [succeed]; the record is not treated as succeeded. *)
Lemma no_url_counterexample :
  download_plugins_concurrently 0 "addons" ∅ (always_retrieved 0) sched_eager
    [plugin_without_url "12"] = (0, [], ∅).
Proof. reflexivity. Qed.

(** ** What a run writes, and when *)

Lemma between_refl w : between w w [].
Proof. split; [by rewrite app_nil_r | done]. Qed.

Lemma writes_app evs1 evs2 : writes (evs1 ++ evs2) = writes evs1 ++ writes evs2.
Proof. apply omap_app. Qed.

Lemma batches_app evs1 evs2 : batches (evs1 ++ evs2) = batches evs1 ++ batches evs2.
Proof. apply omap_app. Qed.

Lemma file_after_app file evs1 evs2 :
  file_after (file_after file evs1) evs2 = file_after file (evs1 ++ evs2).
Proof.
  unfold file_after. rewrite writes_app, last_app.
  by destruct (last (writes evs2)).
Qed.

Lemma between_trans w1 w2 w3 evs1 evs2 :
  between w1 w2 evs1 -> between w2 w3 evs2 -> between w1 w3 (evs1 ++ evs2).
Proof.
  intros [T1 F1] [T2 F2]. split.
  - by rewrite T2, T1, app_assoc.
  - by rewrite F2, F1, file_after_app.
Qed.

Lemma requests_no_writes evs : Forall is_request evs -> writes evs = [].
Proof. induction 1 as [|[] evs He _ IH]; simpl in *; done. Qed.

Lemma requests_no_batches evs : Forall is_request evs -> batches evs = [].
Proof. induction 1 as [|[] evs He _ IH]; simpl in *; done. Qed.

Lemma requests_flushed evs : Forall is_request evs -> flushed_per_batch evs.
Proof.
  induction 1 as [|[] evs He _ IH]; simpl in *; try done; by constructor.
Qed.

Lemma flushed_app evs1 evs2 :
  flushed_per_batch evs1 -> flushed_per_batch evs2 ->
  flushed_per_batch (evs1 ++ evs2).
Proof. induction 1; intros H2; simpl; [done | constructor; auto..]. Qed.

Lemma quiet_ret {A} (a : A) : quiet (ret a).
Proof. intros w. exists []. split; [apply between_refl | constructor]. Qed.

Lemma quiet_raise {A} e : quiet (@raise A e).
Proof. intros w. exists []. split; [apply between_refl | constructor]. Qed.

Lemma quiet_bind {A B} (c : M A) (k : A -> M B) :
  quiet c -> (forall a, quiet (k a)) -> quiet (bind c k).
Proof.
  intros Hc Hk w. unfold bind. destruct (Hc w) as (evs1 & Hb1 & Hr1).
  destruct (c w) as [[a|e|] w1]; simpl in *; [|by exists evs1..].
  destruct (Hk a w1) as (evs2 & Hb2 & Hr2).
  exists (evs1 ++ evs2). split; [by eapply between_trans | by apply Forall_app].
Qed.

Lemma quiet_get_const_data ep : quiet (get_const_data ep).
Proof. intros w. exists []. split; [apply between_refl | constructor]. Qed.

Lemma quiet_set_const_data ep d : quiet (set_const_data ep d).
Proof.
  intros w. exists []. split; [|constructor].
  destruct ep; split; simpl; by rewrite ?app_nil_r.
Qed.

Lemma quiet_emit_request ep s : quiet (emit (EvRequest ep s)).
Proof.
  intros w. exists [EvRequest ep s]. split; [by split | by repeat constructor].
Qed.

Lemma quiet_load_saved_data : quiet load_saved_data.
Proof. intros w. exists []. split; [apply between_refl | constructor]. Qed.

Lemma quiet_prepare_request ep key ids : quiet (prepare_request ep key ids).
Proof.
  unfold prepare_request.
  repeat (apply quiet_bind; [|intros ?]);
    auto using quiet_get_const_data, quiet_set_const_data, quiet_emit_request, quiet_ret.
Qed.

Lemma quiet_on_url_error {A} reason (a : A) : quiet (on_url_error reason a).
Proof. destruct reason; [apply quiet_ret | apply quiet_raise]. Qed.

Lemma quiet_get_plugins_info urlopen_file ids :
  quiet (get_plugins_info urlopen_file ids).
Proof.
  unfold get_plugins_info. apply quiet_bind; [apply quiet_prepare_request|].
  intros data. destruct (urlopen_file _);
    auto using quiet_ret, quiet_on_url_error.
Qed.

Lemma quiet_fill_template ep key ids : quiet (fill_template ep key ids).
Proof.
  unfold fill_template.
  repeat (apply quiet_bind; [|intros ?]);
    auto using quiet_get_const_data, quiet_set_const_data, quiet_ret.
Qed.

Lemma quiet_get_plugins_id_from_collections_list urlopen_collection depth :
  forall ids, quiet (get_plugins_id_from_collections_list urlopen_collection depth ids).
Proof.
  induction depth as [|depth IH]; intros ids; simpl.
  { apply quiet_bind; [apply quiet_fill_template | intros ?; apply quiet_raise]. }
  apply quiet_bind; [apply quiet_prepare_request|].
  intros data. destruct (urlopen_collection _);
    auto using quiet_ret, quiet_on_url_error.
  destruct (sub_collection _); [apply quiet_ret|].
  apply quiet_bind; [apply IH|].
  intros [[[e|] tmp] v]; apply quiet_ret.
Qed.

Lemma quiet_reconcile urlopen_file ids sd : quiet (reconcile urlopen_file ids sd).
Proof.
  unfold reconcile. destruct (sd_plugins sd); [|apply quiet_ret].
  apply quiet_bind.
  - destruct (list_set _); [apply quiet_ret|].
    apply quiet_bind; [apply quiet_get_plugins_info|].
    intros [[e|] info]; [apply quiet_ret|].
    apply quiet_bind; [apply quiet_raise | intros ?; apply quiet_raise].
  - intros [sd' old]. apply quiet_ret.
Qed.

Lemma batches_batch_write error fail succeed sd evs :
  batches (EvBatch error fail succeed :: EvWrite sd :: evs)
  = (error, fail, succeed) :: batches evs.
Proof. reflexivity. Qed.

Lemma flushed_no_batches evs :
  flushed_per_batch evs -> batches evs = [] -> writes evs = [].
Proof. induction 1; simpl; [done | done | discriminate]. Qed.

Lemma batch_error_counts_fail L dir old ur sc plugins error fail succeed :
  download_plugins_concurrently L dir old ur sc plugins = (error, fail, succeed) ->
  error = length fail.
Proof.
  unfold download_plugins_concurrently. intros [= <- <- <-].
  by destruct (download_run_inv L dir old ur sc plugins) as [[] _].
Qed.

Section LoopFacts.

Variable g_iLimitDownloads : nat.
Variable urlretrieve : nat -> nat -> retrieve_result.
Variable sched : nat -> nat -> list nat.
Variable output_dir : string.
Variable old_plugins : gmap string plugin_meta.

Local Abbreviation loop :=
  (download_loop g_iLimitDownloads urlretrieve sched).

Lemma download_loop_nil fuel attempt n sd w :
  exists r, loop fuel attempt output_dir old_plugins [] n sd w = (r, w) /\
            (0 < fuel -> r = Val n).
Proof.
  destruct fuel; simpl.
  - exists Diverge. split; [done | lia].
  - exists (Val n). by split.
Qed.

Lemma loop_summary_stop w (res : outcome nat * world) nfail sd m fuel :
  snd res = w -> (5 - nfail < fuel -> fst res = Val nfail) -> nfail <= 5 ->
  loop_summary w res nfail sd m fuel.
Proof.
  intros Hw Hv Hn. exists [], m. rewrite Hw. split_and!.
  - apply between_refl.
  - constructor.
  - constructor.
  - simpl. lia.
  - done.
  - intros b Hb. by apply elem_of_nil in Hb.
  - done.
  - intros Hfuel. exists nfail. split_and!; [by apply Hv | intros _; simpl; lia |].
    intros Hno. destruct Hno. constructor.
Qed.

(** The retry loop: what it leaves in the trace and in the state file, how
    many batches it can run, and what it returns when it has the fuel to
    reach its exit. *)
Lemma download_loop_run : forall fuel attempt plugins_info nfail sd m w,
  sd_plugins sd = Some m -> nfail <= 5 ->
  loop_summary w (loop fuel attempt output_dir old_plugins plugins_info nfail sd w)
    nfail sd m fuel.
Proof.
  induction fuel as [|fuel IH]; intros attempt plugins_info nfail sd m w Hm Hn.
  { apply loop_summary_stop; [done | lia | done]. }
  destruct plugins_info as [|p0 ps].
  { by apply loop_summary_stop. }
  cbn [download_loop]. destruct (Nat.ltb_spec nfail 5) as [Hlt|Hge].
  2:{ by apply loop_summary_stop. }
  destruct (download_plugins_concurrently _ _ _ _ _ _)
    as [[error fail] succeed_temp] eqn:Hbatch.
  apply batch_error_counts_fail in Hbatch.
  unfold bind at 1. cbn [emit].
  unfold bind at 1. unfold update_plugins. rewrite Hm. cbn [ret].
  unfold bind at 1. cbn [write_save_file].
  set (sd1 := {| sd_collections := sd_collections sd;
                 sd_plugins := Some (succeed_temp ∪ m) |}).
  set (w2 := {| const_data_file := _; const_data_collection := _;
                save_file := Some sd1; trace := _ |}).
  set (nfail' := if 0 <? error then S nfail else 0).
  assert (Hpos' : 0 < error -> nfail' = S nfail).
  { intros Hpos. unfold nfail'. by destruct (Nat.ltb_spec 0 error); [|lia]. }
  assert (Hzero' : error = 0 -> nfail' = 0).
  { by intros ->. }
  assert (Hn' : nfail' <= 5).
  { unfold nfail'. destruct (0 <? error); lia. }
  clearbody nfail'.
  destruct (IH (S attempt) fail nfail' sd1 (succeed_temp ∪ m) w2 eq_refl Hn')
    as (evs' & m'' & Hbetween & Hflushed & Hnoreq & Hlen & Hdom & Hsucc & Hfile & Hret).
  assert (Hstop : error = 0 -> evs' = [] /\
            (0 < fuel ->
             fst (loop fuel (S attempt) output_dir old_plugins fail nfail' sd1 w2)
             = Val 0)).
  { intros He. assert (fail = []) as ->.
    { destruct fail; [done | simpl in Hbatch; lia]. }
    rewrite (Hzero' He) in *.
    destruct (download_loop_nil fuel (S attempt) 0 sd1 w2) as (r & Hr & Hv).
    rewrite Hr in Hbetween |- *. destruct Hbetween as [Ht _].
    split; [|exact Hv].
    apply (f_equal length) in Ht. rewrite length_app in Ht.
    destruct evs'; [done | simpl in Ht; lia]. }
  exists (EvBatch error fail succeed_temp :: EvWrite sd1 :: evs'),
         (match evs' with [] => succeed_temp ∪ m | _ :: _ => m'' end).
  assert (Hdom1 : dom m ⊆ dom (succeed_temp ∪ m)).
  { rewrite dom_union_L. apply union_subseteq_r. }
  assert (Hdom2 : dom succeed_temp ⊆ dom (succeed_temp ∪ m)).
  { rewrite dom_union_L. apply union_subseteq_l. }
  split_and!.
  - destruct Hbetween as [Ht Hf]. split.
    + rewrite Ht. subst w2. cbn [trace]. by rewrite <- !app_assoc.
    + rewrite Hf. subst w2. cbn [save_file].
      change (EvBatch error fail succeed_temp :: EvWrite sd1 :: evs')
        with ([EvBatch error fail succeed_temp; EvWrite sd1] ++ evs').
      by rewrite <- file_after_app.
  - by constructor.
  - repeat constructor; auto.
  - rewrite batches_batch_write. cbn [length].
    destruct (Nat.ltb_spec 0 error) as [Hpos|Hzero].
    + specialize (Hpos' Hpos). subst nfail'. lia.
    + destruct Hstop as [-> _]; [lia|]. simpl. lia.
  - destruct evs'; [done | by transitivity (dom (succeed_temp ∪ m))].
  - rewrite batches_batch_write.
    intros b [-> | Hb]%elem_of_cons; simpl.
    + destruct evs'; [done | by transitivity (dom (succeed_temp ∪ m))].
    + destruct evs'; [by apply elem_of_nil in Hb | by apply Hsucc].
  - intros file.
    change (EvBatch error fail succeed_temp :: EvWrite sd1 :: evs')
      with ([EvBatch error fail succeed_temp; EvWrite sd1] ++ evs').
    rewrite <- file_after_app, Hfile. by destruct evs'.
  - intros Hfuel. rewrite batches_batch_write. cbn [length].
    destruct (Nat.ltb_spec 0 error) as [Hpos|Hzero].
    + specialize (Hpos' Hpos). subst nfail'.
      destruct Hret as (n & Hv & Hall & Hnot); [lia|].
      exists n. split_and!; [exact Hv | |].
      * intros [_ Hf]%Forall_cons. rewrite (Hall Hf). lia.
      * intros Hnf. apply Hnot. intros Hf. apply Hnf. by constructor.
    + destruct Hstop as [-> Hv]; [lia|]. exists 0.
      split_and!; [apply Hv; lia | | done].
      intros [Hf _]%Forall_cons. unfold failing in Hf. simpl in Hf. lia.
Qed.

End LoopFacts.

Lemma run_summary_quiet w (res : outcome run_end * world) fuel evs :
  between w (snd res) evs -> Forall is_request evs -> run_summary w res fuel.
Proof.
  intros Hb Hr. exists evs.
  rewrite (requests_no_batches _ Hr).
  split_and!; [done | by apply requests_flushed | simpl; lia | done | done].
Qed.

Lemma run_summary_bind {A} (c : M A) (k : A -> M run_end) w fuel :
  quiet c -> (forall a w1, run_summary w1 (k a w1) fuel) ->
  run_summary w (bind c k w) fuel.
Proof.
  intros Hc Hk. unfold bind. destruct (Hc w) as (evs1 & Hb1 & Hr1).
  destruct (c w) as [[a|e|] w1]; simpl in Hb1;
    [|by apply run_summary_quiet with evs1..].
  destruct (Hk a w1) as (evs2 & Hb2 & Hfl & Hlen & Hfile & Hend).
  exists (evs1 ++ evs2).
  rewrite batches_app, (requests_no_batches _ Hr1). simpl.
  split_and!; try done.
  - by eapply between_trans.
  - apply flushed_app; [by apply requests_flushed | done].
Qed.

Lemma run_summary_ret w r fuel : run_summary w (ret r w) fuel.
Proof. apply run_summary_quiet with []; [apply between_refl | constructor]. Qed.

(** Every run of [main], whatever the catalog, the network and the
    interleavings do, and whether or not it raises or runs out of fuel. *)
Lemma main_run g_iLimitDownloads urlopen_collection urlopen_file urlretrieve
    sched depth fuel ir w :
  run_summary w
    (main g_iLimitDownloads urlopen_collection urlopen_file urlretrieve sched
       depth fuel ir w) fuel.
Proof.
  unfold main. destruct (negb _); [apply run_summary_ret|].
  apply run_summary_bind; [apply quiet_load_saved_data|]. intros sd w1.
  destruct (match sd_collections sd with Some _ => _ | None => _ end);
    [apply run_summary_ret|].
  apply run_summary_bind; [apply quiet_get_plugins_id_from_collections_list|].
  intros [[[e|] ids] valid] w2; [apply run_summary_ret|].
  apply run_summary_bind; [apply quiet_reconcile|].
  intros [[ids' old] sd'] w3.
  apply run_summary_bind; [apply quiet_get_plugins_info|].
  intros [[e|] plugins_info] w4; [apply run_summary_ret|].
  set (sd0 := {| sd_collections := sd_collections sd'; sd_plugins := Some ∅ |}).
  destruct (download_loop_run g_iLimitDownloads urlretrieve sched
              (init_output_dir ir) old fuel 0 plugins_info 0 sd0 ∅ w4 eq_refl)
    as (evs & m' & Hb & Hfl & Hnoreq & Hlen & Hdom & Hsucc & Hfile & Hret); [lia|].
  unfold bind.
  destruct (download_loop _ _ _ _ _ _ _ _ _ _ _) as [r w5] eqn:Hloop.
  simpl in Hb, Hret.
  assert (Hsaved : evs <> [] ->
            save_file w5 = Some {| sd_collections := sd_collections sd0;
                                   sd_plugins := Some m' |}).
  { intros Hne. destruct Hb as [_ ->]. rewrite Hfile. by destruct evs. }
  assert (Hend : 5 < fuel -> batches evs <> [] -> Forall failing (batches evs) ->
            exists n, r = Val n /\ n <> 0).
  { intros Hfuel Hne Hall. destruct Hret as (n & -> & Hn & _); [lia|].
    exists n. split; [done|]. rewrite (Hn Hall).
    destruct (batches evs); [done | simpl; lia]. }
  destruct r as [n|e|]; cbn [ret fst snd]; exists evs; split_and!;
    try done; try lia.
  - intros Hne. eexists _, m'. split_and!; [apply Hsaved | done | done].
    by intros ->.
  - intros Hfuel Hne Hall. destruct (Hend Hfuel Hne Hall) as (n' & [= <-] & Hn).
    by destruct n.
  - intros Hne. eexists _, m'. split_and!; [apply Hsaved | done | done].
    by intros ->.
  - intros Hfuel Hne Hall. by destruct (Hend Hfuel Hne Hall) as (n' & [=] & _).
  - intros Hne. eexists _, m'. split_and!; [apply Hsaved | done | done].
    by intros ->.
  - intros Hfuel Hne Hall. by destruct (Hend Hfuel Hne Hall) as (n' & [=] & _).
Qed.

(** C9, as the code has it: in every run the state file is written right
    after each download batch and at no other moment; no reconciliation
    step writes it.  The events of a run are catalog requests and batches
    each followed at once by a write, the file ends as the last write left
    it, and a run that performs no batch leaves the file as it found it. *)
Theorem state_file_written_per_batch (g_iLimitDownloads : nat)
    (urlopen_collection : list (string * string) -> http_result (list collection))
    (urlopen_file : list (string * string) -> http_result (list plugin))
    (urlretrieve : nat -> nat -> retrieve_result) (sched : nat -> nat -> list nat)
    (depth fuel : nat) (ir : init_result) (w : world) :
  let w' := snd (main g_iLimitDownloads urlopen_collection urlopen_file
                   urlretrieve sched depth fuel ir w) in
  exists evs,
    trace w' = trace w ++ evs /\
    flushed_per_batch evs /\
    length (writes evs) = length (batches evs) /\
    save_file w' = file_after (save_file w) evs /\
    (batches evs = [] -> save_file w' = save_file w).
Proof.
  intros w'. subst w'.
  destruct (main_run g_iLimitDownloads urlopen_collection urlopen_file
              urlretrieve sched depth fuel ir w) as (evs & [Ht Hf] & Hfl & _).
  exists evs. split_and!; try done.
  - clear Ht Hf. induction Hfl; simpl; [done | done | by f_equal].
  - intros Hno. rewrite Hf. unfold file_after.
    by rewrite (flushed_no_batches _ Hfl Hno).
Qed.

(** C9 fails as stated: resolving the existing, empty collection 1 on a
    first run yields the valid collection id 1 and no plugin; the download
    loop runs no batch and the run ends normally without any write: there
    is still no state file. *)
Lemma no_batch_no_write_counterexample :
  fst (get_plugins_id_from_collections_list (catalog_server cat_empty) 7 ["1"]
         (fresh_world None)) = Val (None, [], ["1"]) /\
  (let res := main 0 (catalog_server cat_empty) (file_server files_table)
                always_retrieved (fun _ => sched_eager) 7 7 (init_ok ["1"])
                (fresh_world None) in
   fst res = Val Done /\ writes (trace (snd res)) = [] /\
   save_file (snd res) = None).
Proof. vm_compute. repeat split. Qed.

(** C1, on a run the code can really make: the state file lists the
    plugins 7 and 9, collection 1 now holds only file 7, and the catalog
    answers the request for the details of plugin 9.  The run then raises
    [NameError] at [print_deprecated_info]: nothing is removed from the
    state file, and no download batch follows. *)
Theorem deprecated_plugin_raises_name_error :
  let res := main 0 (catalog_server cat_single) (file_server files_table)
               always_retrieved (fun _ => sched_eager) 7 7 (init_ok [])
               (fresh_world (Some saved_after_sync)) in
  plugins_to_remove ["7"] (<["7" := meta_of (mk_plugin "7" 100)]>
                             (<["9" := meta_of (mk_plugin "9" 100)]> ∅)) = ["9"] /\
  fst res = Exn (NameError "print_deprecated_info") /\
  save_file (snd res) = Some saved_after_sync /\
  payloads EpFile (trace (snd res)) = ["itemcount=1&publishedfileids%5B0%5D=9"] /\
  batches (trace (snd res)) = [] /\
  writes (trace (snd res)) = [].
Proof. vm_compute. repeat split. Qed.

(** C10, on calls the code can really make: the same call of
    [get_plugins_info], answered alike by the catalog, sends one payload in
    a fresh process and another after a call with two ids, whose second id
    is still in the shared template; within a single resolution the request
    for the sub-collection 20 likewise carries the id 55 of the first
    request. *)
Theorem const_data_leaks_between_calls :
  let srv := file_server files_table in
  let fresh := get_plugins_info srv ["7"] (fresh_world None) in
  let later := get_plugins_info srv ["7"]
                 (snd (get_plugins_info srv ["8"; "9"] (fresh_world None))) in
  fst fresh = fst later /\
  last (payloads EpFile (trace (snd fresh)))
    = Some "itemcount=1&publishedfileids%5B0%5D=7" /\
  last (payloads EpFile (trace (snd later)))
    = Some "itemcount=1&publishedfileids%5B0%5D=7&publishedfileids%5B1%5D=9" /\
  payloads EpCollection
    (trace (snd (get_plugins_id_from_collections_list (catalog_server cat_nested)
                   5 ["100"; "55"] (fresh_world None))))
    = ["collectioncount=2&publishedfileids%5B0%5D=100&publishedfileids%5B1%5D=55";
       "collectioncount=1&publishedfileids%5B0%5D=20&publishedfileids%5B1%5D=55"].
Proof. vm_compute. repeat split. Qed.

(** ** Requests as the table catalog reads them *)

Lemma dict_get_set_eq k v d : dict_get k (dict_set k v d) = Some v.
Proof.
  induction d as [|[k' v'] d IH]; simpl.
  - by rewrite String.eqb_refl.
  - destruct (String.eqb_spec k k') as [->|Hne]; simpl.
    + by rewrite String.eqb_refl.
    + by destruct (String.eqb_spec k k').
Qed.

Lemma dict_get_set_ne k k' v d :
  k <> k' -> dict_get k (dict_set k' v d) = dict_get k d.
Proof.
  intros Hne. induction d as [|[k'' v''] d IH]; simpl.
  - by destruct (String.eqb_spec k k').
  - destruct (String.eqb_spec k' k'') as [->|Hne']; simpl.
    + by destruct (String.eqb_spec k k'').
    + by destruct (String.eqb_spec k k'').
Qed.

Lemma field_get_form_fields k d :
  field_get k (form_fields d) = py_str <$> dict_get k d.
Proof.
  induction d as [|[k' v'] d IH]; simpl; [done|].
  by destruct (String.eqb k k').
Qed.

Lemma append_bracket_inj s t : s +:+ "]" = t +:+ "]" -> s = t.
Proof.
  revert t. induction s as [|c s IH]; intros [|c' t]; simpl; try done.
  - intros [= <- H]. by destruct t.
  - intros [= -> H]. by destruct s.
  - intros [= -> H]. f_equal. by apply IH.
Qed.

Lemma publishedfileids_key_inj i j :
  publishedfileids_key i = publishedfileids_key j -> i = j.
Proof.
  unfold publishedfileids_key. intros H.
  apply (inj (String.append _)) in H. apply append_bracket_inj in H.
  by apply (inj pretty) in H.
Qed.

Lemma publishedfileids_key_not_count i :
  publishedfileids_key i <> "collectioncount" /\
  publishedfileids_key i <> "itemcount".
Proof. split; discriminate. Qed.

Lemma dict_get_set_publishedfileids l : forall idx data k,
  (forall i, idx <= i < idx + length l -> k <> publishedfileids_key i) ->
  dict_get k (set_publishedfileids idx l data) = dict_get k data.
Proof.
  induction l as [|x l IH]; intros idx data k Hk; simpl; [done|].
  rewrite IH.
  - apply dict_get_set_ne, Hk. simpl. lia.
  - intros i Hi. apply Hk. simpl. lia.
Qed.

Lemma dict_get_publishedfileids l : forall idx data i x,
  l !! i = Some x ->
  dict_get (publishedfileids_key (idx + i)) (set_publishedfileids idx l data)
  = Some (VStr x).
Proof.
  induction l as [|y l IH]; intros idx data i x Hi; [done|].
  destruct i as [|i]; simpl in *.
  - injection Hi as ->. rewrite Nat.add_0_r.
    rewrite dict_get_set_publishedfileids; [apply dict_get_set_eq|].
    intros j Hj Heq. apply publishedfileids_key_inj in Heq. lia.
  - replace (idx + S i) with (S idx + i) by lia. by apply IH.
Qed.

Lemma digit_value_pretty d : (d < 10)%N -> digit_value (pretty_N_char d) = d.
Proof.
  intros Hd.
  assert (d = 0 \/ d = 1 \/ d = 2 \/ d = 3 \/ d = 4 \/ d = 5 \/ d = 6 \/
          d = 7 \/ d = 8 \/ d = 9)%N as Hcases by lia.
  repeat (destruct Hcases as [->|Hcases]; [reflexivity|]). by subst.
Qed.

Lemma parse_pretty_N_go x : forall s,
  parse_decimal_from 0 (pretty_N_go x s) = parse_decimal_from x s.
Proof.
  induction (N.lt_wf_0 x) as [x _ IH]. intros s.
  destruct (decide (x = 0)%N) as [->|Hx].
  - by rewrite pretty_N_go_0.
  - rewrite pretty_N_go_step by lia.
    rewrite IH by (apply N.div_lt; lia). simpl.
    rewrite digit_value_pretty by (apply N.mod_lt; lia).
    f_equal. rewrite (N.div_mod x 10) at 3 by lia. lia.
Qed.

Lemma parse_decimal_pretty n : parse_decimal (pretty (Z.of_nat n)) = n.
Proof.
  unfold parse_decimal. destruct n as [|n]; [reflexivity|].
  change (Z.of_nat (S n)) with (Z.pos (Pos.of_succ_nat n)).
  change (pretty (Z.pos (Pos.of_succ_nat n)))
    with (pretty_N_go (N.pos (Pos.of_succ_nat n)) "").
  rewrite parse_pretty_N_go. simpl. lia.
Qed.

Lemma omap_seq_lookup {A} (f : nat -> option A) (l : list A) : forall s,
  (forall i x, l !! i = Some x -> f (s + i) = Some x) ->
  omap f (seq s (length l)) = l.
Proof.
  induction l as [|y l IH]; intros s Hf; simpl; [done|].
  rewrite <- (Nat.add_0_r s) at 1. rewrite (Hf 0 y eq_refl). f_equal.
  apply IH. intros i x Hi. replace (S s + i) with (s + S i) by lia. by apply Hf.
Qed.

(** The table catalog reads from a prepared request exactly the ids of
    the call, whatever the template held before. *)
Lemma requested_ids_prepared key ids data :
  (forall i, key <> publishedfileids_key i) ->
  requested_ids key
    (form_fields (set_publishedfileids 0 ids
                    (dict_set key (VInt (Z.of_nat (length ids))) data)))
  = ids.
Proof.
  intros Hkey. unfold requested_ids.
  rewrite field_get_form_fields, dict_get_set_publishedfileids, dict_get_set_eq
    by (intros; apply Hkey).
  simpl. rewrite parse_decimal_pretty.
  set (d := set_publishedfileids 0 ids _).
  assert (Hget : forall i x, ids !! i = Some x ->
            field_get (publishedfileids_key i) (form_fields d) = Some x).
  { intros i x Hi. rewrite field_get_form_fields.
    unfold d. rewrite (dict_get_publishedfileids ids 0 _ i x Hi). done. }
  clearbody d. by apply omap_seq_lookup.
Qed.

(** ** Resolution against the table catalog *)

Lemma subs_of_app a b : subs_of (a ++ b) = subs_of a ++ subs_of b.
Proof. unfold subs_of. by rewrite filter_app, map_app. Qed.

Lemma files_of_app a b : files_of (a ++ b) = files_of a ++ files_of b.
Proof. unfold files_of. by rewrite filter_app, map_app. Qed.

Lemma scan_items children : forall acc,
  fold_left scan_item children acc =
  {| valid_collections := valid_collections acc;
     sub_collection := sub_collection acc ++ subs_of children;
     plugins_id_list := plugins_id_list acc ++ files_of children |}.
Proof.
  induction children as [|it children IH]; intros [v s p]; simpl.
  - by rewrite !app_nil_r.
  - rewrite IH. unfold scan_item, subs_of, files_of. simpl.
    rewrite !filter_cons.
    destruct (Z.eqb_spec (item_filetype it) 0) as [H0|H0];
      destruct (Z.eqb_spec (item_filetype it) 2) as [H2|H2];
      repeat case_decide; try congruence; simpl;
      by rewrite <- ?app_assoc.
Qed.

Lemma with_children_cons cat id ids :
  with_children cat (id :: ids) =
  match cat !! id with
  | Some _ => id :: with_children cat ids
  | None => with_children cat ids
  end.
Proof.
  unfold with_children. rewrite filter_cons.
  destruct (cat !! id); case_decide as H; try done.
  destruct H. eauto.
Qed.

Lemma scan_collections cat ids : forall acc,
  fold_left scan_collection
    (map (fun id => {| coll_publishedfileid := id; coll_children := cat !! id |}) ids)
    acc =
  {| valid_collections := valid_collections acc ++ with_children cat ids;
     sub_collection := sub_collection acc ++ subs_of (children_of cat ids);
     plugins_id_list := plugins_id_list acc ++ files_of (children_of cat ids) |}.
Proof.
  induction ids as [|id ids IH]; intros [v s p]; simpl.
  - by rewrite !app_nil_r.
  - rewrite IH, with_children_cons, subs_of_app, files_of_app.
    unfold scan_collection. simpl.
    destruct (cat !! id) as [children|]; simpl.
    + rewrite scan_items. simpl. by rewrite <- !app_assoc.
    + done.
Qed.

Lemma scan_response_table cat ids :
  scan_response
    (map (fun id => {| coll_publishedfileid := id; coll_children := cat !! id |}) ids) =
  {| valid_collections := with_children cat ids;
     sub_collection := subs_of (children_of cat ids);
     plugins_id_list := files_of (children_of cat ids) |}.
Proof. unfold scan_response. by rewrite scan_collections. Qed.

(** Against the table catalog the resolution returns, from any world,
    what [resolve_levels] computes together with the requested ids that
    carry children, and raises [RecursionError] exactly when the nesting
    goes deeper than the nested calls allowed. *)
Lemma resolution_on_table cat fuel : forall ids w,
  fst (get_plugins_id_from_collections_list (catalog_server cat) fuel ids w) =
  match resolve_levels cat fuel ids with
  | Some l => Val (None, l, with_children cat ids)
  | None => Exn RecursionError
  end.
Proof.
  induction fuel as [|fuel IH]; intros ids w; simpl; [done|].
  unfold prepare_request, bind. simpl.
  unfold catalog_server at 1.
  rewrite requested_ids_prepared by (intros i; symmetry; apply publishedfileids_key_not_count).
  rewrite scan_response_table. simpl.
  destruct (subs_of (children_of cat ids)) as [|s subs] eqn:Hsubs; [done|].
  match goal with
  | |- context [get_plugins_id_from_collections_list _ fuel ?l ?w'] =>
      specialize (IH l w');
      destruct (get_plugins_id_from_collections_list _ fuel l w') as [r w'']
  end.
  simpl in IH. rewrite IH.
  by destruct (resolve_levels cat fuel (s :: subs)).
Qed.

Lemma elem_of_subs_children cat ids s :
  s ∈ subs_of (children_of cat ids) <->
  exists c children, c ∈ ids /\ cat !! c = Some children /\ s ∈ subs_of children.
Proof.
  induction ids as [|id ids IH]; simpl.
  - split; [by intros ?%elem_of_nil | by intros (? & ? & ?%elem_of_nil & _)].
  - rewrite subs_of_app, elem_of_app, IH. split.
    + intros [Hs | (c & children & Hc & Hcat & Hs)].
      * destruct (cat !! id) as [children|] eqn:Hid; simpl in Hs.
        -- exists id, children. split_and!; [by left | done | done].
        -- by apply elem_of_nil in Hs.
      * exists c, children. split_and!; [by right | done | done].
    + intros (c & children & [-> | Hc]%elem_of_cons & Hcat & Hs).
      * left. by rewrite Hcat.
      * right. eauto.
Qed.

Lemma elem_of_files_children cat ids f :
  f ∈ files_of (children_of cat ids) <->
  exists c children, c ∈ ids /\ cat !! c = Some children /\ f ∈ files_of children.
Proof.
  induction ids as [|id ids IH]; simpl.
  - split; [by intros ?%elem_of_nil | by intros (? & ? & ?%elem_of_nil & _)].
  - rewrite files_of_app, elem_of_app, IH. split.
    + intros [Hs | (c & children & Hc & Hcat & Hs)].
      * destruct (cat !! id) as [children|] eqn:Hid; simpl in Hs.
        -- exists id, children. split_and!; [by left | done | done].
        -- by apply elem_of_nil in Hs.
      * exists c, children. split_and!; [by right | done | done].
    + intros (c & children & [-> | Hc]%elem_of_cons & Hcat & Hs).
      * left. by rewrite Hcat.
      * right. eauto.
Qed.

Lemma max_rank_elem rank ids c : c ∈ ids -> rank c <= max_rank rank ids.
Proof.
  unfold max_rank. induction 1 as [c ids | c d ids _ IH]; simpl; lia.
Qed.

Lemma max_rank_below rank ids n :
  0 < n -> (forall c, c ∈ ids -> rank c < n) -> max_rank rank ids < n.
Proof.
  intros Hn. unfold max_rank. induction ids as [|c ids IH]; intros Hall; simpl.
  - done.
  - assert (rank c < n) by (apply Hall; by left).
    assert (foldr Nat.max 0 (map rank ids) < n).
    { apply IH. intros d Hd. apply Hall. by right. }
    lia.
Qed.

(** On a catalog with well-founded nesting the levels come to an end as
    soon as the bound exceeds the highest rank requested. *)
Lemma resolve_levels_ranked rank cat :
  ranked rank cat ->
  forall fuel ids, max_rank rank ids < fuel -> is_Some (resolve_levels cat fuel ids).
Proof.
  intros Hranked. induction fuel as [|fuel IH]; intros ids Hfuel; [lia|].
  simpl. destruct (subs_of (children_of cat ids)) as [|s subs] eqn:Hsubs; [eauto|].
  assert (Hbelow : forall s', s' ∈ s :: subs -> rank s' < max_rank rank ids).
  { intros s'. rewrite <- Hsubs, elem_of_subs_children.
    intros (c & children & Hc & Hcat & Hs).
    apply max_rank_elem with (rank := rank) in Hc.
    pose proof (map_Forall_lookup_1 _ _ _ _ Hranked Hcat) as Hall.
    rewrite Forall_forall in Hall. specialize (Hall s' Hs). simpl in Hall. lia. }
  assert (0 < max_rank rank ids).
  { assert (rank s < max_rank rank ids) by (apply Hbelow; by left). lia. }
  destruct (IH (s :: subs)) as [l Hl].
  - assert (max_rank rank (s :: subs) < max_rank rank ids)
      by (by apply max_rank_below).
    lia.
  - rewrite Hl. eauto.
Qed.

Lemma reachable_nil cat c : ~ reachable cat [] c.
Proof. induction 1 as [c Hc|]; [by apply elem_of_nil in Hc | done]. Qed.

Lemma reachable_split cat ids c :
  reachable cat ids c ->
  c ∈ ids \/ reachable cat (subs_of (children_of cat ids)) c.
Proof.
  induction 1 as [c Hc | c children s _ IH Hcat Hs]; [by left|].
  right. destruct IH as [Hin | Hreach].
  - apply reach_root, elem_of_subs_children. eauto.
  - by apply reach_child with c children.
Qed.

Lemma reachable_from_subs cat ids c :
  reachable cat (subs_of (children_of cat ids)) c -> reachable cat ids c.
Proof.
  induction 1 as [c Hc | c children s _ IH Hcat Hs].
  - apply elem_of_subs_children in Hc as (c0 & children & Hc0 & Hcat & Hs).
    apply reach_child with c0 children; [by apply reach_root | done | done].
  - by apply reach_child with c children.
Qed.

Lemma referenced_split cat ids id :
  referenced cat ids id <->
  id ∈ files_of (children_of cat ids) \/
  referenced cat (subs_of (children_of cat ids)) id.
Proof.
  split.
  - intros (c & children & Hreach & Hcat & Hid).
    apply reachable_split in Hreach as [Hin | Hreach].
    + left. apply elem_of_files_children. eauto.
    + right. by exists c, children.
  - intros [Hin | (c & children & Hreach & Hcat & Hid)].
    + apply elem_of_files_children in Hin as (c & children & Hc & Hcat & Hid).
      exists c, children. split_and!; [by apply reach_root | done | done].
    + exists c, children. split_and!; [by apply reachable_from_subs | done | done].
Qed.

(** What the levels collect is what the requested collections reference,
    directly or through nested collections. *)
Lemma resolve_levels_exact cat : forall fuel ids l,
  resolve_levels cat fuel ids = Some l ->
  forall id, id ∈ l <-> referenced cat ids id.
Proof.
  induction fuel as [|fuel IH]; intros ids l; simpl; [done|].
  destruct (subs_of (children_of cat ids)) as [|s subs] eqn:Hsubs.
  - intros [= <-] id. rewrite referenced_split, Hsubs. split; [by left|].
    intros [Hin | (c & _ & Hreach & _)]; [done | by apply reachable_nil in Hreach].
  - destruct (resolve_levels cat fuel (s :: subs)) as [temp|] eqn:Htemp; [|done].
    intros [= <-] id.
    rewrite referenced_split, Hsubs, elem_of_app. by rewrite (IH _ _ Htemp).
Qed.

Lemma resolve_levels_cyclic fuel : resolve_levels cat_cyclic fuel ["1"] = None.
Proof.
  induction fuel as [|fuel IH]; [done|].
  change (resolve_levels cat_cyclic (S fuel) ["1"])
    with (match resolve_levels cat_cyclic fuel ["1"] with
          | Some temp => Some ([] ++ temp)
          | None => None
          end).
  by rewrite IH.
Qed.

(** When the nesting goes deeper than the nested calls allowed, every one
    of them has sent its request by the time [RecursionError] is raised. *)
Lemma resolution_requests_exhausted cat : forall depth ids w,
  resolve_levels cat depth ids = None ->
  exists evs,
    trace (snd (get_plugins_id_from_collections_list (catalog_server cat) depth
                  ids w)) = trace w ++ evs /\
    length (payloads EpCollection evs) = depth.
Proof.
  induction depth as [|depth IH]; intros ids w Hnone.
  { exists []. split; [|done]. simpl. by rewrite app_nil_r. }
  simpl in Hnone |- *. unfold prepare_request, bind. simpl.
  unfold catalog_server at 1.
  rewrite requested_ids_prepared
    by (intros i; symmetry; apply publishedfileids_key_not_count).
  rewrite scan_response_table. simpl.
  destruct (subs_of (children_of cat ids)) as [|s subs] eqn:Hsubs; [done|].
  destruct (resolve_levels cat depth (s :: subs)) eqn:Hsub; [done|].
  match goal with
  | |- context [get_plugins_id_from_collections_list _ depth ?l ?w'] =>
      destruct (IH l w' Hsub) as (evs & Ht & Hlen);
      destruct (get_plugins_id_from_collections_list _ depth l w') as [r w'']
  end.
  cbn [snd] in Ht.
  exists (EvRequest EpCollection
            (urlencode (set_publishedfileids 0 ids
                          (dict_set "collectioncount"
                             (VInt (Z.of_nat (length ids)))
                             (const_data_collection w)))) :: evs).
  split; [|simpl; by rewrite Hlen].
  destruct r as [[[[e|] tmp] v]|e|]; cbn [snd ret]; rewrite Ht; cbn [trace];
    by rewrite <- app_assoc.
Qed.

(** C8, as the code has it: on every catalog whose nesting is well
    founded and no deeper than the nested calls the interpreter still
    allows ([depth] exceeds the highest rank requested), the resolution
    returns a result, from any world. *)
Theorem resolution_terminates_when_well_founded (rank : string -> nat)
    (cat : gmap string (list item)) (ids : list string) (depth : nat) (w : world) :
  ranked rank cat -> max_rank rank ids < depth ->
  exists plugins valid,
    fst (get_plugins_id_from_collections_list (catalog_server cat) depth ids w)
    = Val (None, plugins, valid).
Proof.
  intros Hranked Hdepth. rewrite resolution_on_table.
  destruct (resolve_levels_ranked rank cat Hranked depth ids Hdepth) as [l ->].
  eauto.
Qed.

Lemma resolution_terminates_when_well_founded_witness :
  exists plugins valid,
    fst (get_plugins_id_from_collections_list (catalog_server cat_nested) 4
           ["100"] (fresh_world None))
    = Val (None, plugins, valid).
Proof.
  apply (resolution_terminates_when_well_founded String.length cat_nested
           ["100"] 4 (fresh_world None)).
  - unfold ranked, cat_nested.
    repeat (apply map_Forall_insert_2; [vm_compute; repeat constructor|]).
    apply map_Forall_empty.
  - vm_compute. lia.
Defined.

Lemma length_ones k : String.length (ones k) = k.
Proof. induction k as [|k IH]; simpl; [done | by rewrite IH]. Qed.

Lemma ones_inj j k : ones j = ones k -> j = k.
Proof. intros H. apply (f_equal String.length) in H. by rewrite !length_ones in H. Qed.

Lemma chain_lookup n : forall k,
  k < n -> chain n !! ones (S (S k)) = Some [mk_item (ones (S k)) 2].
Proof.
  induction n as [|n IH]; intros k Hk; [lia|]. cbn [chain].
  destruct (decide (k = n)) as [->|Hne].
  - apply lookup_insert_eq.
  - rewrite lookup_insert_ne; [apply IH; lia|].
    intros Heq%ones_inj. lia.
Qed.

Lemma chain_ranked n : ranked String.length (chain n).
Proof.
  unfold ranked. induction n as [|n IH]; cbn [chain]; [apply map_Forall_empty|].
  apply map_Forall_insert_2; [|exact IH].
  unfold subs_of. rewrite filter_cons. case_decide; [|done].
  rewrite filter_nil. cbn [map mk_item item_publishedfileid].
  apply Forall_cons. split; [|apply Forall_nil_2].
  rewrite !length_ones. lia.
Qed.

(** The chain is deeper than [depth] nested calls can follow. *)
Lemma resolve_levels_chain n : forall depth k,
  depth <= k -> k <= n -> resolve_levels (chain n) depth [ones (S k)] = None.
Proof.
  induction depth as [|depth IH]; intros k Hd Hk; [done|].
  destruct k as [|k]; [lia|].
  cbn [resolve_levels children_of flat_map].
  rewrite (chain_lookup n k) by lia. cbn [default id]. rewrite app_nil_r.
  assert (Hsubs : subs_of [mk_item (ones (S k)) 2] = [ones (S k)]).
  { unfold subs_of. rewrite filter_cons. by case_decide. }
  rewrite Hsubs. by rewrite IH by lia.
Qed.

(** C8 fails as stated: when collection 1 lists itself as a child
    collection the resolution of 1 never returns a result: however many
    nested calls the interpreter allows, each of them sends its request and
    the call ends with [RecursionError].  Nor is a well-founded nesting
    enough: whatever the number of nested calls allowed, the resolution of
    the top of a chain of that many nested collections ends the same way. *)
Lemma cyclic_catalog_counterexample :
  (forall depth,
     let res := get_plugins_id_from_collections_list (catalog_server cat_cyclic)
                  depth ["1"] (fresh_world None) in
     fst res = Exn RecursionError /\
     length (payloads EpCollection (trace (snd res))) = depth) /\
  (forall depth,
     ranked String.length (chain depth) /\
     fst (get_plugins_id_from_collections_list (catalog_server (chain depth))
            depth [ones (S depth)] (fresh_world None)) = Exn RecursionError).
Proof.
  split.
  - intros depth res. subst res. split.
    + by rewrite resolution_on_table, resolve_levels_cyclic.
    + destruct (resolution_requests_exhausted cat_cyclic depth ["1"]
                  (fresh_world None) (resolve_levels_cyclic depth))
        as (evs & Ht & Hlen).
      by rewrite Ht.
  - intros depth. split; [apply chain_ranked|].
    by rewrite resolution_on_table, (resolve_levels_chain depth depth depth).
Qed.

Lemma occurrences_app id l k :
  occurrences id (l ++ k) = occurrences id l + occurrences id k.
Proof. unfold occurrences. by rewrite filter_app, length_app. Qed.

(** The references of a list of collections, split into the files they
    list themselves and the references of their child collections. *)
Lemma reference_count_level cat n id ids :
  sum_list_with (reference_count cat (S n) id) ids =
  occurrences id (files_of (children_of cat ids))
  + sum_list_with (reference_count cat n id) (subs_of (children_of cat ids)).
Proof.
  induction ids as [|c ids IH]; [done|].
  cbn [sum_list_with children_of flat_map].
  fold (children_of cat ids).
  rewrite files_of_app, subs_of_app, occurrences_app, sum_list_with_app, IH.
  cbn [reference_count]. destruct (cat !! c) as [children|]; simpl; lia.
Qed.

(** Each id is collected once per reference. *)
Lemma resolve_levels_count cat id : forall n ids l,
  resolve_levels cat n ids = Some l ->
  occurrences id l = sum_list_with (reference_count cat n id) ids.
Proof.
  induction n as [|n IH]; intros ids l; [done|].
  rewrite reference_count_level. cbn [resolve_levels].
  destruct (subs_of (children_of cat ids)) as [|s subs] eqn:Hsubs.
  - intros [= <-]. simpl. lia.
  - destruct (resolve_levels cat n (s :: subs)) as [temp|] eqn:Htemp; [|done].
    intros [= <-]. by rewrite occurrences_app, (IH _ _ Htemp).
Qed.

(** On a well-founded catalog the count of references does not depend on
    the bound, once the bound exceeds the rank. *)
Lemma reference_count_stable rank cat id :
  ranked rank cat ->
  forall n m c, rank c < n -> rank c < m ->
  reference_count cat n id c = reference_count cat m id c.
Proof.
  intros Hranked. induction n as [|n IH]; intros m c Hn Hm; [lia|].
  destruct m as [|m]; [lia|]. cbn [reference_count].
  destruct (cat !! c) as [children|] eqn:Hcat; [|done]. f_equal.
  pose proof (map_Forall_lookup_1 _ _ _ _ Hranked Hcat) as Hall. simpl in Hall.
  induction Hall as [|s subs Hs _ IHsubs]; [done|].
  cbn [sum_list_with]. rewrite IHsubs. f_equal. apply IH; lia.
Qed.

(** C2, as the code has it: on every catalog whose nesting is well founded
    and no deeper than the nested calls allowed, the resolution returns
    without error a list that holds exactly the files referenced, at any
    depth, from the requested collections, and holds each of them once per
    reference: as many times as the requested collections reference it,
    directly or through nested collections.  Nothing is deduplicated. *)
Theorem resolution_lists_referenced_files (rank : string -> nat)
    (cat : gmap string (list item)) (ids : list string) (depth : nat) (w : world) :
  ranked rank cat -> max_rank rank ids < depth ->
  exists plugins valid,
    fst (get_plugins_id_from_collections_list (catalog_server cat) depth ids w)
    = Val (None, plugins, valid) /\
    (forall id, id ∈ plugins <-> referenced cat ids id) /\
    (forall id n, max_rank rank ids < n ->
       occurrences id plugins = sum_list_with (reference_count cat n id) ids).
Proof.
  intros Hranked Hdepth. rewrite resolution_on_table.
  destruct (resolve_levels_ranked rank cat Hranked depth ids Hdepth) as [l Hl].
  rewrite Hl. exists l, (with_children cat ids). split_and!; [done | |].
  - by apply resolve_levels_exact with depth.
  - intros id n Hn. rewrite (resolve_levels_count cat id depth ids l Hl).
    clear Hl. induction ids as [|c ids IH]; [done|].
    cbn [sum_list_with]. unfold max_rank in Hdepth, Hn, IH. simpl in Hdepth, Hn.
    rewrite IH by lia. f_equal.
    apply (reference_count_stable rank cat id Hranked); lia.
Qed.

Lemma resolution_lists_referenced_files_witness :
  exists plugins valid,
    fst (get_plugins_id_from_collections_list (catalog_server cat_nested) 4
           ["100"] (fresh_world None))
    = Val (None, plugins, valid) /\
    (forall id, id ∈ plugins <-> referenced cat_nested ["100"] id) /\
    (forall id n, max_rank String.length ["100"] < n ->
       occurrences id plugins
       = sum_list_with (reference_count cat_nested n id) ["100"]).
Proof.
  apply (resolution_lists_referenced_files String.length cat_nested
           ["100"] 4 (fresh_world None)).
  - unfold ranked, cat_nested.
    repeat (apply map_Forall_insert_2; [vm_compute; repeat constructor|]).
    apply map_Forall_empty.
  - vm_compute. lia.
Defined.

(** C2 fails as stated: file 3 is referenced by collection 100 and by its
    sub-collection 20, and the resolution of 100 returns it twice; two
    distinct files are referenced and three ids are returned. *)
Lemma duplicate_ids_counterexample :
  fst (get_plugins_id_from_collections_list (catalog_server cat_nested) 4
         ["100"] (fresh_world None))
  = Val (None, ["3"; "3"; "4"], ["100"]) /\
  ~ NoDup ["3"; "3"; "4"].
Proof.
  split; [by vm_compute|].
  intros Hnd. apply NoDup_cons in Hnd as [Hnotin _]. apply Hnotin. by left.
Qed.

(** C6, as the code has it: on every catalog whose nesting is well founded
    the valid collections returned are exactly the requested, top-level ids
    whose record carries [children]; what the nested calls found valid is
    dropped. *)
Theorem valid_collections_are_top_level (rank : string -> nat)
    (cat : gmap string (list item)) (ids : list string) (depth : nat) (w : world) :
  ranked rank cat -> max_rank rank ids < depth ->
  exists plugins valid,
    fst (get_plugins_id_from_collections_list (catalog_server cat) depth ids w)
    = Val (None, plugins, valid) /\
    valid = filter (fun id => is_Some (cat !! id)) ids /\
    forall c, c ∈ valid <-> c ∈ ids /\ is_Some (cat !! c).
Proof.
  intros Hranked Hdepth. rewrite resolution_on_table.
  destruct (resolve_levels_ranked rank cat Hranked depth ids Hdepth) as [l Hl].
  rewrite Hl. exists l, (with_children cat ids). split_and!; [done | done |].
  intros c. unfold with_children. rewrite list_elem_of_filter. tauto.
Qed.

Lemma valid_collections_are_top_level_witness :
  exists plugins valid,
    fst (get_plugins_id_from_collections_list (catalog_server cat_nested) 4
           ["100"; "55"] (fresh_world None))
    = Val (None, plugins, valid) /\
    valid = filter (fun id => is_Some (cat_nested !! id)) ["100"; "55"] /\
    forall c, c ∈ valid <-> c ∈ ["100"; "55"] /\ is_Some (cat_nested !! c).
Proof.
  apply (valid_collections_are_top_level String.length cat_nested
           ["100"; "55"] 4 (fresh_world None)).
  - unfold ranked, cat_nested.
    repeat (apply map_Forall_insert_2; [vm_compute; repeat constructor|]).
    apply map_Forall_empty.
  - vm_compute. lia.
Defined.

(** C6 fails as stated: the sub-collection 20 of collection 100 carries
    children and its files are resolved, yet the valid collections returned
    for 100 are 100 alone. *)
Lemma nested_valid_counterexample :
  is_Some (cat_nested !! "20") /\
  reachable cat_nested ["100"] "20" /\
  fst (get_plugins_id_from_collections_list (catalog_server cat_nested) 4
         ["100"] (fresh_world None))
  = Val (None, ["3"; "3"; "4"], ["100"]) /\
  ("20" ∉ ["100"]).
Proof.
  split_and!.
  - by vm_compute; eauto.
  - apply reach_child with "100" [mk_item "20" 2; mk_item "3" 0].
    + apply reach_root. by left.
    + by vm_compute.
    + vm_compute. by left.
  - by vm_compute.
  - by intros [=]%list_elem_of_singleton.
Qed.

(** ** Two facts behind the evaluations above *)

(** Against a table of files, [get_plugins_info] returns the records of
    the ids of the call from any world: what an earlier call left in the
    template changes the payload, not the value returned. *)
Lemma get_plugins_info_on_table files ids w :
  fst (get_plugins_info (file_server files) ids w) = Val (None, map files ids).
Proof.
  unfold get_plugins_info, prepare_request, bind. simpl.
  unfold file_server.
  by rewrite requested_ids_prepared
    by (intros i; symmetry; apply publishedfileids_key_not_count).
Qed.

Lemma list_set_nonempty l : l <> [] -> list_set l <> [].
Proof.
  destruct l as [|x l]; [done|]. intros _ Hnil.
  assert (Hx : x ∈ list_set (x :: l)).
  { unfold list_set. rewrite elem_of_elements, elem_of_list_to_set. by left. }
  rewrite Hnil in Hx. by apply elem_of_nil in Hx.
Qed.

(** Whenever some persisted plugin is missing from the resolved ids and
    the catalog answers the request for the details, the reconciliation
    raises [NameError]. *)
Lemma reconcile_raises_name_error urlopen_file ids sd old w :
  sd_plugins sd = Some old -> plugins_to_remove ids old <> [] ->
  (forall fields, exists details, urlopen_file fields = Response details) ->
  fst (reconcile urlopen_file ids sd w) = Exn (NameError "print_deprecated_info").
Proof.
  intros Hold Hdep Hanswer. unfold reconcile. rewrite Hold.
  apply list_set_nonempty in Hdep.
  destruct (list_set (plugins_to_remove ids old)) as [|d ds]; [done|].
  unfold get_plugins_info, prepare_request, bind. simpl.
  match goal with
  | |- context [urlopen_file ?f] => destruct (Hanswer f) as [details ->]
  end.
  reflexivity.
Qed.

(** ** The batch, thread by thread *)

Lemma retrieved_of_app a b : retrieved_of (a ++ b) = retrieved_of a ++ retrieved_of b.
Proof. apply omap_app. Qed.
Lemma failed_of_app a b : failed_of (a ++ b) = failed_of a ++ failed_of b.
Proof. apply omap_app. Qed.
Lemma succeeded_of_app a b : succeeded_of (a ++ b) = succeeded_of a ++ succeeded_of b.
Proof. apply omap_app. Qed.
Lemma completed_of_app a b : completed_of (a ++ b) = completed_of a ++ completed_of b.
Proof. apply omap_app. Qed.
Lemma started_of_app a b : started_of (a ++ b) = started_of a ++ started_of b.
Proof. apply omap_app. Qed.

Lemma verdict_events_projections output_dir i v :
  started_of (verdict_events output_dir i v) = [] /\
  retrieved_of (verdict_events output_dir i v) = (if attempts v then [i] else []) /\
  failed_of (verdict_events output_dir i v) = (if fails v then [i] else []) /\
  succeeded_of (verdict_events output_dir i v)
    = (match success_id v with Some _ => [i] | None => [] end) /\
  completed_of (verdict_events output_dir i v)
    = (if downloads_one v then [i] else []).
Proof. by destruct v. Qed.

(** The worker does what its verdict says. *)
Lemma download_plugin_fields output_dir old_plugins urlretrieve i p st :
  let v := verdict_of old_plugins urlretrieve i p in
  let st' := download_plugin output_dir old_plugins urlretrieve i p st in
  d_events st' = d_events st ++ verdict_events output_dir i v /\
  d_threads st' = d_threads st /\
  d_downloads st' = d_downloads st + (if downloads_one v then 1 else 0) /\
  d_error st' = d_error st + (if fails v then 1 else 0) /\
  d_fail st' = d_fail st ++ (if fails v then [p] else []) /\
  d_succeed st' = match success_id v with
                  | Some id => <[id := meta_of p]> (d_succeed st)
                  | None => d_succeed st
                  end.
Proof.
  unfold verdict_of, download_plugin.
  destruct (file_url p) as [url|];
    [|by rewrite !app_nil_r, !Nat.add_0_r].
  destruct (title p) as [t|];
    [|by rewrite !app_nil_r, !Nat.add_0_r].
  destruct (publishedfileid p) as [id|];
    [|by rewrite !app_nil_r, !Nat.add_0_r].
  destruct (up_to_date old_plugins id p) as [[|]|]; simpl;
    [by rewrite !app_nil_r, !Nat.add_0_r | | by rewrite !app_nil_r, !Nat.add_0_r].
  destruct (urlretrieve i) as [|code|]; simpl;
    rewrite <- ?app_assoc, ?app_nil_r, ?Nat.add_0_r; simpl;
    split_and!; try done; lia.
Qed.

Lemma take_thread_split i ts p rest :
  take_thread i ts = Some (p, rest) ->
  exists ts1 ts2, ts = ts1 ++ (i, p) :: ts2 /\ rest = ts1 ++ ts2.
Proof.
  revert p rest. induction ts as [|[j q] ts IH]; intros p rest; simpl; [done|].
  destruct (Nat.eqb_spec i j) as [-> | Hne].
  - intros [= -> ->]. by exists [], rest.
  - destruct (take_thread i ts) as [[q' r]|]; [|done].
    intros [= -> <-]. destruct (IH _ _ eq_refl) as (ts1 & ts2 & -> & ->).
    by exists ((j, q) :: ts1), ts2.
Qed.

(** Adding the indices of one more thread to a projection of the events. *)
Lemma index_step (R : list nat) (flag : nat -> Prop) (run run' : nat -> Prop)
    (i : nat) (b : bool) :
  (forall j, j ∈ R <-> run j /\ flag j) ->
  (forall j, run' j <-> run j \/ j = i) -> ~ run i -> (b = true <-> flag i) ->
  (forall j, j ∈ R ++ (if b then [i] else []) <-> run' j /\ flag j) /\
  (NoDup R -> NoDup (R ++ (if b then [i] else []))).
Proof.
  intros HR Hrun Hi Hb. split.
  - intros j. rewrite elem_of_app, HR, Hrun. destruct b.
    + rewrite list_elem_of_singleton. split.
      * intros [[? ?] | ->]; [tauto|]. split; [by right | by apply Hb].
      * intros [[? | ->] ?]; [tauto | by right].
    + rewrite elem_of_nil. split.
      * intros [[? ?] | []]. tauto.
      * intros [[? | ->] Hf]; [tauto|]. apply Hb in Hf. discriminate.
  - intros Hnd. destruct b; [|by rewrite app_nil_r].
    apply NoDup_app. split_and!; [done | | apply NoDup_singleton].
    intros j Hj ->%list_elem_of_singleton. apply HR in Hj. tauto.
Qed.

Section RanFacts.

Variable g_iLimitDownloads : nat.
Variable output_dir : string.
Variable old_plugins : gmap string plugin_meta.
Variable urlretrieve : nat -> retrieve_result.
Variable sched : nat -> list nat.
Variable batch : list plugin.

Local Abbreviation Ran := (ran_inv output_dir old_plugins urlretrieve batch).
Local Abbreviation at_ := (verdict_at old_plugins urlretrieve batch).

Lemma ran_run_thread st i :
  Ran st -> Ran (run_thread output_dir old_plugins urlretrieve st i).
Proof.
  intros HR. unfold run_thread.
  destruct (take_thread i (d_threads st)) as [[p rest]|] eqn:Htake; [|done].
  apply take_thread_split in Htake as (ts1 & ts2 & Hts & ->).
  destruct HR as [Hst Hpool Hpb Hret Hfail Hsucc Hcomp Hnr Hnf Hnc Hdl Hsd].
  destruct (download_plugin_fields output_dir old_plugins urlretrieve i p
              (set_threads (ts1 ++ ts2) st))
    as (Hev & Hth & Hdown & _ & _ & Hsuc).
  set (st' := download_plugin output_dir old_plugins urlretrieve i p
                (set_threads (ts1 ++ ts2) st)) in *.
  cbn [set_threads d_events d_threads d_downloads d_succeed] in Hev, Hth, Hdown, Hsuc.
  destruct (verdict_events_projections output_dir i
              (verdict_of old_plugins urlretrieve i p))
    as (Pst & Pret & Pfail & Psucc & Pcomp).
  assert (Hip : batch !! i = Some p /\ i ∈ started_of (d_events st)).
  { apply Hpb. rewrite Hts. apply elem_of_app. right. by left. }
  destruct Hip as [Hp Hi].
  assert (Hat : at_ i = verdict_of old_plugins urlretrieve i p).
  { unfold verdict_at. by rewrite Hp. }
  rewrite Hts, map_app in Hpool. simpl in Hpool.
  apply NoDup_app in Hpool as (Hnd1 & Hdisj & Hnd2).
  apply NoDup_cons in Hnd2 as [Hi2 Hnd2].
  assert (Hi1 : i ∉ map fst ts1).
  { intros Hin. apply (Hdisj i Hin). by left. }
  assert (Hstarted : started_of (d_events st') = started_of (d_events st)).
  { by rewrite Hev, started_of_app, Pst, app_nil_r. }
  assert (Hrun : forall j, has_run st' j <-> has_run st j \/ j = i).
  { intros j. unfold has_run. rewrite Hstarted, Hth, Hts, !map_app. simpl.
    rewrite !elem_of_app, elem_of_cons. split.
    - intros [Hj Hnot]. destruct (decide (j = i)) as [->|Hne]; [by right|].
      left. split; [done|]. tauto.
    - intros [[Hj Hnot] | ->]; [tauto|]. split; [done|]. tauto. }
  assert (Hnot : ~ has_run st i).
  { unfold has_run. rewrite Hts, map_app. simpl.
    rewrite elem_of_app, elem_of_cons. tauto. }
  split.
  - by rewrite Hstarted.
  - rewrite Hth, map_app. apply NoDup_app. split_and!; [done | | done].
    intros j Hj1 Hj2. apply (Hdisj j Hj1). by right.
  - intros j q. rewrite Hth, Hstarted. intros Hin. apply Hpb. rewrite Hts.
    apply elem_of_app in Hin as [?|?]; apply elem_of_app; [by left|].
    right. by right.
  - rewrite Hev, retrieved_of_app, Pret.
    apply (index_step _ (fun j => attempts (at_ j) = true) (has_run st));
      [done | done | done | by rewrite Hat].
  - rewrite Hev, failed_of_app, Pfail.
    apply (index_step _ (fun j => fails (at_ j) = true) (has_run st));
      [done | done | done | by rewrite Hat].
  - rewrite Hev, succeeded_of_app, Psucc.
    replace (match success_id (verdict_of old_plugins urlretrieve i p) with
             | Some _ => [i] | None => [] end)
      with (if bool_decide (is_Some (success_id (verdict_of old_plugins urlretrieve i p)))
            then [i] else [])
      by (by destruct (success_id _)).
    apply (index_step _ (fun j => is_Some (success_id (at_ j))) (has_run st));
      [done | done | done |].
    rewrite Hat. apply bool_decide_eq_true.
  - rewrite Hev, completed_of_app, Pcomp.
    apply (index_step _ (fun j => downloads_one (at_ j) = true) (has_run st));
      [done | done | done | by rewrite Hat].
  - rewrite Hev, retrieved_of_app, Pret.
    apply (index_step _ (fun j => attempts (at_ j) = true) (has_run st)
             (has_run st')); [done | done | done | by rewrite Hat | done].
  - rewrite Hev, failed_of_app, Pfail.
    apply (index_step _ (fun j => fails (at_ j) = true) (has_run st)
             (has_run st')); [done | done | done | by rewrite Hat | done].
  - rewrite Hev, completed_of_app, Pcomp.
    apply (index_step _ (fun j => downloads_one (at_ j) = true) (has_run st)
             (has_run st')); [done | done | done | by rewrite Hat | done].
  - rewrite Hdown, Hev, completed_of_app, Pcomp, length_app, Hdl.
    by destruct (downloads_one _).
  - intros id. rewrite Hsuc. split.
    + intros Hsome.
      destruct (success_id (verdict_of old_plugins urlretrieve i p)) as [id'|] eqn:Hid.
      * destruct (decide (id' = id)) as [->|Hne].
        -- exists i. split; [apply Hrun; by right | by rewrite Hat].
        -- rewrite lookup_insert_ne in Hsome by done.
           apply Hsd in Hsome as (j & Hj & Hjid). exists j.
           split; [apply Hrun; by left | done].
      * apply Hsd in Hsome as (j & Hj & Hjid). exists j.
        split; [apply Hrun; by left | done].
    + intros (j & [Hj | ->]%Hrun & Hjid).
      * assert (is_Some (d_succeed st !! id)) as Hold by (apply Hsd; eauto).
        destruct (success_id (verdict_of old_plugins urlretrieve i p)) as [id'|];
          [|done].
        destruct (decide (id' = id)) as [->|Hne];
          [by rewrite lookup_insert_eq | by rewrite lookup_insert_ne].
      * rewrite Hat in Hjid. rewrite Hjid. by rewrite lookup_insert_eq.
Qed.

Lemma ran_run_threads l : forall st,
  Ran st -> Ran (run_threads output_dir old_plugins urlretrieve l st).
Proof.
  unfold run_threads. induction l as [|i l IH]; intros st HR; simpl; [done|].
  by apply IH, ran_run_thread.
Qed.

Lemma has_run_start i p st j :
  i ∉ started_of (d_events st) ->
  (forall k, k ∈ map fst (d_threads st) -> k ∈ started_of (d_events st)) ->
  has_run (start_thread i p st) j <-> has_run st j.
Proof.
  intros Hi Hpool. unfold has_run, start_thread. cbn [log set_threads d_events d_threads].
  rewrite started_of_snoc, map_app. simpl.
  rewrite !elem_of_app, !list_elem_of_singleton. split.
  - intros [[Hj | ->] Hnot]; [tauto|]. destruct Hnot. by right.
  - intros [Hj Hnot]. split; [by left|].
    intros [? | ->]; [tauto | done].
Qed.

Lemma ran_start_thread i p st :
  i ∉ started_of (d_events st) -> batch !! i = Some p ->
  Ran st -> Ran (start_thread i p st).
Proof.
  intros Hi Hp HR.
  assert (Hpool' : forall k, k ∈ map fst (d_threads st) ->
                             k ∈ started_of (d_events st)).
  { intros k [[k' q] [-> Hin]]%list_elem_of_fmap.
    by destruct (ran_pool_batch _ _ _ _ _ HR k' q Hin). }
  pose proof (has_run_start i p st) as Hrun.
  destruct HR as [Hst Hpool Hpb Hret Hfail Hsucc Hcomp Hnr Hnf Hnc Hdl Hsd].
  assert (Hr : retrieved_of (d_events (start_thread i p st))
               = retrieved_of (d_events st)).
  { unfold start_thread. cbn [log set_threads d_events].
    by rewrite retrieved_of_app, app_nil_r. }
  assert (Hf : failed_of (d_events (start_thread i p st)) = failed_of (d_events st)).
  { unfold start_thread. cbn [log set_threads d_events].
    by rewrite failed_of_app, app_nil_r. }
  assert (Hs : succeeded_of (d_events (start_thread i p st))
               = succeeded_of (d_events st)).
  { unfold start_thread. cbn [log set_threads d_events].
    by rewrite succeeded_of_app, app_nil_r. }
  assert (Hc : completed_of (d_events (start_thread i p st))
               = completed_of (d_events st)).
  { unfold start_thread. cbn [log set_threads d_events].
    by rewrite completed_of_app, app_nil_r. }
  split; rewrite ?Hr, ?Hf, ?Hs, ?Hc; try done.
  - unfold start_thread. cbn [log set_threads d_events].
    rewrite started_of_snoc. apply NoDup_app. split_and!; [done | | apply NoDup_singleton].
    by intros j Hj ->%list_elem_of_singleton.
  - unfold start_thread. cbn [log set_threads d_threads]. rewrite map_app. simpl.
    apply NoDup_app. split_and!; [done | | apply NoDup_singleton].
    intros j Hj ->%list_elem_of_singleton. by apply Hi, Hpool'.
  - intros j q. unfold start_thread. cbn [log set_threads d_threads d_events].
    rewrite started_of_snoc.
    intros [Hin | [= -> ->]%list_elem_of_singleton]%elem_of_app.
    + destruct (Hpb j q Hin). split; [done | apply elem_of_app; by left].
    + split; [done | apply elem_of_app; right; by left].
  - intros j. by rewrite Hret, Hrun.
  - intros j. by rewrite Hfail, Hrun.
  - intros j. by rewrite Hsucc, Hrun.
  - intros j. by rewrite Hcomp, Hrun.
  - intros id. rewrite Hsd. by setoid_rewrite Hrun.
Qed.

Lemma ran_dispatch plugins : forall i st,
  (forall j p, plugins !! j = Some p -> batch !! (i + j) = Some p) ->
  (forall j, j ∈ started_of (d_events st) -> j < i) ->
  Ran st ->
  Ran (dispatch g_iLimitDownloads output_dir old_plugins urlretrieve sched i plugins st).
Proof.
  induction plugins as [|p plugins IH]; intros i st Hb Hlt HR; simpl; [done|].
  pose proof (ran_run_threads (sched i) st HR) as HR1.
  destruct (run_threads_keeps g_iLimitDownloads output_dir old_plugins urlretrieve
              sched batch (sched i) st) as (_ & Hs1 & _).
  set (st1 := run_threads output_dir old_plugins urlretrieve (sched i) st) in *.
  assert (Hb' : forall j q, plugins !! j = Some q -> batch !! (S i + j) = Some q).
  { intros j q Hj. replace (S i + j) with (i + S j) by lia. by apply Hb. }
  destruct (cap_reached g_iLimitDownloads st1).
  - apply IH; [done | | done].
    intros j Hj. rewrite Hs1 in Hj. specialize (Hlt j Hj). lia.
  - assert (Hp : batch !! i = Some p).
    { specialize (Hb 0 p eq_refl). by rewrite Nat.add_0_r in Hb. }
    assert (Hi : i ∉ started_of (d_events st1)).
    { rewrite Hs1. intros Hin. specialize (Hlt i Hin). lia. }
    apply IH; [done | | by apply ran_start_thread].
    intros j. unfold start_thread. cbn [log set_threads d_events].
    rewrite started_of_snoc, Hs1.
    intros [Hj | ->%list_elem_of_singleton]%elem_of_app; [|lia].
    specialize (Hlt j Hj). lia.
Qed.

Lemma run_threads_pool_empties ts : forall st,
  d_threads st = ts ->
  d_threads (run_threads output_dir old_plugins urlretrieve (map fst ts) st) = [].
Proof.
  unfold run_threads. induction ts as [|[i p] ts IH]; intros st Hts; simpl; [done|].
  apply IH. unfold run_thread. rewrite Hts. simpl. rewrite Nat.eqb_refl.
  by destruct (download_plugin_fields output_dir old_plugins urlretrieve i p
                 (set_threads ts st)) as (_ & -> & _).
Qed.

(** When the batch returns, every started thread has run. *)
Lemma download_run_ran :
  let st := download_run g_iLimitDownloads output_dir old_plugins urlretrieve
              sched batch in
  Ran st /\ d_threads st = [].
Proof.
  unfold download_run, join_all. split.
  - apply ran_run_threads, ran_run_threads, ran_dispatch.
    + intros j p Hj. exact Hj.
    + intros j Hj. by apply elem_of_nil in Hj.
    + split; simpl; try done; try apply NoDup_nil_2.
      * intros i p Hin. by apply elem_of_nil in Hin.
      * intros i. rewrite elem_of_nil. unfold has_run. simpl.
        rewrite elem_of_nil. tauto.
      * intros i. rewrite elem_of_nil. unfold has_run. simpl.
        rewrite elem_of_nil. tauto.
      * intros i. rewrite elem_of_nil. unfold has_run. simpl.
        rewrite elem_of_nil. tauto.
      * intros i. rewrite elem_of_nil. unfold has_run. simpl.
        rewrite elem_of_nil. tauto.
      * intros id. rewrite lookup_empty. unfold has_run. simpl. split.
        -- by intros [? ?].
        -- intros (i & [Hi _] & _). by apply elem_of_nil in Hi.
  - by apply run_threads_pool_empties.
Qed.

End RanFacts.

(** What a batch returns, by the verdicts of the plugins it started. *)
Lemma download_run_verdicts (g_iLimitDownloads : nat) (output_dir : string)
    (old_plugins : gmap string plugin_meta) (urlretrieve : nat -> retrieve_result)
    (sched : nat -> list nat) (batch : list plugin) :
  let st := download_run g_iLimitDownloads output_dir old_plugins urlretrieve
              sched batch in
  let verdict i := verdict_at old_plugins urlretrieve batch i in
  exists k,
    k <= length batch /\
    started_of (d_events st) = seq 0 k /\
    (g_iLimitDownloads = 0 -> k = length batch) /\
    (forall i, i ∈ retrieved_of (d_events st) <-> i < k /\ attempts (verdict i) = true) /\
    (forall p, p ∈ d_fail st <->
       exists i, i < k /\ batch !! i = Some p /\ fails (verdict i) = true) /\
    d_error st = length (filter (fun i => fails (verdict i) = true) (seq 0 k)) /\
    d_downloads st
      = length (filter (fun i => downloads_one (verdict i) = true) (seq 0 k)) /\
    (forall id, is_Some (d_succeed st !! id) <->
       exists i, i < k /\ success_id (verdict i) = Some id).
Proof.
  intros st verdict.
  destruct (download_run_ran g_iLimitDownloads output_dir old_plugins urlretrieve
              sched batch) as [HR Hpool].
  destruct (download_run_inv g_iLimitDownloads output_dir old_plugins urlretrieve
              sched batch) as [[_ _ F N _] (k & Hk & Hst & Hcap)].
  fold st in HR, Hpool, F, N, Hst, Hcap.
  destruct HR as [_ _ _ Hret Hfail _ Hcomp _ Hnf Hnc Hdl Hsd].
  assert (Hrun : forall i, has_run st i <-> i < k).
  { intros i. unfold has_run. rewrite Hpool, Hst, elem_of_seq. simpl.
    rewrite elem_of_nil. split; [lia | intros ?; split; [lia | tauto]]. }
  assert (Hcount : forall (l : list nat) (flag : nat -> bool),
            NoDup l -> (forall i, i ∈ l <-> has_run st i /\ flag i = true) ->
            length l = length (filter (fun i => flag i = true) (seq 0 k))).
  { intros l flag Hnd Hl. apply Permutation_length, NoDup_Permutation;
      [done | apply NoDup_filter, NoDup_seq |].
    intros i. rewrite Hl, Hrun, list_elem_of_filter, elem_of_seq.
    split; intros [? ?]; (split; [done || lia | done || lia]). }
  exists k. split_and!; try done.
  - intros H0. destruct (decide (k < length batch)) as [Hlt|]; [|lia].
    destruct (Hcap Hlt) as [Hne _]. done.
  - intros i. by rewrite Hret, Hrun.
  - intros p. split.
    + intros [n Hn]%list_elem_of_lookup.
      destruct (Forall2_lookup_l _ _ _ _ _ F Hn) as (i & Hi & Hp).
      apply list_elem_of_lookup_2, Hfail in Hi as [Hi Hf].
      exists i. by rewrite <- Hrun.
    + intros (i & Hi & Hp & Hf).
      assert (Hin : i ∈ failed_of (d_events st)) by (apply Hfail; by rewrite Hrun).
      apply list_elem_of_lookup in Hin as [n Hn].
      destruct (Forall2_lookup_r _ _ _ _ _ F Hn) as (q & Hq & Hq').
      apply list_elem_of_lookup_2 in Hq. congruence.
  - rewrite N, (Forall2_length _ _ _ F). by apply Hcount.
  - rewrite Hdl. by apply Hcount.
  - intros id. rewrite Hsd. by setoid_rewrite Hrun.
Qed.

(** The verdict is a failure exactly when the record has the keys the
    worker reads, is not up to date and [urlretrieve] raises [HTTPError]. *)
Lemma fails_verdict old_plugins urlretrieve i p :
  fails (verdict_of old_plugins urlretrieve i p) = true <->
  exists id code,
    is_Some (file_url p) /\ is_Some (title p) /\ publishedfileid p = Some id /\
    up_to_date old_plugins id p = Some false /\
    urlretrieve i = RetrieveHTTPError code.
Proof.
  unfold verdict_of. split.
  - destruct (file_url p) as [url|]; [|done].
    destruct (title p) as [t|]; [|done].
    destruct (publishedfileid p) as [id|]; [|done].
    destruct (up_to_date old_plugins id p) as [[|]|] eqn:Hup; [done | | done].
    destruct (urlretrieve i) as [|code|] eqn:Hr; [done | | done].
    intros _. exists id, code. by split_and!.
  - intros (id & code & [url ->] & [t ->] & -> & -> & ->). done.
Qed.

(** C3, as the code has it: for every limit (positive or zero), every
    batch, every outcome of the network and every interleaving of the
    threads, the plugins for which a thread was started are the first [k]
    of the batch, and one was passed over only after the download counter,
    which counts the started plugins whose download completed, had reached
    a positive limit.  A plugin that was passed over is left untouched:
    none of its events occurs (no call of [urlretrieve], no success, no
    failure), and it is not returned either: [fail] holds, position by
    position, the started plugins whose thread reported a server error,
    which are exactly the started plugins for which [urlretrieve] raised
    [HTTPError]; [error] is the length of [fail], and the keys of [succeed]
    are the ids of the started plugins that were up to date or whose
    download completed. *)
Theorem cap_passes_over_and_drops (g_iLimitDownloads : nat) (output_dir : string)
    (old_plugins : gmap string plugin_meta) (urlretrieve : nat -> retrieve_result)
    (sched : nat -> list nat) (batch : list plugin) :
  let st := download_run g_iLimitDownloads output_dir old_plugins urlretrieve
              sched batch in
  let verdict i := verdict_at old_plugins urlretrieve batch i in
  download_plugins_concurrently g_iLimitDownloads output_dir old_plugins
    urlretrieve sched batch = (d_error st, d_fail st, d_succeed st) /\
  exists k,
    k <= length batch /\
    started_of (d_events st) = seq 0 k /\
    (k < length batch -> g_iLimitDownloads <> 0 /\ g_iLimitDownloads <= d_downloads st) /\
    (forall e i, e ∈ d_events st -> worker_index e = Some i -> i < k) /\
    Forall2 (fun p i => batch !! i = Some p /\ i < k)
      (d_fail st) (failed_of (d_events st)) /\
    d_error st = length (d_fail st) /\
    (forall id, is_Some (d_succeed st !! id) ->
       exists i p, i < k /\ batch !! i = Some p /\ publishedfileid p = Some id) /\
    d_downloads st
      = length (filter (fun i => downloads_one (verdict i) = true) (seq 0 k)) /\
    (forall i, i ∈ retrieved_of (d_events st) <->
       i < k /\ attempts (verdict i) = true) /\
    (forall p, p ∈ d_fail st <->
       exists i id code,
         i < k /\ batch !! i = Some p /\
         is_Some (file_url p) /\ is_Some (title p) /\ publishedfileid p = Some id /\
         up_to_date old_plugins id p = Some false /\
         urlretrieve i = RetrieveHTTPError code) /\
    (forall id, is_Some (d_succeed st !! id) <->
       exists i, i < k /\ success_id (verdict i) = Some id).
Proof.
  intros st verdict. split; [reflexivity|].
  destruct (download_run_inv g_iLimitDownloads output_dir old_plugins
              urlretrieve sched batch) as [[T E F N S] (k & Hk & Hst & Hcap)].
  destruct (download_run_verdicts g_iLimitDownloads output_dir old_plugins
              urlretrieve sched batch)
    as (k' & _ & Hst' & _ & Hret & Hfail & _ & Hdl & Hsd).
  fold st in T, E, F, N, S, Hst, Hcap, Hst', Hret, Hfail, Hdl, Hsd.
  fold verdict in Hret, Hfail, Hdl, Hsd.
  assert (k' = k) as ->.
  { rewrite Hst in Hst'. apply (f_equal length) in Hst'.
    by rewrite !length_seq in Hst'. }
  assert (Hlt : forall i, i ∈ started_of (d_events st) -> i < k).
  { intros i. rewrite Hst, elem_of_seq. lia. }
  exists k. split_and!; try done.
  - intros e i He Hi. apply Hlt. by destruct (E e i He Hi).
  - assert (Hall : forall i, i ∈ failed_of (d_events st) -> i < k).
    { intros i (e & He & Hi)%worker_event_of_failed.
      apply Hlt. by destruct (E e i He Hi). }
    apply Forall2_same_length_lookup in F as [Hlen F].
    apply Forall2_same_length_lookup. split; [exact Hlen|].
    intros n p i Hn Hi. split; [by apply (F n)|].
    by apply Hall, list_elem_of_lookup_2 with n.
  - intros id Hid. destruct (S id Hid) as (i & p & Hi & Hp & Hpid).
    exists i, p. split_and!; try done.
    apply worker_event_of_succeeded in Hi as (e & He & Hi).
    apply Hlt. by destruct (E e i He Hi).
  - intros p. rewrite Hfail. split.
    + intros (i & Hi & Hp & Hf). unfold verdict, verdict_at in Hf.
      rewrite Hp in Hf.
      apply fails_verdict in Hf as (id & code & Hurl & Httl & Hid & Hup & Hr).
      exists i, id, code. by split_and!.
    + intros (i & id & code & Hi & Hp & Hurl & Httl & Hid & Hup & Hr).
      exists i. split_and!; [done..|].
      unfold verdict, verdict_at. rewrite Hp. apply fails_verdict.
      exists id, code. by split_and!.
Qed.

(** C3 fails as stated: with the limit 2 and three downloadable plugins
    whose downloads all succeed, when every thread finishes before the next
    is started the third plugin is passed over and is in neither returned
    collection (the failed list is empty); when no thread finishes before
    the loop ends, three downloads are attempted, not two. *)
Lemma cap_counterexample :
  (let st := download_run 2 "addons" ∅ (always_retrieved 0) sched_sequential batch3 in
   started_of (d_events st) = [0; 1] /\ d_fail st = [] /\ d_error st = 0 /\
   d_succeed st !! "13" = None) /\
  (let st := download_run 2 "addons" ∅ (always_retrieved 0) sched_eager batch3 in
   started_of (d_events st) = [0; 1; 2] /\ retrieved_of (d_events st) = [0; 1; 2]).
Proof. vm_compute. repeat split. Qed.

(** X1: whatever the limit, the network and the interleaving, what a batch
    returns is fixed by the number [k] of threads it started and by the
    verdicts of the first [k] plugins: [urlretrieve] is called exactly for
    those of them whose verdict attempts a download, [fail] holds exactly
    those whose download got a server error and [error] counts them, the
    download counter counts those whose download completed, and the keys of
    [succeed] are the ids of those that were up to date or downloaded.  With
    the limit 0 every plugin is started. *)
Theorem batch_result_by_verdicts (g_iLimitDownloads : nat) (output_dir : string)
    (old_plugins : gmap string plugin_meta) (urlretrieve : nat -> retrieve_result)
    (sched : nat -> list nat) (batch : list plugin) :
  let st := download_run g_iLimitDownloads output_dir old_plugins urlretrieve
              sched batch in
  let verdict i := verdict_at old_plugins urlretrieve batch i in
  exists k,
    k <= length batch /\
    started_of (d_events st) = seq 0 k /\
    (g_iLimitDownloads = 0 -> k = length batch) /\
    (forall i, i ∈ retrieved_of (d_events st) <-> i < k /\ attempts (verdict i) = true) /\
    (forall p, p ∈ d_fail st <->
       exists i, i < k /\ batch !! i = Some p /\ fails (verdict i) = true) /\
    d_error st = length (filter (fun i => fails (verdict i) = true) (seq 0 k)) /\
    d_downloads st
      = length (filter (fun i => downloads_one (verdict i) = true) (seq 0 k)) /\
    (forall id, is_Some (d_succeed st !! id) <->
       exists i, i < k /\ success_id (verdict i) = Some id).
Proof.
  apply download_run_verdicts.
Qed.

Lemma is_current_verdict old_plugins urlretrieve i p :
  is_current old_plugins p ->
  exists id, publishedfileid p = Some id /\
             verdict_of old_plugins urlretrieve i p = VUpToDate id.
Proof.
  intros (id & ttl & url & t & m & Hid & Httl & Hurl & Ht & Hm & Hmt).
  exists id. split; [done|].
  unfold verdict_of, up_to_date. rewrite Hurl, Httl, Hid, Hm, Hmt, Ht.
  by rewrite Z.eqb_refl.
Qed.

Lemma is_outdated_verdict old_plugins urlretrieve i p id url :
  is_outdated old_plugins p id url ->
  verdict_of old_plugins urlretrieve i p =
  match urlretrieve i with
  | Retrieved => VDownloaded id url
  | RetrieveHTTPError code => VServerError id url code
  | RetrieveOtherError => VDied id url
  end.
Proof.
  intros (Hid & [ttl Httl] & Hurl & Hold).
  unfold verdict_of, up_to_date. rewrite Hurl, Httl, Hid.
  destruct Hold as [-> | (m & t & t' & -> & -> & -> & Hne)]; [done|].
  by destruct (Z.eqb_spec t t').
Qed.

(** X2: a batch whose records are all in the state file at the same
    [time_updated] starts a thread for every record and downloads nothing,
    whatever the limit and the interleaving: [urlretrieve] is never called,
    nothing fails, and the keys of [succeed] are exactly the ids of the
    batch. *)
Theorem current_batch_downloads_nothing (g_iLimitDownloads : nat)
    (output_dir : string) (old_plugins : gmap string plugin_meta)
    (urlretrieve : nat -> retrieve_result) (sched : nat -> list nat)
    (batch : list plugin) :
  (forall p, p ∈ batch -> is_current old_plugins p) ->
  let st := download_run g_iLimitDownloads output_dir old_plugins urlretrieve
              sched batch in
  started_of (d_events st) = seq 0 (length batch) /\
  retrieved_of (d_events st) = [] /\
  d_fail st = [] /\ d_error st = 0 /\ d_downloads st = 0 /\
  forall id, is_Some (d_succeed st !! id) <->
             exists p, p ∈ batch /\ publishedfileid p = Some id.
Proof.
  intros Hcur st.
  destruct (download_run_verdicts g_iLimitDownloads output_dir old_plugins
              urlretrieve sched batch)
    as (k & Hk & Hst & _ & Hret & Hfail & Herr & Hdl & Hsd).
  destruct (download_run_inv g_iLimitDownloads output_dir old_plugins urlretrieve
              sched batch) as [_ (k' & _ & Hst' & Hcap)].
  fold st in Hst, Hret, Hfail, Herr, Hdl, Hsd, Hst', Hcap.
  assert (k' = k) as ->.
  { rewrite Hst in Hst'. apply (f_equal length) in Hst'.
    by rewrite !length_seq in Hst'. }
  assert (Hat : forall i, i < length batch ->
            exists p id, batch !! i = Some p /\ publishedfileid p = Some id /\
              verdict_at old_plugins urlretrieve batch i = VUpToDate id).
  { intros i Hi. destruct (lookup_lt_is_Some_2 batch i Hi) as [p Hp].
    destruct (is_current_verdict old_plugins urlretrieve i p) as (id & Hid & Hv).
    { by eapply Hcur, list_elem_of_lookup_2. }
    exists p, id. unfold verdict_at. by rewrite Hp. }
  assert (Hnone : forall flag : verdict -> bool,
            (forall id, flag (VUpToDate id) = false) ->
            filter (fun i => flag (verdict_at old_plugins urlretrieve batch i) = true)
                   (seq 0 k) = []).
  { intros flag Hflag. apply elem_of_nil_inv. intros i.
    rewrite list_elem_of_filter, elem_of_seq. intros [Hf Hi].
    destruct (Hat i) as (p & id & _ & _ & Hv); [lia|].
    rewrite Hv, Hflag in Hf. discriminate. }
  assert (Hdl0 : d_downloads st = 0).
  { rewrite Hdl, (Hnone downloads_one); done. }
  assert (k = length batch) as ->.
  { destruct (decide (k < length batch)) as [Hlt|]; [|lia].
    destruct (Hcap Hlt) as [Hne Hle]. lia. }
  split_and!; try done.
  - apply elem_of_nil_inv. intros i [Hi Ha]%Hret.
    destruct (Hat i Hi) as (p & id & _ & _ & Hv). rewrite Hv in Ha. discriminate.
  - apply elem_of_nil_inv. intros p (i & Hi & _ & Hf)%Hfail.
    destruct (Hat i Hi) as (q & id & _ & _ & Hv). rewrite Hv in Hf. discriminate.
  - rewrite Herr, (Hnone fails); done.
  - intros id. rewrite Hsd. split.
    + intros (i & Hi & Hs). destruct (Hat i Hi) as (p & id' & Hp & Hid & Hv).
      rewrite Hv in Hs. injection Hs as ->.
      exists p. split; [by eapply list_elem_of_lookup_2 | done].
    + intros (p & [i Hp]%list_elem_of_lookup & Hid).
      assert (Hi : i < length batch) by (by eapply lookup_lt_Some).
      destruct (Hat i Hi) as (q & id' & Hq & Hid' & Hv).
      exists i. split; [done|]. rewrite Hv. simpl. congruence.
Qed.

Lemma current_batch_downloads_nothing_witness :
  let st := download_run 1 "addons" old_two (always_http_error 0) sched_sequential
              [mk_plugin "21" 5; mk_plugin "22" 4] in
  started_of (d_events st) = seq 0 2 /\
  retrieved_of (d_events st) = [] /\
  d_fail st = [] /\ d_error st = 0 /\ d_downloads st = 0 /\
  forall id, is_Some (d_succeed st !! id) <->
             exists p, p ∈ [mk_plugin "21" 5; mk_plugin "22" 4] /\
                       publishedfileid p = Some id.
Proof.
  apply (current_batch_downloads_nothing 1 "addons" old_two (always_http_error 0)
           sched_sequential [mk_plugin "21" 5; mk_plugin "22" 4]).
  intros p [-> | [-> | []%elem_of_nil]%elem_of_cons]%elem_of_cons.
  - exists "21", "map 21", "http://cdn.example/21", 5%Z, (meta_of (mk_plugin "21" 5)).
    by vm_compute.
  - exists "22", "map 22", "http://cdn.example/22", 4%Z, (meta_of (mk_plugin "22" 4)).
    by vm_compute.
Defined.

(** X3: with no limit, a record with every key the worker reads that the
    state file does not have, or has at another [time_updated], gets its
    download attempted under every interleaving; when the download goes
    through its id is a key of [succeed], and when the server answers with
    an HTTP error the record is in [fail]. *)
Theorem outdated_plugin_is_downloaded (output_dir : string)
    (old_plugins : gmap string plugin_meta) (urlretrieve : nat -> retrieve_result)
    (sched : nat -> list nat) (batch : list plugin) (i : nat) (p : plugin)
    (id url : string) :
  batch !! i = Some p -> is_outdated old_plugins p id url ->
  let st := download_run 0 output_dir old_plugins urlretrieve sched batch in
  i ∈ retrieved_of (d_events st) /\
  (urlretrieve i = Retrieved -> is_Some (d_succeed st !! id)) /\
  (forall code, urlretrieve i = RetrieveHTTPError code -> p ∈ d_fail st).
Proof.
  intros Hp Hout st.
  destruct (download_run_verdicts 0 output_dir old_plugins urlretrieve sched batch)
    as (k & Hk & _ & Hall & Hret & Hfail & _ & _ & Hsd).
  fold st in Hret, Hfail, Hsd. rewrite (Hall eq_refl) in *.
  assert (Hi : i < length batch) by (by eapply lookup_lt_Some).
  assert (Hv : verdict_at old_plugins urlretrieve batch i =
               verdict_of old_plugins urlretrieve i p).
  { unfold verdict_at. by rewrite Hp. }
  rewrite (is_outdated_verdict _ _ _ _ _ _ Hout) in Hv.
  split_and!.
  - apply Hret. split; [done|]. rewrite Hv. by destruct (urlretrieve i).
  - intros Hr. apply Hsd. exists i. split; [done|]. by rewrite Hv, Hr.
  - intros code Hr. apply Hfail. exists i. split_and!; [done | done |].
    by rewrite Hv, Hr.
Qed.

Lemma outdated_plugin_is_downloaded_witness :
  let st := download_run 0 "addons" old_two (always_retrieved 0) sched_eager
              [mk_plugin "21" 5; mk_plugin "22" 9] in
  1 ∈ retrieved_of (d_events st) /\
  (always_retrieved 0 1 = Retrieved -> is_Some (d_succeed st !! "22")) /\
  (forall code, always_retrieved 0 1 = RetrieveHTTPError code ->
                mk_plugin "22" 9 ∈ d_fail st).
Proof.
  apply (outdated_plugin_is_downloaded "addons" old_two (always_retrieved 0)
           sched_eager [mk_plugin "21" 5; mk_plugin "22" 9] 1 (mk_plugin "22" 9)
           "22" "http://cdn.example/22").
  - reflexivity.
  - split_and!; [reflexivity | by eexists | reflexivity |].
    right. exists (meta_of (mk_plugin "22" 4)), 4%Z, 9%Z. by vm_compute.
Defined.

(** Under the sequential interleaving, when the loop reaches position [i]
    the pool is empty, or holds the thread of position [i - 1] alone while
    the counter is still below the limit. *)
Lemma sequential_turn (g_iLimitDownloads : nat) output_dir old_plugins urlretrieve
    i st :
  (d_threads st = [] /\ d_downloads st <= g_iLimitDownloads) \/
  (exists j p, d_threads st = [(j, p)] /\ S j = i /\
               d_downloads st < g_iLimitDownloads) ->
  let st1 := run_threads output_dir old_plugins urlretrieve (sched_sequential i) st in
  d_threads st1 = [] /\ d_downloads st1 <= g_iLimitDownloads.
Proof.
  intros [[Hts Hd] | (j & p & Hts & <- & Hd)].
  - destruct i as [|j]; simpl; [done|].
    unfold run_thread. by rewrite Hts.
  - simpl. unfold run_thread. rewrite Hts. simpl. rewrite Nat.eqb_refl.
    destruct (download_plugin_fields output_dir old_plugins urlretrieve j p
                (set_threads [] st)) as (_ & -> & -> & _).
    simpl. split; [done|]. destruct (downloads_one _); lia.
Qed.

Lemma dispatch_sequential (g_iLimitDownloads : nat) output_dir old_plugins
    urlretrieve plugins : forall i st,
  0 < g_iLimitDownloads ->
  (d_threads st = [] /\ d_downloads st <= g_iLimitDownloads) \/
  (exists j p, d_threads st = [(j, p)] /\ S j = i /\
               d_downloads st < g_iLimitDownloads) ->
  let st' := dispatch g_iLimitDownloads output_dir old_plugins urlretrieve
               sched_sequential i plugins st in
  (d_threads st' = [] /\ d_downloads st' <= g_iLimitDownloads) \/
  (exists j p, d_threads st' = [(j, p)] /\ S j = i + length plugins /\
               d_downloads st' < g_iLimitDownloads).
Proof.
  induction plugins as [|p plugins IH]; intros i st HL Hinv; simpl.
  - by rewrite Nat.add_0_r.
  - destruct (sequential_turn g_iLimitDownloads output_dir old_plugins urlretrieve
                i st Hinv) as [Hts Hd].
    set (st1 := run_threads output_dir old_plugins urlretrieve
                  (sched_sequential i) st) in *.
    replace (i + S (length plugins)) with (S i + length plugins) by lia.
    destruct (cap_reached g_iLimitDownloads st1) eqn:Hcap.
    + apply IH; [done | by left].
    + apply IH; [done|]. right. exists i, p.
      unfold start_thread. cbn [log set_threads d_threads d_downloads].
      rewrite Hts. split_and!; [done | done |].
      unfold cap_reached in Hcap.
      apply andb_false_iff in Hcap as [Hc%Nat.leb_gt | Hc%negb_false_iff%Nat.eqb_eq];
        lia.
Qed.

(** X4: when every thread finishes before the next plugin is looked at, a
    positive limit holds: at the end of the batch no more downloads have
    completed than the limit allows. *)
Theorem sequential_cap_bounds_downloads (g_iLimitDownloads : nat)
    (output_dir : string) (old_plugins : gmap string plugin_meta)
    (urlretrieve : nat -> retrieve_result) (batch : list plugin) :
  0 < g_iLimitDownloads ->
  let st := download_run g_iLimitDownloads output_dir old_plugins urlretrieve
              sched_sequential batch in
  d_downloads st <= g_iLimitDownloads /\
  length (completed_of (d_events st)) <= g_iLimitDownloads.
Proof.
  intros HL st.
  assert (Hd : d_downloads st <= g_iLimitDownloads).
  { unfold st, download_run, join_all.
    pose proof (dispatch_sequential g_iLimitDownloads output_dir old_plugins
                  urlretrieve batch 0 dstate0 HL) as Hdisp.
    simpl in Hdisp.
    destruct (sequential_turn g_iLimitDownloads output_dir old_plugins urlretrieve
                (length batch) _ (Hdisp (or_introl (conj eq_refl (Nat.le_0_l _)))))
      as [Hts Hd].
    by rewrite Hts. }
  split; [done|].
  destruct (download_run_ran g_iLimitDownloads output_dir old_plugins urlretrieve
              sched_sequential batch) as [HR _].
  subst st. by rewrite <- (ran_downloads _ _ _ _ _ HR).
Qed.

Lemma sequential_cap_bounds_downloads_witness :
  let st := download_run 2 "addons" ∅ (always_retrieved 0) sched_sequential batch3 in
  d_downloads st <= 2 /\ length (completed_of (d_events st)) <= 2.
Proof.
  apply (sequential_cap_bounds_downloads 2 "addons" ∅ (always_retrieved 0) batch3).
  lia.
Defined.

(** ** The stages of a run *)

Lemma plugins_to_remove_none plugins_id_list (old_plugins : gmap string plugin_meta) :
  (forall id, id ∈ dom old_plugins -> id ∈ plugins_id_list) ->
  plugins_to_remove plugins_id_list old_plugins = [].
Proof.
  intros Hsub. unfold plugins_to_remove. apply elem_of_nil_inv. intros id.
  rewrite list_elem_of_filter, elem_of_elements. intros [Hout Hin].
  apply Hout, Hsub, Hin.
Qed.

(** When the reconciliation returns, the saved data is as it was, and
    either there was no plugin map or the old map is kept whole and its
    keys are merged into the ids. *)
Lemma reconcile_returns urlopen_file ids sd w ids' old sd' w' :
  reconcile urlopen_file ids sd w = (Val (ids', old, sd'), w') ->
  sd' = sd /\
  ((sd_plugins sd = None /\ old = ∅ /\ ids' = ids /\ w' = w) \/
   (sd_plugins sd = Some old /\ ids' = list_set (ids ++ elements (dom old)))).
Proof.
  unfold reconcile. destruct (sd_plugins sd) as [old0|] eqn:Hold.
  - unfold bind.
    destruct (list_set (plugins_to_remove ids old0)) as [|d ds].
    + cbn [ret]. intros [= <- <- <- <-]. split; [done|]. by right.
    + destruct (get_plugins_info urlopen_file (d :: ds) w) as [[[[e|] info]|e|] w1];
        cbn [ret unbound_global raise]; try discriminate.
      intros [= <- <- <- <-]. split; [done|]. by right.
  - cbn [ret]. intros [= <- <- <- <-]. split; [done|]. by left.
Qed.

(** A run either stops before the retry loop, having only talked to the
    catalog, or goes through resolution, reconciliation and the lookup of
    the plugin records and ends as the retry loop ends. *)
Lemma main_stages g_iLimitDownloads urlopen_collection urlopen_file urlretrieve
    sched depth fuel ir w :
  let res := main g_iLimitDownloads urlopen_collection urlopen_file urlretrieve
               sched depth fuel ir w in
  (exists evs, between w (snd res) evs /\ Forall is_request evs /\
               fst res <> Val Done /\ fst res <> Val GivenUp) \/
  (exists collections ids valid w2 ids' old w3 plugins_info w4,
     collections = merged_collections ir (save_file w) /\
     get_plugins_id_from_collections_list urlopen_collection depth collections w
       = (Val (None, ids, valid), w2) /\
     reconcile urlopen_file ids
       {| sd_collections := Some valid;
          sd_plugins := match save_file w with
                        | Some sd => sd_plugins sd
                        | None => None
                        end |} w2
       = (Val (ids', old,
               {| sd_collections := Some valid;
                  sd_plugins := match save_file w with
                                | Some sd => sd_plugins sd
                                | None => None
                                end |}), w3) /\
     get_plugins_info urlopen_file ids' w3 = (Val (None, plugins_info), w4) /\
     (exists evs, between w w4 evs /\ Forall is_request evs) /\
     let lres := download_loop g_iLimitDownloads urlretrieve sched fuel 0
                   (init_output_dir ir) old plugins_info 0
                   {| sd_collections := Some valid; sd_plugins := Some ∅ |} w4 in
     snd res = snd lres /\
     fst res = match fst lres with
               | Val n => Val (if n =? 0 then Done else GivenUp)
               | Exn e => Exn e
               | Diverge => Diverge
               end).
Proof.
  intros res.
  assert (Eres : res = main g_iLimitDownloads urlopen_collection urlopen_file
                         urlretrieve sched depth fuel ir w) by done.
  clearbody res. unfold main in Eres.
  destruct (negb _).
  { subst res. left. exists []. split; [apply between_refl|].
    split; [apply Forall_nil_2|]. by split. }
  unfold bind at 1 in Eres. unfold load_saved_data at 1 in Eres.
  cbn beta iota in Eres.
  remember (match save_file w with
            | Some sd => sd
            | None => {| sd_collections := None; sd_plugins := None |}
            end) as sd eqn:Esd.
  assert (Hsd : sd_plugins sd = match save_file w with
                                | Some sd => sd_plugins sd
                                | None => None
                                end).
  { subst sd. by destruct (save_file w). }
  remember (match sd_collections sd with
            | Some saved =>
                match init_collections_id_list ir with
                | [] => saved
                | _ :: _ => list_set (init_collections_id_list ir ++ saved)
                end
            | None => init_collections_id_list ir
            end) as collections eqn:Ecoll.
  assert (Hmerged : collections = merged_collections ir (save_file w)).
  { subst collections sd. unfold merged_collections. by destruct (save_file w). }
  clear Ecoll Esd. destruct collections as [|c cs].
  { subst res. left. exists []. split; [apply between_refl|].
    split; [apply Forall_nil_2|]. by split. }
  unfold bind at 1 in Eres.
  destruct (quiet_get_plugins_id_from_collections_list urlopen_collection depth
              (c :: cs) w) as (evs1 & Hb1 & Hr1).
  destruct (get_plugins_id_from_collections_list urlopen_collection depth (c :: cs) w)
    as [[[[[e|] ids] valid]|e|] w2] eqn:Hres; cbn [snd] in Hb1;
    try (subst res; left; exists evs1; split; [done|]; split; [done|]; by split).
  unfold bind at 1 in Eres.
  destruct (quiet_reconcile urlopen_file ids
              {| sd_collections := Some valid; sd_plugins := sd_plugins sd |} w2)
    as (evs2 & Hb2 & Hr2).
  destruct (reconcile urlopen_file ids _ w2)
    as [[[[ids' old] sd']|e|] w3] eqn:Hrec; cbn [snd] in Hb2;
    try (subst res; left; exists (evs1 ++ evs2);
         split; [by eapply between_trans|];
         split; [by apply Forall_app|]; by split).
  destruct (reconcile_returns _ _ _ _ _ _ _ _ Hrec) as [-> _].
  cbn [sd_collections] in Eres.
  unfold bind at 1 in Eres.
  destruct (quiet_get_plugins_info urlopen_file ids' w3) as (evs3 & Hb3 & Hr3).
  destruct (get_plugins_info urlopen_file ids' w3)
    as [[[[e|] plugins_info]|e|] w4] eqn:Hinfo; cbn [snd] in Hb3;
    try (subst res; left; exists ((evs1 ++ evs2) ++ evs3);
         split; [eapply between_trans; [by eapply between_trans | done]|];
         split; [apply Forall_app; split; [by apply Forall_app | done]|]; by split).
  right. exists (c :: cs), ids, valid, w2, ids', old, w3, plugins_info, w4.
  rewrite <- Hsd. split_and!; try done.
  - exists ((evs1 ++ evs2) ++ evs3). split.
    + eapply between_trans; [by eapply between_trans | done].
    + apply Forall_app; split; [by apply Forall_app | done].
  - subst res. unfold bind.
    by destruct (download_loop _ _ _ _ _ _ _ _ _ _ _) as [[n|e|] w5].
Qed.

Section LoopShape.

Variable g_iLimitDownloads : nat.
Variable urlretrieve : nat -> nat -> retrieve_result.
Variable sched : nat -> nat -> list nat.
Variable output_dir : string.
Variable old_plugins : gmap string plugin_meta.

Local Abbreviation retry :=
  (download_loop g_iLimitDownloads urlretrieve sched).

(** The retry loop, batch by batch: what it has written when it stops,
    and which sequences of batches lead to which returned count. *)
Lemma download_loop_shape : forall fuel attempt plugins_info nfail sd m w,
  sd_plugins sd = Some m -> nfail <= 5 ->
  let res := retry fuel attempt output_dir old_plugins plugins_info nfail sd w in
  exists evs,
    trace (snd res) = trace w ++ evs /\
    (evs = [] \/ batches evs <> []) /\
    save_file (snd res) =
      match evs with
      | [] => save_file w
      | _ :: _ => Some {| sd_collections := sd_collections sd;
                          sd_plugins := Some (merged_succeed m (batches evs)) |}
      end /\
    forall n, fst res = Val n ->
      (n = nfail + length (batches evs) /\ Forall failing (batches evs) /\
       ((plugins_info = [] /\ evs = []) \/ n = 5)) \/
      (n = 0 /\ exists pre b, batches evs = pre ++ [b] /\
                              Forall failing pre /\ clean b).
Proof.
  induction fuel as [|fuel IH]; intros attempt plugins_info nfail sd m w Hm Hn res.
  { exists []. subst res. simpl. rewrite app_nil_r.
    split_and!; [done | by left | done |]. discriminate. }
  destruct plugins_info as [|p0 ps].
  { exists []. subst res. simpl. rewrite app_nil_r.
    split_and!; [done | by left | done |].
    intros n [= <-]. left. split_and!; [lia | constructor | by left]. }
  assert (Eres : res = retry (S fuel) attempt output_dir old_plugins (p0 :: ps)
                         nfail sd w) by done.
  clearbody res. cbn [download_loop] in Eres.
  destruct (Nat.ltb_spec nfail 5) as [Hlt|Hge].
  2:{ exists []. subst res. simpl. rewrite app_nil_r.
      split_and!; [done | by left | done |].
      intros n [= <-]. left. split_and!; [lia | constructor | right; lia]. }
  destruct (download_plugins_concurrently _ _ _ _ _ _)
    as [[error fail] succeed_temp] eqn:Hbatch.
  apply batch_error_counts_fail in Hbatch.
  unfold bind at 1 in Eres. cbn [emit] in Eres.
  unfold bind at 1 in Eres. unfold update_plugins in Eres. rewrite Hm in Eres.
  cbn [ret] in Eres.
  unfold bind at 1 in Eres. cbn [write_save_file] in Eres.
  set (sd1 := {| sd_collections := sd_collections sd;
                 sd_plugins := Some (succeed_temp ∪ m) |}) in *.
  set (w2 := {| const_data_file := _; const_data_collection := _;
                save_file := Some sd1; trace := _ |}) in *.
  set (nfail' := if 0 <? error then S nfail else 0) in *.
  assert (Hpos' : 0 < error -> nfail' = S nfail).
  { intros Hpos. unfold nfail'. by destruct (Nat.ltb_spec 0 error); [|lia]. }
  assert (Hzero' : error = 0 -> nfail' = 0).
  { by intros ->. }
  assert (Hn' : nfail' <= 5).
  { unfold nfail'. destruct (0 <? error); lia. }
  clearbody nfail'.
  destruct (IH (S attempt) fail nfail' sd1 (succeed_temp ∪ m) w2 eq_refl Hn')
    as (evs' & Htrace & _ & Hfile & Hret).
  assert (Hstop : error = 0 -> evs' = [] /\ fail = [] /\
            forall n, fst (retry fuel (S attempt) output_dir old_plugins fail
                             nfail' sd1 w2) = Val n -> n = 0).
  { intros He. assert (fail = []) as ->.
    { destruct fail; [done | simpl in Hbatch; lia]. }
    rewrite (Hzero' He) in *.
    destruct (download_loop_nil g_iLimitDownloads urlretrieve sched output_dir
                old_plugins fuel (S attempt) 0 sd1 w2) as (r & Hr & Hv).
    rewrite Hr in Htrace |- *. cbn [fst snd] in *. split_and!; [|done|].
    - apply (f_equal length) in Htrace. rewrite length_app in Htrace.
      destruct evs'; [done | simpl in Htrace; lia].
    - intros n ->. destruct fuel; [|by injection (Hv (Nat.lt_0_succ _))].
      simpl in Hr. by injection Hr. }
  subst res.
  exists (EvBatch error fail succeed_temp :: EvWrite sd1 :: evs').
  split_and!.
  - rewrite Htrace. subst w2. cbn [trace]. by rewrite <- !app_assoc.
  - right. by rewrite batches_batch_write.
  - rewrite Hfile. rewrite batches_batch_write. unfold merged_succeed. cbn [foldl snd].
    destruct evs'; [by subst w2 | done].
  - intros n Hres. rewrite batches_batch_write. cbn [length].
    destruct (Nat.ltb_spec 0 error) as [Hpos|Hzero].
    + specialize (Hpos' Hpos). subst nfail'.
      destruct (Hret n Hres) as [(-> & Hall & Hexit) | (-> & pre & b & Hbs & Hpre & Hb)].
      * left. split_and!; [lia | by constructor |].
        right. destruct Hexit as [[-> _] | ?]; [simpl in Hbatch; lia | lia].
      * right. split; [done|]. exists ((error, fail, succeed_temp) :: pre), b.
        rewrite Hbs. split_and!; [done | by constructor | done].
    + assert (error = 0) as He by lia.
      destruct (Hstop He) as (-> & -> & Hzero0).
      right. split; [by apply Hzero0|].
      exists [], (error, [], succeed_temp). by split_and!.
Qed.

End LoopShape.

Lemma elem_of_dom_merged_succeed bs : forall m id,
  id ∈ dom (merged_succeed m bs) <->
  id ∈ dom m \/ exists b, b ∈ bs /\ id ∈ dom (snd b).
Proof.
  unfold merged_succeed. induction bs as [|b bs IH]; intros m id; simpl.
  - split; [by left|]. intros [? | (b & Hb%elem_of_nil & _)]; done.
  - rewrite IH, dom_union, elem_of_union. split.
    + intros [[Hb | Hm] | (b' & Hb' & Hid)].
      * right. exists b. split; [by left | done].
      * by left.
      * right. exists b'. split; [by right | done].
    + intros [Hm | (b' & [-> | Hb']%elem_of_cons & Hid)].
      * left. by right.
      * left. by left.
      * right. eauto.
Qed.

(** How a run ends, by its batches. *)
Lemma main_outcome g_iLimitDownloads urlopen_collection urlopen_file urlretrieve
    sched depth fuel ir w :
  let res := main g_iLimitDownloads urlopen_collection urlopen_file urlretrieve
               sched depth fuel ir w in
  let bs := batches (drop (length (trace w)) (trace (snd res))) in
  (fst res <> Val Done /\ fst res <> Val GivenUp /\ bs = [] /\
   save_file (snd res) = save_file w) \/
  (exists ids valid w2,
     get_plugins_id_from_collections_list urlopen_collection depth
       (merged_collections ir (save_file w)) w
       = (Val (None, ids, valid), w2) /\
     (bs = [] -> save_file (snd res) = save_file w) /\
     (bs <> [] ->
      save_file (snd res) =
        Some {| sd_collections := Some valid;
                sd_plugins := Some (merged_succeed ∅ bs) |}) /\
     (fst res = Val GivenUp -> length bs = 5 /\ Forall failing bs) /\
     (fst res = Val Done ->
      bs = [] \/ exists pre b, bs = pre ++ [b] /\ Forall failing pre /\ clean b)).
Proof.
  intros res bs.
  destruct (main_stages g_iLimitDownloads urlopen_collection urlopen_file
              urlretrieve sched depth fuel ir w)
    as [(evs & [Ht Hf] & Hreq & Hnd & Hng)
       | (collections & ids & valid & w2 & ids' & old & w3 & plugins_info & w4 &
          -> & Hres & _ & _ & (evs0 & [Ht0 Hf0] & Hreq0) & Hloop)].
  - left. fold res in Ht, Hf, Hnd, Hng. subst bs.
    rewrite Ht, drop_app_length, (requests_no_batches _ Hreq).
    split_and!; try done.
    rewrite Hf. unfold file_after. by rewrite (requests_no_writes _ Hreq).
  - right. exists ids, valid, w2. split; [done|].
    fold res in Hloop. cbv zeta in Hloop. destruct Hloop as [Hsnd Hfst].
    destruct (download_loop_shape g_iLimitDownloads urlretrieve sched
                (init_output_dir ir) old fuel 0 plugins_info 0
                {| sd_collections := Some valid; sd_plugins := Some ∅ |} ∅ w4
                eq_refl (Nat.le_0_l _))
      as (evsL & HtL & Hne & HfL & Hret).
    rewrite <- Hsnd in HtL, HfL.
    assert (Hw4 : save_file w4 = save_file w).
    { rewrite Hf0. unfold file_after. by rewrite (requests_no_writes _ Hreq0). }
    assert (Hbs : bs = batches evsL).
    { subst bs. rewrite HtL, Ht0, <- app_assoc, drop_app_length, batches_app.
      by rewrite (requests_no_batches _ Hreq0). }
    rewrite Hbs. cbn [sd_collections] in HfL. split_and!.
    + intros Hnil. destruct Hne as [-> | ?]; [|done]. by rewrite HfL.
    + intros Hnn. rewrite HfL. destruct evsL; [done | done].
    + intros Hg. rewrite Hg in Hfst.
      destruct (fst (download_loop _ _ _ _ _ _ _ _ _ _ _)) as [n|e|] eqn:Hn;
        [|done..].
      destruct (Hret n eq_refl)
        as [(-> & Hall & Hexit) | (-> & _)]; [|done].
      split; [|done]. destruct Hexit as [[_ ->] | ?]; [done | lia].
    + intros Hd. rewrite Hd in Hfst.
      destruct (fst (download_loop _ _ _ _ _ _ _ _ _ _ _)) as [n|e|] eqn:Hn;
        [|done..].
      destruct (Hret n eq_refl) as [(-> & Hall & Hexit) | (-> & Hshape)].
      * left. destruct (batches evsL); [done | done].
      * by right.
Qed.

(** The batches of the retry loop, one by one: each is what
    [download_plugins_concurrently] returns for the records the attempt was
    given. *)
Lemma download_loop_inputs g_iLimitDownloads urlretrieve sched output_dir
    old_plugins : forall fuel attempt plugins_info nfail sd m w,
  sd_plugins sd = Some m ->
  exists evs,
    trace (snd (download_loop g_iLimitDownloads urlretrieve sched fuel attempt
                  output_dir old_plugins plugins_info nfail sd w))
      = trace w ++ evs /\
    forall j b, batches evs !! j = Some b ->
      b = download_plugins_concurrently g_iLimitDownloads output_dir old_plugins
            (urlretrieve (attempt + j)) (sched (attempt + j))
            (retry_input g_iLimitDownloads output_dir old_plugins urlretrieve
               sched attempt plugins_info j).
Proof.
  induction fuel as [|fuel IH]; intros attempt plugins_info nfail sd m w Hm.
  { exists []. simpl. by rewrite app_nil_r. }
  destruct plugins_info as [|p0 ps].
  { exists []. simpl. by rewrite app_nil_r. }
  cbn [download_loop]. destruct (nfail <? 5).
  2:{ exists []. simpl. by rewrite app_nil_r. }
  destruct (download_plugins_concurrently _ _ _ _ _ _)
    as [[error fail] succeed_temp] eqn:Hbatch.
  unfold bind at 1. cbn [emit].
  unfold bind at 1. unfold update_plugins. rewrite Hm. cbn [ret].
  unfold bind at 1. cbn [write_save_file].
  set (sd1 := {| sd_collections := sd_collections sd;
                 sd_plugins := Some (succeed_temp ∪ m) |}).
  set (w2 := {| const_data_file := _; const_data_collection := _;
                save_file := Some sd1; trace := _ |}).
  destruct (IH (S attempt) fail (if 0 <? error then S nfail else 0) sd1
              (succeed_temp ∪ m) w2 eq_refl) as (evs' & Ht & Hbs).
  exists (EvBatch error fail succeed_temp :: EvWrite sd1 :: evs'). split.
  - rewrite Ht. subst w2. cbn [trace]. by rewrite <- !app_assoc.
  - rewrite batches_batch_write. intros [|j] b Hb.
    + injection Hb as <-. by rewrite Nat.add_0_r.
    + cbn [lookup list_lookup] in Hb. apply Hbs in Hb.
      replace (attempt + S j) with (S attempt + j) by lia.
      cbn [retry_input]. by rewrite Hbatch.
Qed.

Lemma previous_plugins_reconciled urlopen_file ids valid file old sd' w2 ids' w3 :
  reconcile urlopen_file ids
    {| sd_collections := Some valid;
       sd_plugins := match file with
                     | Some sd => sd_plugins sd
                     | None => None
                     end |} w2
  = (Val (ids', old, sd'), w3) ->
  old = previous_plugins file.
Proof.
  intros [_ Hold]%reconcile_returns. unfold previous_plugins.
  cbn [sd_plugins] in Hold.
  destruct Hold as [(Hnone & -> & _) | [Hsome _]].
  - destruct file as [sd|]; [by rewrite Hnone | done].
  - destruct file as [sd|]; [by rewrite Hsome | done].
Qed.

(** C5: a run with five download attempts that each end with at least one
    failure returns normally with the give-up message, has no sixth
    attempt, and leaves a state file whose plugin map holds every plugin
    that succeeded in any of the attempts.  The attempts are those of the
    code: the first is given the records of the file-details lookup, each
    later one the [fail] list of the attempt before it; and a plugin
    succeeded in an attempt when a thread was started for it and found it
    up to date or downloaded it ([urlretrieve] returned). *)
Theorem five_failures_give_up (g_iLimitDownloads : nat)
    (urlopen_collection : list (string * string) -> http_result (list collection))
    (urlopen_file : list (string * string) -> http_result (list plugin))
    (urlretrieve : nat -> nat -> retrieve_result) (sched : nat -> nat -> list nat)
    (depth fuel : nat) (ir : init_result) (w : world) :
  5 < fuel ->
  let res := main g_iLimitDownloads urlopen_collection urlopen_file
               urlretrieve sched depth fuel ir w in
  let bs := batches (drop (length (trace w)) (trace (snd res))) in
  5 <= length bs -> Forall failing (take 5 bs) ->
  fst res = Val GivenUp /\
  length bs = 5 /\
  exists sd m,
    save_file (snd res) = Some sd /\ sd_plugins sd = Some m /\
    (forall b, b ∈ bs -> dom (snd b) ⊆ dom m) /\
    exists ids w3 w4 plugins_info,
      get_plugins_info urlopen_file ids w3 = (Val (None, plugins_info), w4) /\
      let old := previous_plugins (save_file w) in
      let input := retry_input g_iLimitDownloads (init_output_dir ir) old
                     urlretrieve sched 0 plugins_info in
      forall j, j < 5 ->
        bs !! j = Some (download_plugins_concurrently g_iLimitDownloads
                          (init_output_dir ir) old (urlretrieve j) (sched j)
                          (input j)) /\
        forall i id,
          i ∈ started_of (d_events (download_run g_iLimitDownloads
                                      (init_output_dir ir) old (urlretrieve j)
                                      (sched j) (input j))) ->
          success_id (verdict_at old (urlretrieve j) (input j) i) = Some id ->
          id ∈ dom m.
Proof.
  intros Hfuel res bs H5 Hall.
  destruct (main_run g_iLimitDownloads urlopen_collection urlopen_file
              urlretrieve sched depth fuel ir w)
    as (evs & [Ht Hf] & Hfl & Hlen & Hsaved & Hend).
  fold res in Ht, Hf, Hsaved, Hend.
  assert (Hbs : bs = batches evs).
  { unfold bs. by rewrite Ht, drop_app_length. }
  rewrite Hbs in H5, Hall |- *.
  rewrite firstn_all2 in Hall by lia.
  assert (Hne : batches evs <> []).
  { intros Hnil. rewrite Hnil in H5. simpl in H5. lia. }
  destruct (Hsaved Hne) as (sd & m & Hfile & Hm & Hdom).
  split_and!; [by apply Hend | lia |].
  exists sd, m. split_and!; [done..|].
  destruct (main_stages g_iLimitDownloads urlopen_collection urlopen_file
              urlretrieve sched depth fuel ir w)
    as [(evs0 & [Ht0 _] & Hreq & _)
       | (collections & ids & valid & w2 & ids' & old & w3 & plugins_info & w4 &
          _ & _ & Hrec & Hinfo & (evs0 & [Ht0 _] & Hreq0) & Hloop)].
  { fold res in Ht0. rewrite Ht in Ht0. apply app_inv_head in Ht0. subst evs0.
    by rewrite (requests_no_batches _ Hreq) in Hne. }
  fold res in Hloop. cbv zeta in Hloop. destruct Hloop as [Hsnd _].
  apply previous_plugins_reconciled in Hrec. subst old.
  destruct (download_loop_inputs g_iLimitDownloads urlretrieve sched
              (init_output_dir ir) (previous_plugins (save_file w)) fuel 0
              plugins_info 0
              {| sd_collections := Some valid; sd_plugins := Some ∅ |} ∅ w4 eq_refl)
    as (evsL & HtL & HbL).
  rewrite <- Hsnd, Ht, Ht0, <- app_assoc in HtL. apply app_inv_head in HtL.
  assert (HbsL : batches evs = batches evsL).
  { by rewrite HtL, batches_app, (requests_no_batches _ Hreq0). }
  exists ids', w3, w4, plugins_info. split; [done|].
  intros old input j Hj.
  destruct (lookup_lt_is_Some_2 (batches evs) j) as [b Hb]; [lia|].
  assert (Hbj : b = download_plugins_concurrently g_iLimitDownloads
                      (init_output_dir ir) old (urlretrieve j) (sched j) (input j)).
  { rewrite HbsL in Hb. by apply HbL in Hb. }
  split; [by rewrite Hb, Hbj|].
  intros i id Hi Hid.
  apply (Hdom b); [by eapply list_elem_of_lookup_2|].
  rewrite Hbj. unfold download_plugins_concurrently. cbn [snd].
  apply elem_of_dom.
  destruct (download_run_verdicts g_iLimitDownloads (init_output_dir ir) old
              (urlretrieve j) (sched j) (input j))
    as (k & _ & Hst & _ & _ & _ & _ & _ & Hsd).
  apply Hsd. exists i. split; [|done].
  rewrite Hst, elem_of_seq in Hi. lia.
Qed.

Lemma five_failures_give_up_witness :
  let res := main 0 (catalog_server cat_pair) (file_server files_table)
               first_only (fun _ => sched_eager) 6 6 (init_ok ["1"])
               (fresh_world None) in
  let bs := batches (drop (length (trace (fresh_world None))) (trace (snd res))) in
  fst res = Val GivenUp /\
  length bs = 5 /\
  exists sd m,
    save_file (snd res) = Some sd /\ sd_plugins sd = Some m /\
    (forall b, b ∈ bs -> dom (snd b) ⊆ dom m) /\
    exists ids w3 w4 plugins_info,
      get_plugins_info (file_server files_table) ids w3
      = (Val (None, plugins_info), w4) /\
      let old := previous_plugins (save_file (fresh_world None)) in
      let input := retry_input 0 (init_output_dir (init_ok ["1"])) old
                     first_only (fun _ => sched_eager) 0 plugins_info in
      forall j, j < 5 ->
        bs !! j = Some (download_plugins_concurrently 0
                          (init_output_dir (init_ok ["1"])) old (first_only j)
                          sched_eager (input j)) /\
        forall i id,
          i ∈ started_of (d_events (download_run 0
                                      (init_output_dir (init_ok ["1"])) old
                                      (first_only j) sched_eager (input j))) ->
          success_id (verdict_at old (first_only j) (input j) i) = Some id ->
          id ∈ dom m.
Proof.
  apply (five_failures_give_up 0 (catalog_server cat_pair) (file_server files_table)
           first_only (fun _ => sched_eager) 6 6 (init_ok ["1"]) (fresh_world None)).
  - lia.
  - vm_compute. lia.
  - vm_compute. repeat constructor.
Defined.

(** X5: no run performs more than five download batches, whatever the
    catalog, the network and the interleavings do. *)
Theorem at_most_five_batches (g_iLimitDownloads : nat)
    (urlopen_collection : list (string * string) -> http_result (list collection))
    (urlopen_file : list (string * string) -> http_result (list plugin))
    (urlretrieve : nat -> nat -> retrieve_result) (sched : nat -> nat -> list nat)
    (depth fuel : nat) (ir : init_result) (w : world) :
  let res := main g_iLimitDownloads urlopen_collection urlopen_file
               urlretrieve sched depth fuel ir w in
  length (batches (drop (length (trace w)) (trace (snd res)))) <= 5.
Proof.
  intros res. subst res.
  destruct (main_run g_iLimitDownloads urlopen_collection urlopen_file
              urlretrieve sched depth fuel ir w) as (evs & [Ht _] & _ & Hlen & _).
  by rewrite Ht, drop_app_length.
Qed.

(** X6: a run ends with the give-up message only after exactly five
    batches that each had a failure. *)
Theorem give_up_means_five_failures (g_iLimitDownloads : nat)
    (urlopen_collection : list (string * string) -> http_result (list collection))
    (urlopen_file : list (string * string) -> http_result (list plugin))
    (urlretrieve : nat -> nat -> retrieve_result) (sched : nat -> nat -> list nat)
    (depth fuel : nat) (ir : init_result) (w : world) :
  let res := main g_iLimitDownloads urlopen_collection urlopen_file
               urlretrieve sched depth fuel ir w in
  let bs := batches (drop (length (trace w)) (trace (snd res))) in
  fst res = Val GivenUp -> length bs = 5 /\ Forall failing bs.
Proof.
  intros res bs Hg.
  destruct (main_outcome g_iLimitDownloads urlopen_collection urlopen_file
              urlretrieve sched depth fuel ir w)
    as [(_ & Hng & _) | (ids & valid & w2 & _ & _ & _ & Hgive & _)].
  - by destruct Hng.
  - by apply Hgive.
Qed.

Lemma give_up_means_five_failures_witness :
  let res := main 0 (catalog_server cat_pair) (file_server files_table)
               first_only (fun _ => sched_eager) 6 6 (init_ok ["1"])
               (fresh_world None) in
  let bs := batches (drop (length (trace (fresh_world None))) (trace (snd res))) in
  length bs = 5 /\ Forall failing bs.
Proof.
  apply (give_up_means_five_failures 0 (catalog_server cat_pair)
           (file_server files_table) first_only (fun _ => sched_eager) 6 6
           (init_ok ["1"]) (fresh_world None)).
  by vm_compute.
Defined.

(** X7: a run ends with the success message only when it had nothing to
    download, or when its last batch had no failure and every batch before
    it had one. *)
Theorem done_means_last_batch_clean (g_iLimitDownloads : nat)
    (urlopen_collection : list (string * string) -> http_result (list collection))
    (urlopen_file : list (string * string) -> http_result (list plugin))
    (urlretrieve : nat -> nat -> retrieve_result) (sched : nat -> nat -> list nat)
    (depth fuel : nat) (ir : init_result) (w : world) :
  let res := main g_iLimitDownloads urlopen_collection urlopen_file
               urlretrieve sched depth fuel ir w in
  let bs := batches (drop (length (trace w)) (trace (snd res))) in
  fst res = Val Done ->
  bs = [] \/ exists pre b, bs = pre ++ [b] /\ Forall failing pre /\ clean b.
Proof.
  intros res bs Hd.
  destruct (main_outcome g_iLimitDownloads urlopen_collection urlopen_file
              urlretrieve sched depth fuel ir w)
    as [(Hnd & _) | (ids & valid & w2 & _ & _ & _ & _ & Hdone)].
  - by destruct Hnd.
  - by apply Hdone.
Qed.

Lemma done_means_last_batch_clean_witness :
  let res := main 0 (catalog_server cat_pair) (file_server files_table)
               (fun attempt i => match attempt with
                                 | 0 => first_only 0 i
                                 | _ => Retrieved
                                 end)
               (fun _ => sched_eager) 6 6 (init_ok ["1"]) (fresh_world None) in
  let bs := batches (drop (length (trace (fresh_world None))) (trace (snd res))) in
  bs = [] \/ exists pre b, bs = pre ++ [b] /\ Forall failing pre /\ clean b.
Proof.
  apply (done_means_last_batch_clean 0 (catalog_server cat_pair)
           (file_server files_table)
           (fun attempt i => match attempt with
                             | 0 => first_only 0 i
                             | _ => Retrieved
                             end)
           (fun _ => sched_eager) 6 6 (init_ok ["1"]) (fresh_world None)).
  by vm_compute.
Defined.

(** X8: after a run with at least one batch, the state file holds the
    valid collections the resolution of the merged collection ids returned
    and a plugin map whose keys are exactly the ids some batch of the run
    recorded as succeeded; whatever else the previous state file listed is
    gone. *)
Theorem state_file_after_batches (g_iLimitDownloads : nat)
    (urlopen_collection : list (string * string) -> http_result (list collection))
    (urlopen_file : list (string * string) -> http_result (list plugin))
    (urlretrieve : nat -> nat -> retrieve_result) (sched : nat -> nat -> list nat)
    (depth fuel : nat) (ir : init_result) (w : world) :
  let res := main g_iLimitDownloads urlopen_collection urlopen_file
               urlretrieve sched depth fuel ir w in
  let bs := batches (drop (length (trace w)) (trace (snd res))) in
  bs <> [] ->
  exists ids valid w2 m,
    get_plugins_id_from_collections_list urlopen_collection depth
      (merged_collections ir (save_file w)) w = (Val (None, ids, valid), w2) /\
    save_file (snd res)
      = Some {| sd_collections := Some valid; sd_plugins := Some m |} /\
    m = merged_succeed ∅ bs /\
    forall id, id ∈ dom m <-> exists b, b ∈ bs /\ id ∈ dom (snd b).
Proof.
  intros res bs Hne.
  destruct (main_outcome g_iLimitDownloads urlopen_collection urlopen_file
              urlretrieve sched depth fuel ir w)
    as [(_ & _ & Hnil & _) | (ids & valid & w2 & Hres & _ & Hfile & _)].
  - by destruct Hne.
  - exists ids, valid, w2, (merged_succeed ∅ bs).
    split_and!; [done | by apply Hfile | done |].
    intros id. rewrite elem_of_dom_merged_succeed, dom_empty, elem_of_empty. tauto.
Qed.

Lemma state_file_after_batches_witness :
  let res := main 0 (catalog_server cat_single) (file_server files_table)
               always_retrieved (fun _ => sched_eager) 6 6 (init_ok ["1"])
               (fresh_world None) in
  let bs := batches (drop (length (trace (fresh_world None)))
                       (trace (snd res))) in
  exists ids valid w2 m,
    get_plugins_id_from_collections_list (catalog_server cat_single) 6
      (merged_collections (init_ok ["1"])
         (save_file (fresh_world None)))
      (fresh_world None) = (Val (None, ids, valid), w2) /\
    save_file (snd res)
      = Some {| sd_collections := Some valid; sd_plugins := Some m |} /\
    m = merged_succeed ∅ bs /\
    forall id, id ∈ dom m <-> exists b, b ∈ bs /\ id ∈ dom (snd b).
Proof.
  apply (state_file_after_batches 0 (catalog_server cat_single)
           (file_server files_table) always_retrieved (fun _ => sched_eager) 6 6
           (init_ok ["1"]) (fresh_world None)).
  intros Hnil. vm_compute in Hnil. discriminate.
Defined.

(** ** The command line *)

Section InitFacts.

Variable getcwd : string.
Variable path_join : string -> string -> string.
Variable abspath : string -> string.
Variable isfile : string -> bool.
Variable path_exists : string -> bool.

(** X9: called as [prog -o dir id...] where the first id is not taken for
    an option, [init] returns the absolute form of [dir] as the output
    directory, the state file inside it, exactly the ids given, and an
    error count of 1 exactly when that directory does not exist. *)
Theorem init_with_output_dir (prog dir : string) (ids : list string) :
  match ids with
  | [] => True
  | id :: _ => looks_like_option id = false
  end ->
  init getcwd path_join abspath isfile path_exists (prog :: "-o" :: dir :: ids) =
  InitReturn
    {| init_error := if path_exists (abspath dir) then 0 else 1;
       init_output_dir := abspath dir;
       init_collections_id_list := ids |}
    (path_join (abspath dir) "addons.lst").
Proof.
  intros Hids. unfold init, getopt. simpl.
  destruct ids as [|id ids]; simpl; [done|]. by rewrite Hids.
Qed.

(** X10: called as [prog id...] with at least one id, the first of which
    is not taken for an option, [init] returns the current directory, the
    state file inside it and exactly the ids given. *)
Theorem init_with_ids_only (prog id : string) (ids : list string) :
  looks_like_option id = false ->
  init getcwd path_join abspath isfile path_exists (prog :: id :: ids) =
  InitReturn
    {| init_error := if path_exists getcwd then 0 else 1;
       init_output_dir := getcwd;
       init_collections_id_list := id :: ids |}
    (path_join getcwd "addons.lst").
Proof.
  intros Hid. unfold init, getopt. simpl. by rewrite Hid.
Qed.

(** X11: called without any argument, [init] exits with status 0 when
    the current directory has no state file, and otherwise returns the
    current directory with no collection id. *)
Theorem init_without_arguments (prog : string) :
  init getcwd path_join abspath isfile path_exists [prog] =
  if isfile (path_join getcwd "addons.lst")
  then InitReturn
         {| init_error := if path_exists getcwd then 0 else 1;
            init_output_dir := getcwd;
            init_collections_id_list := [] |}
         (path_join getcwd "addons.lst")
  else InitExit 0.
Proof.
  unfold init, getopt. simpl. by destruct (isfile _).
Qed.

(** X12: an option letter other than [h] and [o], alone or leading a
    cluster, makes [init] exit with status 2. *)
Theorem init_unknown_option (prog : string) (c : ascii) (more : string)
    (rest : list string) :
  c <> "h"%char -> c <> "o"%char -> c <> "-"%char -> c <> ":"%char ->
  init getcwd path_join abspath isfile path_exists
    (prog :: String "-" (String c more) :: rest) = InitExit 2.
Proof.
  intros Hh Ho Hd Hc. unfold init, getopt.
  assert (Hopt : looks_like_option (String "-" (String c more)) = true) by done.
  assert (Hnot : String.eqb (String "-" (String c more)) "--" = false).
  { apply String.eqb_neq. intros [= -> _]. done. }
  assert (Hshort : short_has_arg c "ho:" = None).
  { simpl. apply Ascii.eqb_neq in Hh, Ho, Hc. by rewrite Hh, Ho, Hc. }
  cbn [length drop]. cbn [getopt_loop]. rewrite Hopt, Hnot.
  destruct (Ascii.eqb_spec c "-") as [->|_]; [done|].
  replace (match c with
           | Ascii b b0 b1 b2 b3 b4 b5 b6 => _
           end) with (@None (list (string * string) * list string)).
  - by destruct rest.
  - destruct c as [[] [] [] [] [] [] [] []]; try done;
      cbn [do_shorts]; by rewrite Hshort.
Qed.

(** X13: the option [-h] never shows the usage: called as [prog -h id...]
    where the first id is not taken for an option, [init] returns normally
    with the current directory, and the first id is not among the
    collection ids it returns. *)
Theorem init_help_is_silent (prog : string) (ids : list string) :
  match ids with
  | [] => True
  | id :: _ => looks_like_option id = false
  end ->
  init getcwd path_join abspath isfile path_exists (prog :: "-h" :: ids) =
  InitReturn
    {| init_error := if path_exists getcwd then 0 else 1;
       init_output_dir := getcwd;
       init_collections_id_list := drop 1 ids |}
    (path_join getcwd "addons.lst").
Proof.
  intros Hids. unfold init, getopt. simpl.
  destruct ids as [|id ids]; simpl; [done|]. by rewrite Hids.
Qed.

End InitFacts.

Lemma init_with_output_dir_witness :
  init "/srv/l4d2" fs_join fs_abspath fs_isfile fs_exists
    ["workshop.py"; "-o"; "addons"; "100"; "200"] =
  InitReturn
    {| init_error := if fs_exists (fs_abspath "addons") then 0 else 1;
       init_output_dir := fs_abspath "addons";
       init_collections_id_list := ["100"; "200"] |}
    (fs_join (fs_abspath "addons") "addons.lst").
Proof.
  apply (init_with_output_dir "/srv/l4d2" fs_join fs_abspath fs_isfile
           fs_exists "workshop.py" "addons" ["100"; "200"]).
  reflexivity.
Defined.

Lemma init_with_ids_only_witness :
  init "/srv/l4d2" fs_join fs_abspath fs_isfile fs_exists
    ["workshop.py"; "100"; "200"] =
  InitReturn
    {| init_error := if fs_exists "/srv/l4d2" then 0 else 1;
       init_output_dir := "/srv/l4d2";
       init_collections_id_list := ["100"; "200"] |}
    (fs_join "/srv/l4d2" "addons.lst").
Proof.
  apply (init_with_ids_only "/srv/l4d2" fs_join fs_abspath fs_isfile
           fs_exists "workshop.py" "100" ["200"]). reflexivity.
Defined.

Lemma init_unknown_option_witness :
  init "/srv/l4d2" fs_join fs_abspath fs_isfile fs_exists
    ["workshop.py"; "-x"; "100"] = InitExit 2.
Proof.
  apply (init_unknown_option "/srv/l4d2" fs_join fs_abspath fs_isfile
           fs_exists "workshop.py" "x" "" ["100"]); discriminate.
Defined.

Lemma init_help_is_silent_witness :
  init "/srv/l4d2" fs_join fs_abspath fs_isfile fs_exists
    ["workshop.py"; "-h"; "100"; "200"] =
  InitReturn
    {| init_error := if fs_exists "/srv/l4d2" then 0 else 1;
       init_output_dir := "/srv/l4d2";
       init_collections_id_list := ["200"] |}
    (fs_join "/srv/l4d2" "addons.lst").
Proof.
  apply (init_help_is_silent "/srv/l4d2" fs_join fs_abspath fs_isfile
           fs_exists "workshop.py" ["100"; "200"]). reflexivity.
Defined.


(** ** Reconciliation and catalog errors *)

Lemma list_set_nil : list_set [] = [].
Proof. unfold list_set. simpl. apply elements_empty. Qed.

Lemma elem_of_list_set l id : id ∈ list_set l <-> id ∈ l.
Proof. unfold list_set. by rewrite elem_of_elements, elem_of_list_to_set. Qed.

(** X15: when no persisted plugin is missing from the resolved ids, the
    reconciliation sends no request and changes nothing: it returns the
    persisted map as it is and the resolved ids without repetition. *)
Theorem reconcile_without_deprecated
    (urlopen_file : list (string * string) -> http_result (list plugin))
    (ids : list string) (sd : saved_data) (old : gmap string plugin_meta)
    (w : world) :
  sd_plugins sd = Some old ->
  (forall id, id ∈ dom old -> id ∈ ids) ->
  exists l,
    reconcile urlopen_file ids sd w = (Val (l, old, sd), w) /\
    NoDup l /\ forall id, id ∈ l <-> id ∈ ids.
Proof.
  intros Hold Hsub. exists (list_set (ids ++ elements (dom old))).
  split_and!.
  - unfold reconcile. rewrite Hold, (plugins_to_remove_none _ _ Hsub), list_set_nil.
    reflexivity.
  - unfold list_set. apply NoDup_elements.
  - intros id. rewrite elem_of_list_set, elem_of_app, elem_of_elements.
    split; [intros [?|?]; auto | by left].
Qed.

Lemma reconcile_without_deprecated_witness :
  exists l,
    reconcile (file_server files_table) ["7"; "9"; "7"] saved_after_sync
      (fresh_world None)
    = (Val (l, <["7" := meta_of (mk_plugin "7" 100)]>
                 (<["9" := meta_of (mk_plugin "9" 100)]> ∅), saved_after_sync),
       fresh_world None) /\
    NoDup l /\ forall id, id ∈ l <-> id ∈ ["7"; "9"; "7"].
Proof.
  apply (reconcile_without_deprecated (file_server files_table) ["7"; "9"; "7"]
           saved_after_sync _ (fresh_world None)).
  - reflexivity.
  - intros id. rewrite !dom_insert_L, dom_empty_L.
    rewrite !elem_of_union, !elem_of_singleton, elem_of_empty.
    intros [-> | [-> | []]]; [by left | right; by left].
Defined.

(** X16: when some persisted plugin is missing from the resolved ids and the
    catalog rejects the request for the details of the missing ones with an
    HTTP error, the run drops the error and carries on: the persisted map
    is kept whole as [old_plugins], the ids looked up next are the resolved
    ids together with every persisted key, the missing ones included, and
    when that lookup is answered the run goes through the retry loop on
    its records. *)
Theorem reconcile_drops_lookup_error (g_iLimitDownloads : nat)
    (urlopen_collection : list (string * string) -> http_result (list collection))
    (urlopen_file : list (string * string) -> http_result (list plugin))
    (urlretrieve : nat -> nat -> retrieve_result) (sched : nat -> nat -> list nat)
    (depth fuel : nat) (ir : init_result) (w : world)
    (sd0 : saved_data) (old : gmap string plugin_meta)
    (ids valid : list string) (w2 : world) (data : dict) (w3 : world) (code : Z) :
  init_error ir = 0 ->
  save_file w = Some sd0 -> sd_plugins sd0 = Some old ->
  merged_collections ir (Some sd0) <> [] ->
  get_plugins_id_from_collections_list urlopen_collection depth
    (merged_collections ir (Some sd0)) w = (Val (None, ids, valid), w2) ->
  plugins_to_remove ids old <> [] ->
  prepare_request EpFile "itemcount" (list_set (plugins_to_remove ids old)) w2
    = (Val data, w3) ->
  urlopen_file (form_fields data) = HTTPError code ->
  let l := list_set (ids ++ elements (dom old)) in
  let sd := {| sd_collections := Some valid; sd_plugins := Some old |} in
  let res := main g_iLimitDownloads urlopen_collection urlopen_file
               urlretrieve sched depth fuel ir w in
  NoDup l /\
  (forall id, id ∈ l <-> id ∈ ids \/ id ∈ dom old) /\
  reconcile urlopen_file ids sd w2 = (Val (l, old, sd), w3) /\
  forall infos w4,
    get_plugins_info urlopen_file l w3 = (Val (None, infos), w4) ->
    let lres := download_loop g_iLimitDownloads urlretrieve sched fuel 0
                  (init_output_dir ir) old infos 0
                  {| sd_collections := Some valid; sd_plugins := Some ∅ |} w4 in
    snd res = snd lres /\
    fst res = match fst lres with
              | Val n => Val (if n =? 0 then Done else GivenUp)
              | Exn e => Exn e
              | Diverge => Diverge
              end.
Proof.
  intros Herr Hfile Hold Hcoll Hres Hdep Hreq Hcode l sd res.
  assert (Hrec : reconcile urlopen_file ids sd w2 = (Val (l, old, sd), w3)).
  { unfold reconcile. cbn [sd sd_plugins].
    apply list_set_nonempty in Hdep. revert Hreq.
    destruct (list_set (plugins_to_remove ids old)) as [|d ds]; [done|].
    intros Hreq. unfold get_plugins_info, bind.
    rewrite Hreq. cbn beta iota. rewrite Hcode. reflexivity. }
  split_and!.
  - unfold l, list_set. apply NoDup_elements.
  - intros id. unfold l. by rewrite elem_of_list_set, elem_of_app, elem_of_elements.
  - exact Hrec.
  - intros infos w4 Hinfo lres.
    assert (Eres : res = main g_iLimitDownloads urlopen_collection urlopen_file
                           urlretrieve sched depth fuel ir w) by done.
    clearbody res. unfold main in Eres. rewrite Herr in Eres.
    cbn [Nat.eqb negb] in Eres.
    unfold bind at 1 in Eres. unfold load_saved_data at 1 in Eres.
    rewrite Hfile in Eres. cbn beta iota in Eres.
    assert (Hm : match sd_collections sd0 with
                 | Some saved =>
                     match init_collections_id_list ir with
                     | [] => saved
                     | _ :: _ => list_set (init_collections_id_list ir ++ saved)
                     end
                 | None => init_collections_id_list ir
                 end = merged_collections ir (Some sd0)) by done.
    rewrite Hm in Eres.
    destruct (merged_collections ir (Some sd0)) as [|c cs]; [done|].
    unfold bind at 1 in Eres. rewrite Hres in Eres. cbn beta iota in Eres.
    rewrite Hold in Eres. fold sd in Eres.
    unfold bind at 1 in Eres. rewrite Hrec in Eres. cbn beta iota in Eres.
    cbn [sd sd_collections] in Eres.
    unfold bind at 1 in Eres. rewrite Hinfo in Eres. cbn beta iota in Eres.
    subst res lres. unfold bind.
    by destruct (download_loop _ _ _ _ _ _ _ _ _ _ _) as [[n|e|] w5].
Qed.

Lemma reconcile_drops_lookup_error_witness :
  let w := fresh_world (Some saved_after_sync) in
  let old := <["7" := meta_of (mk_plugin "7" 100)]>
               (<["9" := meta_of (mk_plugin "9" 100)]>
                  (∅ : gmap string plugin_meta)) in
  let w2 := snd (get_plugins_id_from_collections_list (catalog_server cat_single)
                   7 ["1"] w) in
  let w3 := snd (prepare_request EpFile "itemcount" ["9"] w2) in
  let l := list_set (["7"] ++ elements (dom old)) in
  let sd := {| sd_collections := Some ["1"]; sd_plugins := Some old |} in
  let res := main 0 (catalog_server cat_single) single_lookup_refused
               always_retrieved (fun _ => sched_eager) 7 7 (init_ok []) w in
  NoDup l /\
  (forall id, id ∈ l <-> id ∈ ["7"] \/ id ∈ dom old) /\
  reconcile single_lookup_refused ["7"] sd w2 = (Val (l, old, sd), w3) /\
  forall infos w4,
    get_plugins_info single_lookup_refused l w3 = (Val (None, infos), w4) ->
    let lres := download_loop 0 always_retrieved (fun _ => sched_eager) 7 0
                  (init_output_dir (init_ok [])) old infos 0
                  {| sd_collections := Some ["1"]; sd_plugins := Some ∅ |} w4 in
    snd res = snd lres /\
    fst res = match fst lres with
              | Val n => Val (if n =? 0 then Done else GivenUp)
              | Exn e => Exn e
              | Diverge => Diverge
              end.
Proof.
  apply (reconcile_drops_lookup_error 0 (catalog_server cat_single)
           single_lookup_refused always_retrieved (fun _ => sched_eager) 7 7
           (init_ok []) (fresh_world (Some saved_after_sync)) saved_after_sync
           (<["7" := meta_of (mk_plugin "7" 100)]>
              (<["9" := meta_of (mk_plugin "9" 100)]> ∅))
           ["7"] ["1"]
           (snd (get_plugins_id_from_collections_list (catalog_server cat_single)
                   7 ["1"] (fresh_world (Some saved_after_sync))))
           (set_publishedfileids 0 ["9"]
              (dict_set "itemcount" (VInt 1) const_data_file0))
           (snd (prepare_request EpFile "itemcount" ["9"]
                   (snd (get_plugins_id_from_collections_list
                           (catalog_server cat_single) 7 ["1"]
                           (fresh_world (Some saved_after_sync))))))
           503%Z).
  - reflexivity.
  - reflexivity.
  - reflexivity.
  - by vm_compute.
  - by vm_compute.
  - by vm_compute.
  - by vm_compute.
  - by vm_compute.
Defined.

(** X17: when the catalog rejects the collection request, or cannot be reached
    for a reason given as a string, the run ends without a message, without
    any download batch and without writing the state file. *)
Theorem main_aborts_when_resolution_fails (g_iLimitDownloads : nat)
    (urlopen_collection : list (string * string) -> http_result (list collection))
    (urlopen_file : list (string * string) -> http_result (list plugin))
    (urlretrieve : nat -> nat -> retrieve_result) (sched : nat -> nat -> list nat)
    (depth fuel : nat) (ir : init_result) (w : world) :
  (forall fields,
     (exists code, urlopen_collection fields = HTTPError code) \/
     (exists reason, urlopen_collection fields = URLError (ReasonStr reason))) ->
  0 < depth ->
  let res := main g_iLimitDownloads urlopen_collection urlopen_file
               urlretrieve sched depth fuel ir w in
  fst res = Val Aborted /\
  save_file (snd res) = save_file w /\
  batches (drop (length (trace w)) (trace (snd res))) = [] /\
  payloads EpFile (drop (length (trace w)) (trace (snd res))) = [].
Proof.
  intros Hfail Hdepth res. destruct depth as [|depth]; [lia|].
  assert (Eres : res = main g_iLimitDownloads urlopen_collection urlopen_file
                         urlretrieve sched (S depth) fuel ir w) by done.
  clearbody res. unfold main in Eres. destruct (negb _).
  { subst res. cbn [ret fst snd].
    by rewrite (drop_ge (trace w) (length (trace w)) (le_n _)). }
  unfold bind at 1 in Eres. unfold load_saved_data at 1 in Eres.
  cbn beta iota in Eres.
  destruct (match sd_collections _ with Some _ => _ | None => _ end) as [|c cs].
  { subst res. cbn [ret fst snd].
    by rewrite (drop_ge (trace w) (length (trace w)) (le_n _)). }
  cbn [get_plugins_id_from_collections_list] in Eres.
  unfold prepare_request, bind in Eres. simpl in Eres.
  match type of Eres with
  | context [urlopen_collection ?f] =>
      destruct (Hfail f) as [[code Hf] | [reason Hf]]; rewrite Hf in Eres
  end; simpl in Eres; subst res; cbn [ret fst snd trace save_file];
    by rewrite drop_app_length.
Qed.

Lemma main_aborts_when_resolution_fails_witness :
  let res := main 0 (fun _ => HTTPError 503) (file_server files_table)
               always_retrieved (fun _ => sched_eager) 3 3 (init_ok ["1"])
               (fresh_world (Some saved_after_sync)) in
  fst res = Val Aborted /\
  save_file (snd res) = save_file (fresh_world (Some saved_after_sync)) /\
  batches (drop (length (trace (fresh_world (Some saved_after_sync))))
             (trace (snd res))) = [] /\
  payloads EpFile (drop (length (trace (fresh_world (Some saved_after_sync))))
                     (trace (snd res))) = [].
Proof.
  apply (main_aborts_when_resolution_fails 0 (fun _ => HTTPError 503)
           (file_server files_table) always_retrieved (fun _ => sched_eager) 3 3
           (init_ok ["1"]) (fresh_world (Some saved_after_sync))).
  - intros _. left. by exists 503%Z.
  - lia.
Defined.

(** X18: when the catalog cannot be reached and the reason of the error is an
    exception object rather than a string, the handler's own message
    raises: a run that has collection ids to resolve ends with
    [TypeError]. *)
Theorem main_raises_on_unreachable_catalog (g_iLimitDownloads : nat)
    (urlopen_collection : list (string * string) -> http_result (list collection))
    (urlopen_file : list (string * string) -> http_result (list plugin))
    (urlretrieve : nat -> nat -> retrieve_result) (sched : nat -> nat -> list nat)
    (depth fuel : nat) (ir : init_result) (w : world) :
  (forall fields, urlopen_collection fields = URLError ReasonObj) ->
  0 < depth -> init_error ir = 0 ->
  merged_collections ir (save_file w) <> [] ->
  let res := main g_iLimitDownloads urlopen_collection urlopen_file
               urlretrieve sched depth fuel ir w in
  fst res = Exn TypeError /\ save_file (snd res) = save_file w.
Proof.
  intros Hfail Hdepth Herr Hcoll res. destruct depth as [|depth]; [lia|].
  assert (Eres : res = main g_iLimitDownloads urlopen_collection urlopen_file
                         urlretrieve sched (S depth) fuel ir w) by done.
  clearbody res. unfold main in Eres. rewrite Herr in Eres.
  cbn [Nat.eqb negb] in Eres.
  unfold bind at 1 in Eres. unfold load_saved_data at 1 in Eres.
  cbn beta iota in Eres.
  assert (Hm : match sd_collections
                       match save_file w with
                       | Some sd => sd
                       | None => {| sd_collections := None; sd_plugins := None |}
                       end with
               | Some saved =>
                   match init_collections_id_list ir with
                   | [] => saved
                   | _ :: _ => list_set (init_collections_id_list ir ++ saved)
                   end
               | None => init_collections_id_list ir
               end = merged_collections ir (save_file w)).
  { unfold merged_collections. by destruct (save_file w). }
  rewrite Hm in Eres.
  destruct (merged_collections ir (save_file w)) as [|c cs]; [done|].
  cbn [get_plugins_id_from_collections_list] in Eres.
  unfold prepare_request, bind in Eres. simpl in Eres.
  rewrite Hfail in Eres. simpl in Eres. by subst res.
Qed.

Lemma main_raises_on_unreachable_catalog_witness :
  let res := main 0 (fun _ => URLError ReasonObj) (file_server files_table)
               always_retrieved (fun _ => sched_eager) 3 3 (init_ok ["1"])
               (fresh_world None) in
  fst res = Exn TypeError /\ save_file (snd res) = save_file (fresh_world None).
Proof.
  apply (main_raises_on_unreachable_catalog 0 (fun _ => URLError ReasonObj)
           (file_server files_table) always_retrieved (fun _ => sched_eager) 3 3
           (init_ok ["1"]) (fresh_world None)).
  - done.
  - lia.
  - reflexivity.
  - by vm_compute.
Defined.

(** ** The request payload *)

Lemma dict_set_fresh k v d : dict_get k d = None -> dict_set k v d = d ++ [(k, v)].
Proof.
  induction d as [|[k' v'] d IH]; simpl; [done|].
  destruct (String.eqb k k'); [done|]. intros Hd. by rewrite IH.
Qed.

Lemma set_publishedfileids_fresh l : forall idx d,
  (forall j, idx <= j -> dict_get (publishedfileids_key j) d = None) ->
  set_publishedfileids idx l d
  = d ++ imap (fun i id => (publishedfileids_key (idx + i), VStr id)) l.
Proof.
  induction l as [|x l IH]; intros idx d Hd; simpl; [by rewrite app_nil_r|].
  rewrite IH.
  - rewrite dict_set_fresh by (apply Hd; lia).
    rewrite <- app_assoc. simpl. rewrite Nat.add_0_r. do 2 f_equal.
    apply imap_ext. intros i y _. simpl. do 2 f_equal. lia.
  - intros j Hj. rewrite dict_get_set_ne; [apply Hd; lia|].
    intros Heq%publishedfileids_key_inj. lia.
Qed.

(** The fields of a request whose template is still the initial one. *)
Lemma first_request_fields key ids :
  (forall i, key <> publishedfileids_key i) ->
  set_publishedfileids 0 ids
    (dict_set key (VInt (Z.of_nat (length ids)))
       [(key, VInt 0); (publishedfileids_key 0, VInt 0)])
  = first_request key ids.
Proof.
  intros Hkey. simpl. rewrite String.eqb_refl.
  destruct ids as [|x ids]; [done|].
  cbn [set_publishedfileids dict_set].
  destruct (String.eqb_spec (publishedfileids_key 0) key) as [Heq|_];
    [by destruct (Hkey 0)|].
  rewrite String.eqb_refl.
  rewrite set_publishedfileids_fresh.
  - unfold first_request. by rewrite imap_cons.
  - intros j Hj. cbn [dict_get].
    destruct (String.eqb_spec (publishedfileids_key j) key) as [Heq|_];
      [by destruct (Hkey j)|].
    destruct (String.eqb_spec (publishedfileids_key j) (publishedfileids_key 0))
      as [Heq%publishedfileids_key_inj|_]; [lia | done].
Qed.

(** X19: the first request of a process carries the count and the ids of the
    call in order and nothing else; with no id the placeholder
    [publishedfileids[0]=0] of the template is sent. *)
Theorem first_request_payload
    (urlopen_collection : list (string * string) -> http_result (list collection))
    (urlopen_file : list (string * string) -> http_result (list plugin))
    (ids : list string) (file : option saved_data) (fuel : nat) :
  payloads EpFile (trace (snd (get_plugins_info urlopen_file ids (fresh_world file))))
    = [urlencode (first_request "itemcount" ids)] /\
  head (payloads EpCollection
          (trace (snd (get_plugins_id_from_collections_list urlopen_collection
                         (S fuel) ids (fresh_world file)))))
    = Some (urlencode (first_request "collectioncount" ids)).
Proof.
  split.
  - unfold get_plugins_info, prepare_request, bind.
    cbn [get_const_data set_const_data emit ret fresh_world fst snd
         const_data_file const_data_collection trace save_file].
    change const_data_file0
      with [("itemcount", VInt 0); (publishedfileids_key 0, VInt 0)].
    rewrite first_request_fields
      by (intros i; symmetry; apply publishedfileids_key_not_count).
    by destruct (urlopen_file _) as [| |[]].
  - cbn [get_plugins_id_from_collections_list].
    unfold prepare_request. unfold bind at 1. unfold bind at 1.
    cbn [get_const_data fresh_world const_data_collection].
    unfold bind at 1. cbn [set_const_data]. unfold bind at 1. cbn [emit].
    unfold bind at 1. cbn [ret].
    change const_data_collection0
      with [("collectioncount", VInt 0); (publishedfileids_key 0, VInt 0)].
    rewrite first_request_fields
      by (intros i; symmetry; apply publishedfileids_key_not_count).
    set (w1 := {| const_data_file := _; const_data_collection := _;
                  save_file := _; trace := _ |}).
    assert (Hhead : forall (r : outcome (option catalog_error * list string * list string)
                                 * world),
              (exists evs, trace (snd r) = trace w1 ++ evs) ->
              head (payloads EpCollection (trace (snd r)))
              = Some (urlencode (first_request "collectioncount" ids))).
    { intros r [evs ->]. by subst w1. }
    destruct (urlopen_collection _) as [details|code|[reason|]];
      try (apply Hhead; exists []; by rewrite app_nil_r).
    destruct (sub_collection (scan_response details)) as [|s subs];
      [apply Hhead; exists []; by rewrite app_nil_r|].
    unfold bind.
    destruct (quiet_get_plugins_id_from_collections_list urlopen_collection fuel
                (s :: subs) w1) as (evs & [Ht _] & _).
    destruct (get_plugins_id_from_collections_list urlopen_collection fuel
                (s :: subs) w1) as [[[[[e|] tmp] v]|e|] w2];
      apply Hhead; by exists evs.
Qed.

(** X20: whatever the shared template held before, the request built for
    [ids] posts their number under the count key and the [i]-th id under
    [publishedfileids[i]]; every other field of the template is posted
    with the value it had, and the updated template stays in place for the
    next call. *)
Theorem prepared_request_fields (ep : endpoint) (count_key : string)
    (ids : list string) (w : world) :
  (forall i, count_key <> publishedfileids_key i) ->
  let res := prepare_request ep count_key ids w in
  exists data,
    fst res = Val data /\
    template_of ep (snd res) = data /\
    trace (snd res) = trace w ++ [EvRequest ep (urlencode data)] /\
    dict_get count_key data = Some (VInt (Z.of_nat (length ids))) /\
    (forall i id, ids !! i = Some id ->
       dict_get (publishedfileids_key i) data = Some (VStr id)) /\
    (forall k, k <> count_key ->
       (forall i, i < length ids -> k <> publishedfileids_key i) ->
       dict_get k data = dict_get k (template_of ep w)).
Proof.
  intros Hkey res. subst res.
  exists (set_publishedfileids 0 ids
            (dict_set count_key (VInt (Z.of_nat (length ids))) (template_of ep w))).
  split_and!.
  - by destruct ep.
  - by destruct ep.
  - by destruct ep.
  - rewrite dict_get_set_publishedfileids by (intros; apply Hkey).
    apply dict_get_set_eq.
  - intros i id Hi.
    by rewrite (dict_get_publishedfileids ids 0 _ i id Hi).
  - intros k Hk Hfree.
    rewrite dict_get_set_publishedfileids.
    + by apply dict_get_set_ne.
    + intros i Hi. apply Hfree. simpl in Hi. lia.
Qed.

Lemma prepared_request_fields_witness :
  let res := prepare_request EpFile "itemcount" ["7"]
               (snd (prepare_request EpFile "itemcount" ["8"; "9"]
                       (fresh_world None))) in
  exists data,
    fst res = Val data /\
    template_of EpFile (snd res) = data /\
    trace (snd res)
      = trace (snd (prepare_request EpFile "itemcount" ["8"; "9"] (fresh_world None)))
        ++ [EvRequest EpFile (urlencode data)] /\
    dict_get "itemcount" data = Some (VInt (Z.of_nat (length ["7"]))) /\
    (forall i id, ["7"] !! i = Some id ->
       dict_get (publishedfileids_key i) data = Some (VStr id)) /\
    (forall k, k <> "itemcount" ->
       (forall i, i < length ["7"] -> k <> publishedfileids_key i) ->
       dict_get k data
       = dict_get k (template_of EpFile
                       (snd (prepare_request EpFile "itemcount" ["8"; "9"]
                               (fresh_world None))))).
Proof.
  apply (prepared_request_fields EpFile "itemcount" ["7"]
           (snd (prepare_request EpFile "itemcount" ["8"; "9"] (fresh_world None)))).
  intros i. symmetry. apply publishedfileids_key_not_count.
Defined.

Lemma string_forall_app P s t :
  string_forall P (s +:+ t) = string_forall P s && string_forall P t.
Proof. induction s as [|c s IH]; simpl; [done|]. by rewrite IH, andb_assoc. Qed.

Lemma hex_digit_safe n : (n < 16)%N -> always_safe (hex_digit n) = true.
Proof.
  intros Hn.
  assert (Hall : forallb (fun k => always_safe (hex_digit (N.of_nat k))) (seq 0 16)
                 = true) by reflexivity.
  rewrite forallb_forall in Hall. specialize (Hall (N.to_nat n)).
  rewrite N2Nat.id in Hall. apply Hall, in_seq. lia.
Qed.

Lemma quote_plus_chars s : string_forall payload_char (quote_plus s) = true.
Proof.
  induction s as [|c s IH]; simpl; [done|].
  destruct (always_safe c) eqn:Hsafe.
  - simpl. unfold payload_char at 1. by rewrite Hsafe.
  - destruct (N.eqb_spec (N_of_ascii c) 32).
    + simpl. by rewrite IH.
    + cbn [string_forall]. rewrite IH.
      assert (Hb : (N_of_ascii c < 256)%N) by apply N_ascii_bounded.
      unfold payload_char at 2 3.
      rewrite !hex_digit_safe; [done | |].
      * apply N.mod_lt. lia.
      * apply N.Div0.div_lt_upper_bound. lia.
Qed.

(** X21: every payload is made of unreserved characters, [+], [%], [=] and [&]
    only, whatever the ids are: encoding it as ASCII cannot fail, and a key
    or a value never contains a separator. *)
Theorem payload_is_ascii_safe (d : dict) :
  string_forall payload_char (urlencode d) = true.
Proof.
  unfold urlencode. induction d as [|[k v] d IH]; [done|].
  cbn [map fst snd join_amp].
  assert (Hfield : string_forall payload_char
                     (quote_plus k +:+ "=" +:+ quote_plus (py_str v)) = true).
  { by rewrite !string_forall_app, !quote_plus_chars. }
  destruct (map _ d) as [|f fs] eqn:Hmap; [done|].
  rewrite string_forall_app, Hfield. cbn [andb].
  change ("&" +:+ join_amp (f :: fs)) with (String "&" (join_amp (f :: fs))).
  cbn [string_forall]. by rewrite IH.
Qed.

(** ** Requests per nesting level *)

Lemma max_rank_subs rank cat ids s subs :
  ranked rank cat -> subs_of (children_of cat ids) = s :: subs ->
  max_rank rank (s :: subs) < max_rank rank ids.
Proof.
  intros Hranked Hsubs.
  assert (Hbelow : forall s', s' ∈ s :: subs -> rank s' < max_rank rank ids).
  { intros s'. rewrite <- Hsubs, elem_of_subs_children.
    intros (c & children & Hc & Hcat & Hs).
    apply max_rank_elem with (rank := rank) in Hc.
    pose proof (map_Forall_lookup_1 _ _ _ _ Hranked Hcat) as Hall.
    rewrite Forall_forall in Hall. specialize (Hall s' Hs). simpl in Hall. lia. }
  apply max_rank_below; [|done].
  assert (rank s < max_rank rank ids) by (apply Hbelow; by left). lia.
Qed.

Lemma resolution_requests rank cat :
  ranked rank cat ->
  forall depth ids w, max_rank rank ids < depth ->
  exists evs,
    trace (snd (get_plugins_id_from_collections_list (catalog_server cat) depth ids w))
      = trace w ++ evs /\
    1 <= length (payloads EpCollection evs) <= S (max_rank rank ids).
Proof.
  intros Hranked. induction depth as [|depth IH]; intros ids w Hdepth; [lia|].
  simpl. unfold prepare_request, bind. simpl.
  unfold catalog_server at 1.
  rewrite requested_ids_prepared
    by (intros i; symmetry; apply publishedfileids_key_not_count).
  rewrite scan_response_table. simpl.
  destruct (subs_of (children_of cat ids)) as [|s subs] eqn:Hsubs.
  - exists [EvRequest EpCollection
              (urlencode (set_publishedfileids 0 ids
                            (dict_set "collectioncount"
                               (VInt (Z.of_nat (length ids)))
                               (const_data_collection w))))].
    simpl. split; [done | lia].
  - pose proof (max_rank_subs rank cat ids s subs Hranked Hsubs) as Hlt.
    match goal with
    | |- context [get_plugins_id_from_collections_list _ depth ?l ?w'] =>
        destruct (IH l w') as (evs & Ht & Hlen); [lia|];
        destruct (get_plugins_id_from_collections_list _ depth l w') as [r w'']
    end.
    cbn [snd] in Ht.
    exists (EvRequest EpCollection
              (urlencode (set_publishedfileids 0 ids
                            (dict_set "collectioncount"
                               (VInt (Z.of_nat (length ids)))
                               (const_data_collection w)))) :: evs).
    split.
    + destruct r as [[[[e|] tmp] v]|e|]; cbn [snd ret]; rewrite Ht; cbn [trace];
        by rewrite <- app_assoc.
    + simpl. lia.
Qed.

(** X22: on a catalog with well-founded nesting the resolution sends one
    collection request per nesting level it visits, not one per collection:
    at least one, and at most one more than the highest rank among the ids
    asked for, however many collections the catalog holds. *)
Theorem one_request_per_level (rank : string -> nat) (cat : gmap string (list item))
    (depth : nat) (ids : list string) (w : world) :
  ranked rank cat -> max_rank rank ids < depth ->
  let res := get_plugins_id_from_collections_list (catalog_server cat) depth ids w in
  let sent := payloads EpCollection (drop (length (trace w)) (trace (snd res))) in
  1 <= length sent <= S (max_rank rank ids).
Proof.
  intros Hranked Hdepth res sent.
  destruct (resolution_requests rank cat Hranked depth ids w Hdepth) as (evs & Ht & Hlen).
  subst sent res. by rewrite Ht, drop_app_length.
Qed.

Lemma one_request_per_level_witness :
  let res := get_plugins_id_from_collections_list (catalog_server cat_nested) 4
               ["100"] (fresh_world None) in
  let sent := payloads EpCollection
                (drop (length (trace (fresh_world None))) (trace (snd res))) in
  1 <= length sent <= S (max_rank String.length ["100"]).
Proof.
  apply (one_request_per_level String.length cat_nested 4 ["100"] (fresh_world None)).
  - unfold ranked, cat_nested.
    repeat (apply map_Forall_insert_2; [vm_compute; repeat constructor|]).
    apply map_Forall_empty.
  - vm_compute. lia.
Defined.

Section InitClustered.

Variable getcwd : string.
Variable path_join : string -> string -> string.
Variable abspath : string -> string.
Variable isfile : string -> bool.
Variable path_exists : string -> bool.

(** X14: called as [prog -odir id...], with the directory attached to the
    option, [init] takes [dir] as the output directory but counts two
    arguments for the option: the first id is not among the collection ids
    it returns. *)
Theorem init_attached_output_dir (prog dir : string) (ids : list string) :
  dir <> "" ->
  match ids with
  | [] => True
  | id :: _ => looks_like_option id = false
  end ->
  init getcwd path_join abspath isfile path_exists (prog :: ("-o" +:+ dir) :: ids) =
  InitReturn
    {| init_error := if path_exists (abspath dir) then 0 else 1;
       init_output_dir := abspath dir;
       init_collections_id_list := drop 1 ids |}
    (path_join (abspath dir) "addons.lst").
Proof.
  intros Hdir Hids. destruct dir as [|c dir]; [done|].
  unfold init, getopt. simpl.
  destruct ids as [|id ids]; simpl; [done|]. by rewrite Hids.
Qed.

End InitClustered.

Lemma init_attached_output_dir_witness :
  init "/srv/l4d2" fs_join fs_abspath fs_isfile fs_exists
    ["workshop.py"; "-oaddons"; "100"; "200"] =
  InitReturn
    {| init_error := if fs_exists (fs_abspath "addons") then 0 else 1;
       init_output_dir := fs_abspath "addons";
       init_collections_id_list := ["200"] |}
    (fs_join (fs_abspath "addons") "addons.lst").
Proof.
  apply (init_attached_output_dir "/srv/l4d2" fs_join fs_abspath fs_isfile
           fs_exists "workshop.py" "addons" ["100"; "200"]).
  - discriminate.
  - reflexivity.
Defined.

(** ** Records the worker cannot read *)

Lemma unreadable_verdict old_plugins urlretrieve i p :
  unreadable old_plugins p -> verdict_of old_plugins urlretrieve i p = VKeyError.
Proof.
  intros [[url Hurl] Hmiss]. unfold verdict_of, up_to_date. rewrite Hurl.
  destruct Hmiss as [-> | [-> | (id & m & -> & -> & Hm)]];
    [done | by destruct (title p) |].
  destruct (title p); [|done].
  destruct Hm as [-> | ->]; [done | by destruct (meta_time_updated m)].
Qed.

(** X23: a record that has a [file_url] but lacks another key the worker reads
    is dropped by the batch, whatever the limit and the interleaving: its
    thread ends on the [KeyError] before any download, and the record is
    not returned in [fail], so the run does not retry it. *)
Theorem unreadable_record_is_lost (g_iLimitDownloads : nat) (output_dir : string)
    (old_plugins : gmap string plugin_meta) (urlretrieve : nat -> retrieve_result)
    (sched : nat -> list nat) (batch : list plugin) (p : plugin) :
  unreadable old_plugins p ->
  let st := download_run g_iLimitDownloads output_dir old_plugins urlretrieve
              sched batch in
  (p ∉ d_fail st) /\
  forall i, batch !! i = Some p -> i ∉ retrieved_of (d_events st).
Proof.
  intros Hp st.
  destruct (download_run_verdicts g_iLimitDownloads output_dir old_plugins
              urlretrieve sched batch)
    as (k & _ & _ & _ & Hret & Hfail & _).
  fold st in Hret, Hfail.
  assert (Hv : forall i, batch !! i = Some p ->
            verdict_at old_plugins urlretrieve batch i = VKeyError).
  { intros i Hi. unfold verdict_at. rewrite Hi. by apply unreadable_verdict. }
  split.
  - intros (i & _ & Hi & Hf)%Hfail. rewrite (Hv i Hi) in Hf. discriminate.
  - intros i Hi [_ Ha]%Hret. rewrite (Hv i Hi) in Ha. discriminate.
Qed.

Lemma unreadable_record_is_lost_witness :
  let p := {| publishedfileid := Some "21"; title := None;
              file_url := Some "http://cdn.example/21"; time_updated := Some 9%Z |} in
  let st := download_run 0 "addons" old_two (always_retrieved 0) sched_eager
              [p; mk_plugin "22" 9] in
  (p ∉ d_fail st) /\
  forall i, [p; mk_plugin "22" 9] !! i = Some p -> i ∉ retrieved_of (d_events st).
Proof.
  apply (unreadable_record_is_lost 0 "addons" old_two (always_retrieved 0)
           sched_eager
           [{| publishedfileid := Some "21"; title := None;
               file_url := Some "http://cdn.example/21";
               time_updated := Some 9%Z |}; mk_plugin "22" 9]).
  split; [by eexists | by left].
Defined.
